(** * OMNIVAULT: the client's upload polling, message parsing, request
      building and settings persistence, with the chunking scenario.

    A shallow embedding of the React client (ChatArea.js, App.js,
    Settings.js, Sidebar.js, ThinkingIndicator.js). Identifiers, keys and
    modes are [string]s; the text that [parseMessage] scans, the composer
    trims and the titles are made of is the list of its UTF-16 code units;
    a handler is a function from the component state it reads to the state
    it leaves; JSON
    objects are records whose optional fields are [option]s ([None] is
    JavaScript's [undefined]); localStorage is a finite map from keys to
    strings; what the polling loop does is recorded in an event trace.
    The backend (job tracker, chunker, ingestion pipeline) is not among
    the sources; where a statement needs it, it is modelled from the
    specification and marked so. *)

From Stdlib Require Import String Ascii List Arith Lia Bool ZArith NArith Sorted
  DecimalString.
From stdpp Require Import gmap strings sorting.
From Equations Require Import Equations.
From Equations.Prop Require Import Logic.
Import ListNotations.

Local Open Scope string_scope.
Local Open Scope list_scope.

(* ===================================================================== *)
(** * ChatArea.js: status polling of an uploaded file *)
(* ===================================================================== *)

Module ChatArea.

(** The JSON body of [GET /api/upload/status/<fileId>], as the client reads it. *)
Record StatusJson := mkStatusJson {
  js_status : option string;
  js_progress : option Z;
  js_message : option string;
  js_chunks_added : option Z;
  js_word_count : option Z;
  js_file_type : option string
}.

(** An entry of the [uploadedFiles] state. [newFile] sets the first five
    fields; the others stay [undefined] until a poll fills them. *)
Record UploadedFile := mkUploadedFile {
  f_id : string;
  f_name : string;
  f_status : option string;
  f_progress : Z;
  f_uploadedAt : string;
  f_message : option string;
  f_chunks : option Z;
  f_wordCount : option Z;
  f_fileType : option string
}.

(** [status.progress || 0]: [undefined] and [0] both give [0]. *)
Definition progress_or_zero (p : option Z) : Z :=
  match p with
  | Some z => z
  | None => 0%Z
  end.

(** The object literal [{...f, status: ..., progress: ..., ...}]. *)
Definition withStatus (st : StatusJson) (f : UploadedFile) : UploadedFile :=
  {| f_id := f_id f;
     f_name := f_name f;
     f_status := js_status st;
     f_progress := progress_or_zero (js_progress st);
     f_uploadedAt := f_uploadedAt f;
     f_message := js_message st;
     f_chunks := js_chunks_added st;
     f_wordCount := js_word_count st;
     f_fileType := js_file_type st |}.

(** The updater passed to [setUploadedFiles]:
    [prev => prev.map(f => f.id === fileId ? {...} : f)]. *)
Definition applyStatus (fileId : string) (st : StatusJson)
  (prev : list UploadedFile) : list UploadedFile :=
  map (fun f => if String.eqb (f_id f) fileId then withStatus st f else f) prev.

(** What one [fetch] of the status endpoint can give the [try] block:
    the promise rejects (network error), the response is not [ok], the
    body does not parse, or it parses to a status object. The first three
    end in the [catch]. *)
Inductive PollResponse :=
| NetworkError
| NotOk
| BadJson
| Ok (st : StatusJson).

Definition maxAttempts : nat := 60.

(** [status.status !== 'completed' && status.status !== 'failed'] *)
Definition inProgress (s : option string) : bool :=
  match s with
  | Some x => negb (String.eqb x "completed") && negb (String.eqb x "failed")
  | None => true
  end.

(** What the loop does, in order. *)
Inductive Event :=
| EvFetch (fileId : string)
| EvSetFiles (fileId : string) (st : StatusJson)
| EvTimeout (delay : nat).

(** The closure [poll], with the captured counter [attempts] as an
    argument. Every re-poll increments [attempts], so the fetch that runs
    with [attempts = k] is the one that receives [server k]. *)
Equations? poll (server : nat -> PollResponse) (fileId : string)
  (attempts : nat) : list Event by wf (maxAttempts - attempts) lt :=
poll server fileId attempts with server attempts => {
  | Ok st with inProgress (js_status st), lt_dec attempts maxAttempts => {
    | true, left _ =>
        EvFetch fileId :: EvSetFiles fileId st :: EvTimeout 1000
          :: poll server fileId (S attempts);
    | _, _ => [EvFetch fileId; EvSetFiles fileId st] };
  | _ with lt_dec attempts maxAttempts => {
    | left _ =>
        EvFetch fileId :: EvTimeout 2000 :: poll server fileId (S attempts);
    | right _ => [EvFetch fileId] } }.
Proof.
all: unfold maxAttempts in *; lia.
Qed.

Definition pollFileStatus (server : nat -> PollResponse) (fileId : string)
  : list Event :=
  poll server fileId 0.

(** ** Reading a trace *)

(** Number of [fetch] calls. *)
Fixpoint fetchCount (tr : list Event) : nat :=
  match tr with
  | [] => 0
  | EvFetch _ :: tr' => S (fetchCount tr')
  | _ :: tr' => fetchCount tr'
  end.

(** The delays of the [setTimeout(poll, delay)] calls, in order. *)
Fixpoint delays (tr : list Event) : list nat :=
  match tr with
  | [] => []
  | EvTimeout d :: tr' => d :: delays tr'
  | _ :: tr' => delays tr'
  end.

(** The statuses written to the files list, in order: what the client
    observes of the job. *)
Fixpoint observed (tr : list Event) : list (option string) :=
  match tr with
  | [] => []
  | EvSetFiles _ st :: tr' => js_status st :: observed tr'
  | _ :: tr' => observed tr'
  end.

(** The status updaters of a trace applied, in order, to a files list. *)
Fixpoint replay (tr : list Event) (files : list UploadedFile)
  : list UploadedFile :=
  match tr with
  | [] => files
  | EvSetFiles fid st :: tr' => replay tr' (applyStatus fid st files)
  | _ :: tr' => replay tr' files
  end.

Definition isError (r : PollResponse) : bool :=
  match r with
  | Ok _ => false
  | _ => true
  end.

Definition okStatus (r : PollResponse) : option (option string) :=
  match r with
  | Ok st => Some (js_status st)
  | _ => None
  end.

(** The label the file chip shows next to the name while the status is
    not [completed] (ChatArea.js, the [file-chip-status] span). *)
Definition chipStatusLabel (s : option string) : string :=
  match s with
  | Some x =>
      if String.eqb x "queued" then " (Queued)"
      else if String.eqb x "processing" then " (Processing...)"
      else if String.eqb x "indexing" then " (Indexing...)"
      else if String.eqb x "failed" then " (Failed)"
      else ""
  | None => ""
  end.

(** ** The statuses the specification names *)

Definition forwardOrder : list string :=
  ["queued"; "extracting"; "chunking"; "embedding"; "indexing"; "completed"].

Definition nonTerminal : list string :=
  ["queued"; "extracting"; "chunking"; "embedding"; "indexing"].

Definition jobStatuses : list string := forwardOrder ++ ["failed"].

Definition isJobStatus (s : option string) : Prop :=
  exists x, s = Some x /\ In x jobStatuses.

(** Position of a status in [jobStatuses]; anything else gets 7. *)
Fixpoint indexOf (x : string) (l : list string) : nat :=
  match l with
  | [] => 0
  | y :: l' => if String.eqb x y then 0 else S (indexOf x l')
  end.

Definition statusOrdinal (s : option string) : nat :=
  match s with
  | Some x => indexOf x jobStatuses
  | None => 7
  end.

Definition ordinalStatus (n : nat) : option string :=
  nth_error jobStatuses n.

(** Consecutive repeats collapsed: what remains of the observations when
    several polls in a row saw the same status. *)
Fixpoint destutter (l : list (option string)) : list (option string) :=
  match l with
  | [] => []
  | x :: l' =>
      match l' with
      | y :: _ => if decide (x = y) then destutter l' else x :: destutter l'
      | [] => [x]
      end
  end.

(** The observed statuses as the specification orders them: each is one
    of the seven values, and the sequence, a status that several polls in
    a row found unchanged counted once, is a subsequence of the six
    forward statuses, or a subsequence of the non-terminal ones followed
    by [failed]. *)
Definition statusesForward (obs : list (option string)) : Prop :=
  Forall isJobStatus obs /\
  (sublist (destutter obs) (map Some forwardOrder) \/
   exists pre, destutter obs = pre ++ [Some "failed"] /\
               sublist pre (map Some nonTerminal)).

(** A server whose successive status reads are among the seven values and
    never regress ([failed] is last in the order, hence terminal). *)
Definition forwardOnly (server : nat -> PollResponse) : Prop :=
  forall i j si sj, i <= j -> server i = Ok si -> server j = Ok sj ->
    isJobStatus (js_status si) /\ isJobStatus (js_status sj) /\
    statusOrdinal (js_status si) <= statusOrdinal (js_status sj).

(** Every updater of a polling trace is for the polled file. *)
Definition updatesOnly (fileId : string) (tr : list Event) : Prop :=
  Forall (fun e => match e with
                   | EvSetFiles fid _ => fid = fileId
                   | _ => True
                   end) tr.

(** The order of the statuses along the pipeline. *)
Definition ordLe (x y : option string) : Prop :=
  statusOrdinal x <= statusOrdinal y.

(** The statuses with ordinals [lo], ..., [hi - 1], in order. *)
Definition window (lo hi : nat) : list (option string) :=
  map ordinalStatus (seq lo (hi - lo)).

(** A status body with only [status] and [progress] set. *)
Definition statusBody (s : string) (p : Z) : StatusJson :=
  mkStatusJson (Some s) (Some p) None None None None.

(** A run of the endpoint: a failed read, then [queued], then [failed]. *)
Definition sampleServer (k : nat) : PollResponse :=
  match k with
  | 0 => NotOk
  | 1 => Ok (statusBody "queued" 10)
  | _ => Ok (statusBody "failed" 0)
  end.

(** Two entries of the files list. *)
Definition sampleFiles : list UploadedFile :=
  [mkUploadedFile "file-1" "a.pdf" (Some "queued") 10 "2024-01-01" None None None None;
   mkUploadedFile "file-2" "b.txt" (Some "queued") 10 "2024-01-02" None None None None].

Example chip_labels :
  map chipStatusLabel
      [Some "queued"; Some "processing"; Some "indexing"; Some "failed";
       Some "extracting"; Some "chunking"; Some "embedding"; Some "completed"]
  = [" (Queued)"; " (Processing...)"; " (Indexing...)"; " (Failed)";
     ""; ""; ""; ""].
Proof. reflexivity. Qed.

(** ** The loop, unfolded once *)

Lemma poll_step server fileId attempts :
  poll server fileId attempts =
  match server attempts with
  | Ok st =>
      if inProgress (js_status st) && (attempts <? maxAttempts)%nat
      then EvFetch fileId :: EvSetFiles fileId st :: EvTimeout 1000
             :: poll server fileId (S attempts)
      else [EvFetch fileId; EvSetFiles fileId st]
  | _ =>
      if (attempts <? maxAttempts)%nat
      then EvFetch fileId :: EvTimeout 2000 :: poll server fileId (S attempts)
      else [EvFetch fileId]
  end.
Proof.
  rewrite poll_equation_1. unfold poll_unfold_clause_1.
  destruct (server attempts) as [| | |st];
    [| | |unfold poll_unfold_clause_1_clause_1;
        destruct (inProgress (js_status st))];
    destruct (lt_dec attempts maxAttempts) as [H|H];
    destruct (Nat.ltb_spec attempts maxAttempts) as [H'|H'];
    try reflexivity; exfalso; lia.
Qed.

(** Induction on the attempts still allowed: to prove [P attempts] one may
    assume [P] of the next poll whenever a next poll can be scheduled. *)
Lemma attempts_ind (P : nat -> Prop) :
  (forall a, (a < maxAttempts -> P (S a)) -> P a) -> forall a, P a.
Proof.
  intros step a.
  remember (maxAttempts - a) as m eqn:Hm.
  revert a Hm. induction m as [|m IH]; intros a Hm; apply step; intros Hlt.
  - lia.
  - apply IH. lia.
Qed.

(** Opens a proof about [poll server fileId a] by [attempts_ind] and splits
    on the response and on the two guards of the loop. *)
Ltac poll_cases server fileId a IH :=
  pattern a; apply attempts_ind; clear a; intros a IH;
  rewrite (poll_step server fileId a);
  destruct (server a) as [| | |?st] eqn:?Hresp;
  [| | |destruct (inProgress (js_status st)) eqn:?Hprog];
  destruct (Nat.ltb_spec a maxAttempts) as [?Hlt|?Hge];
  cbn [andb fetchCount delays observed length];
  try specialize (IH Hlt).

Section PollFacts.

Variable server : nat -> PollResponse.
Variable fileId : string.

Lemma poll_fetch_delays a :
  fetchCount (poll server fileId a) = S (length (delays (poll server fileId a))).
Proof.
  poll_cases server fileId a IH; try reflexivity; now rewrite IH.
Qed.

Lemma poll_delays_bound a :
  length (delays (poll server fileId a)) <= maxAttempts - a.
Proof.
  poll_cases server fileId a IH; lia.
Qed.

Lemma poll_delay_kind a : forall k d,
  nth_error (delays (poll server fileId a)) k = Some d ->
  (d = 1000 /\ exists st, server (a + k) = Ok st /\
                          inProgress (js_status st) = true) \/
  (d = 2000 /\ isError (server (a + k)) = true).
Proof.
  poll_cases server fileId a IH; intros k d Hk;
    try (destruct k; discriminate Hk);
    (destruct k as [|k]; cbn [nth_error] in Hk;
     [ injection Hk as <-; rewrite Nat.add_0_r, Hresp; eauto
     | replace (a + S k) with (S a + k) by lia; now apply IH ]).
Qed.

Lemma poll_terminal_stops a : forall k st,
  k < fetchCount (poll server fileId a) ->
  server (a + k) = Ok st -> inProgress (js_status st) = false ->
  fetchCount (poll server fileId a) = S k.
Proof.
  poll_cases server fileId a IH; intros k st' Hk Hst Hterm;
    destruct k as [|k]; try lia.
  all: try (rewrite Nat.add_0_r in Hst; congruence).
  all: replace (a + S k) with (S a + k) in Hst by lia;
    f_equal; apply (IH k st'); solve [lia | assumption].
Qed.

Lemma poll_error_retried a : forall k,
  k < fetchCount (poll server fileId a) ->
  isError (server (a + k)) = true -> a + k < maxAttempts ->
  nth_error (delays (poll server fileId a)) k = Some 2000 /\
  S k < fetchCount (poll server fileId a).
Proof.
  poll_cases server fileId a IH; intros k Hk Herr Hcap;
    destruct k as [|k]; try lia.
  all: try (rewrite Nat.add_0_r, Hresp in Herr; discriminate Herr).
  all: try (split; [reflexivity | rewrite poll_fetch_delays; lia]).
  all: replace (a + S k) with (S a + k) in * by lia; cbn [nth_error];
    destruct (IH k) as [IH1 IH2]; try assumption; try lia;
    split; [assumption | lia].
Qed.

Lemma poll_progress_repolled a : forall k st,
  k < fetchCount (poll server fileId a) ->
  server (a + k) = Ok st -> inProgress (js_status st) = true ->
  a + k < maxAttempts ->
  nth_error (delays (poll server fileId a)) k = Some 1000 /\
  S k < fetchCount (poll server fileId a).
Proof.
  poll_cases server fileId a IH; intros k st' Hk Hst Hprog' Hcap;
    destruct k as [|k]; try lia.
  all: try (rewrite Nat.add_0_r in Hst; congruence).
  all: try (split; [reflexivity | rewrite poll_fetch_delays; lia]).
  all: replace (a + S k) with (S a + k) in * by lia; cbn [nth_error];
    destruct (IH k st') as [IH1 IH2]; try assumption; try lia;
    split; [assumption | lia].
Qed.

Lemma poll_observed a :
  observed (poll server fileId a) =
  omap okStatus (map server (seq a (fetchCount (poll server fileId a)))).
Proof.
  poll_cases server fileId a IH; cbn [seq map omap];
    rewrite Hresp; cbn [okStatus]; try reflexivity; now rewrite IH.
Qed.

End PollFacts.

(** ** Frame lemmas for the files list *)

Lemma applyStatus_length fileId st prev :
  length (applyStatus fileId st prev) = length prev.
Proof. unfold applyStatus. apply length_map. Qed.

Lemma applyStatus_ids fileId st prev :
  map f_id (applyStatus fileId st prev) = map f_id prev.
Proof.
  unfold applyStatus. induction prev as [|f prev IH]; [reflexivity|].
  cbn [map]. rewrite IH. f_equal.
  destruct (String.eqb (f_id f) fileId); reflexivity.
Qed.

Lemma applyStatus_nth fileId st prev i :
  nth_error (applyStatus fileId st prev) i =
  option_map (fun f => if String.eqb (f_id f) fileId then withStatus st f else f)
    (nth_error prev i).
Proof. unfold applyStatus. apply nth_error_map. Qed.

Lemma applyStatus_other fileId st prev i f :
  nth_error prev i = Some f -> f_id f <> fileId ->
  nth_error (applyStatus fileId st prev) i = Some f.
Proof.
  intros Hi Hne. rewrite applyStatus_nth, Hi. cbn [option_map].
  apply String.eqb_neq in Hne. now rewrite Hne.
Qed.

Lemma poll_updatesOnly server fileId a :
  updatesOnly fileId (poll server fileId a).
Proof.
  unfold updatesOnly.
  poll_cases server fileId a IH; repeat constructor; assumption.
Qed.

Lemma replay_frame fileId tr : updatesOnly fileId tr -> forall files,
  length (replay tr files) = length files /\
  map f_id (replay tr files) = map f_id files /\
  forall i f, nth_error files i = Some f -> f_id f <> fileId ->
              nth_error (replay tr files) i = Some f.
Proof.
  induction 1 as [|e tr He Htr IH]; intros files; cbn [replay].
  - auto.
  - destruct e as [fid|fid st|d]; try apply IH.
    subst fid. destruct (IH (applyStatus fileId st files)) as (H1 & H2 & H3).
    rewrite applyStatus_length in H1. rewrite applyStatus_ids in H2.
    repeat split; try assumption.
    intros i f Hi Hne. apply H3; [|assumption].
    now apply applyStatus_other.
Qed.

(** ** Observed statuses *)

Lemma isJobStatus_ordinal s :
  isJobStatus s -> statusOrdinal s < 7 /\ ordinalStatus (statusOrdinal s) = s.
Proof.
  intros (x & -> & Hin). cbn in Hin.
  repeat (destruct Hin as [<- | Hin]; [split; [cbn; lia | reflexivity]|]).
  destruct Hin.
Qed.

Lemma ordinal_inj x y :
  isJobStatus x -> isJobStatus y -> statusOrdinal x = statusOrdinal y -> x = y.
Proof.
  intros Hx Hy Heq.
  destruct (isJobStatus_ordinal x Hx) as [_ <-].
  destruct (isJobStatus_ordinal y Hy) as [_ <-].
  now rewrite Heq.
Qed.

Lemma inProgress_ordinal s :
  isJobStatus s -> inProgress s = true -> statusOrdinal s < 5.
Proof.
  intros (x & -> & Hin) Hp. cbn in Hin.
  repeat (destruct Hin as [<- | Hin]; [try (cbn; lia); discriminate Hp|]).
  destruct Hin.
Qed.

Lemma ordinal_failed s :
  isJobStatus s -> statusOrdinal s = 6 -> s = Some "failed".
Proof.
  intros Hs Heq. destruct (isJobStatus_ordinal s Hs) as [_ <-].
  now rewrite Heq.
Qed.

Lemma window_split lo n hi : lo <= n < hi ->
  window lo hi = window lo n ++ ordinalStatus n :: window (S n) hi.
Proof.
  intros H. unfold window.
  replace (hi - lo) with ((n - lo) + S (hi - S n)) by lia.
  rewrite seq_app, map_app. cbn [seq map].
  now replace (lo + (n - lo)) with n by lia.
Qed.

Lemma destutter_window obs : forall lo hi,
  Forall isJobStatus obs -> StronglySorted ordLe obs ->
  Forall (fun x => lo <= statusOrdinal x < hi) obs ->
  sublist (destutter obs) (window lo hi).
Proof.
  induction obs as [|x obs IH]; intros lo hi Hval Hsort Hrange.
  - apply sublist_nil_l.
  - inversion Hval as [|? ? Hx Hval']; subst.
    inversion Hsort as [|? ? Hsort' Hle]; subst.
    inversion Hrange as [|? ? Hrx Hrange']; subst.
    destruct (isJobStatus_ordinal x Hx) as [_ Hname].
    rewrite (window_split lo (statusOrdinal x) hi) by lia.
    apply sublist_inserts_l. rewrite Hname.
    cbn [destutter]. destruct obs as [|y rest].
    + apply sublist_skip, sublist_nil_l.
    + destruct (decide (x = y)) as [<- | Hne].
      * rewrite <- Hname at 2.
        change (ordinalStatus (statusOrdinal x) :: window (S (statusOrdinal x)) hi)
          with (map ordinalStatus
                  (statusOrdinal x :: seq (S (statusOrdinal x)) (hi - S (statusOrdinal x)))).
        replace (statusOrdinal x :: seq (S (statusOrdinal x)) (hi - S (statusOrdinal x)))
          with (seq (statusOrdinal x) (hi - statusOrdinal x)).
        2:{ replace (hi - statusOrdinal x) with (S (hi - S (statusOrdinal x))) by lia.
            reflexivity. }
        apply (IH (statusOrdinal x) hi); try assumption.
        apply Forall_forall. intros z Hz.
        rewrite Forall_forall in Hle, Hrange'.
        specialize (Hle z Hz). specialize (Hrange' z Hz).
        unfold ordLe in Hle. lia.
      * apply sublist_skip.
        apply (IH (S (statusOrdinal x)) hi); try assumption.
        inversion Hval' as [|? ? Hy _]; subst.
        inversion Hsort' as [|? ? _ Hley]; subst.
        assert (Hxy : statusOrdinal x < statusOrdinal y).
        { inversion Hle as [|? ? Hxy _]; subst. unfold ordLe in Hxy.
          destruct (Nat.eq_dec (statusOrdinal x) (statusOrdinal y)) as [E|E];
            [|lia].
          exfalso. apply Hne. now apply ordinal_inj. }
        apply Forall_forall. intros z Hz.
        rewrite Forall_forall in Hrange'. specialize (Hrange' z Hz).
        split; [|lia].
        apply elem_of_cons in Hz as [-> | Hz]; [lia|].
        rewrite Forall_forall in Hley. specialize (Hley z Hz).
        unfold ordLe in Hley. lia.
Qed.

Lemma destutter_snoc l t :
  ~ In t l -> destutter (l ++ [t]) = destutter l ++ [t].
Proof.
  induction l as [|x l IH]; intros Hnot; [reflexivity|].
  assert (Hnot' : ~ In t l) by (intros H; apply Hnot; now right).
  specialize (IH Hnot').
  destruct l as [|y l'].
  - cbn. destruct (decide (x = t)) as [->|_]; [|reflexivity].
    exfalso. apply Hnot. now left.
  - change ((x :: y :: l') ++ [t]) with (x :: y :: (l' ++ [t])).
    change ((y :: l') ++ [t]) with (y :: (l' ++ [t])) in IH.
    cbn [destutter] in *.
    destruct (decide (x = y)); [assumption|].
    now rewrite IH.
Qed.

(** Nothing is observed after a terminal status. *)
Lemma poll_observed_terminal_last server fileId a : forall l1 x l2,
  observed (poll server fileId a) = l1 ++ x :: l2 ->
  inProgress x = false -> l2 = [].
Proof.
  poll_cases server fileId a IH; intros l1 x l2 Hobs Hterm.
  all: try (now apply (IH l1 x l2)).
  all: try (destruct l1; discriminate Hobs).
  all: destruct l1 as [|y l1]; cbn [app] in Hobs.
  all: try (injection Hobs as Hx Hl2; subst; congruence).
  all: try (injection Hobs as Hx Hl2; subst; reflexivity).
  all: try (injection Hobs as _ Hobs; destruct l1; discriminate Hobs).
  injection Hobs as _ Hobs. now apply (IH l1 x l2).
Qed.

(** Successive successful reads of a forward-only server are valid and
    ordered. *)
Lemma forwardOnly_reads server : forwardOnly server -> forall n a,
  let reads := omap okStatus (map server (seq a n)) in
  Forall isJobStatus reads /\ StronglySorted ordLe reads /\
  Forall (fun x => exists k st, a <= k /\ server k = Ok st /\
                                x = js_status st) reads.
Proof.
  intros Hfwd. induction n as [|n IH]; intros a; cbn zeta.
  - cbn. repeat constructor.
  - cbn [seq map omap]. specialize (IH (S a)). cbn zeta in IH.
    destruct IH as (Hval & Hsort & Hfrom).
    assert (Hfrom' : Forall (fun x => exists k st, a <= k /\
                        server k = Ok st /\ x = js_status st)
                       (omap okStatus (map server (seq (S a) n)))).
    { eapply Forall_impl; [exact Hfrom|].
      intros x (k & st & Hk & Hs & ->). exists k, st. repeat split; [lia|assumption]. }
    destruct (server a) as [| | |st] eqn:Hresp; cbn [okStatus];
      try (repeat split; assumption).
    destruct (Hfwd a a st st (le_n a) Hresp Hresp) as (Hst & _ & _).
    split; [now constructor|].
    split.
    + constructor; [assumption|].
      eapply Forall_impl; [exact Hfrom|].
      intros x (k & st' & Hk & Hs & ->).
      destruct (Hfwd a k st st') as (_ & _ & Hle);
        [lia | assumption | assumption | exact Hle].
    + constructor; [|assumption]. exists a, st. auto.
Qed.

Lemma forward_observations obs :
  Forall isJobStatus obs -> StronglySorted ordLe obs ->
  (forall l1 x l2, obs = l1 ++ x :: l2 -> inProgress x = false -> l2 = []) ->
  statusesForward obs.
Proof.
  intros Hval Hsort Hlast. split; [assumption|].
  destruct obs as [|x0 obs0] using rev_ind; [left; apply sublist_nil_l|].
  clear IHobs0. rename x0 into t, obs0 into body.
  apply Forall_app in Hval as [Hvalb Hvalt].
  inversion Hvalt as [|? ? Ht _]; subst.
  assert (Hbody : Forall (fun x => 0 <= statusOrdinal x < 5) body).
  { apply Forall_forall. intros x Hx.
    apply list_elem_of_In, in_split in Hx as (l1 & l2 & ->).
    rewrite Forall_forall in Hvalb.
    assert (Hxv : isJobStatus x)
      by (apply Hvalb, list_elem_of_In, in_or_app; right; now left).
    destruct (inProgress x) eqn:Hp.
    - pose proof (inProgress_ordinal x Hxv Hp). lia.
    - specialize (Hlast l1 x (l2 ++ [t])).
      rewrite <- app_assoc in Hlast. specialize (Hlast eq_refl Hp).
      destruct l2; discriminate Hlast. }
  destruct (isJobStatus_ordinal t Ht) as [Hlt _].
  destruct (Nat.eq_dec (statusOrdinal t) 6) as [H6|H6].
  - right. apply ordinal_failed in H6; [|assumption]. subst t.
    exists (destutter body). split.
    + apply destutter_snoc. intros Hin.
      rewrite Forall_forall in Hbody.
      apply list_elem_of_In, Hbody in Hin. cbn in Hin. lia.
    + apply (destutter_window body 0 5); try assumption.
      apply StronglySorted_app in Hsort. tauto.
  - left. apply (destutter_window (body ++ [t]) 0 6); try assumption.
    + apply Forall_app. split; assumption.
    + apply Forall_app. split.
      * eapply Forall_impl; [exact Hbody|]. cbn. intros; lia.
      * constructor; [lia|constructor].
Qed.

(** ** Properties of the polling loop *)

(** C2. Whatever the server answers, the polling loop started by
    [pollFileStatus] ends: the trace is finite, at most [maxAttempts = 60]
    re-polls are scheduled (the counter [attempts] of the source counts
    them; with the first poll that is at most 61 fetches), a re-poll after
    a status that is still in progress waits 1000 ms and a re-poll after a
    failed read waits 2000 ms, and no other delay occurs. *)
Theorem polling_terminates_within_cap (server : nat -> PollResponse)
  (fileId : string) :
  let tr := pollFileStatus server fileId in
  maxAttempts = 60 /\
  length (delays tr) <= maxAttempts /\
  fetchCount tr = S (length (delays tr)) /\
  fetchCount tr <= S maxAttempts /\
  (forall k d, nth_error (delays tr) k = Some d ->
     (d = 1000 /\ exists st, server k = Ok st /\
                             inProgress (js_status st) = true) \/
     (d = 2000 /\ isError (server k) = true)) /\
  (forall k st, k < fetchCount tr -> k < maxAttempts ->
     server k = Ok st -> inProgress (js_status st) = true ->
     nth_error (delays tr) k = Some 1000) /\
  (forall k, k < fetchCount tr -> k < maxAttempts ->
     isError (server k) = true ->
     nth_error (delays tr) k = Some 2000).
Proof.
  unfold pollFileStatus. cbn zeta.
  split; [reflexivity|].
  split; [pose proof (poll_delays_bound server fileId 0); lia|].
  split; [apply poll_fetch_delays|].
  split; [rewrite poll_fetch_delays;
          pose proof (poll_delays_bound server fileId 0); lia|].
  split; [intros k d Hk; apply (poll_delay_kind server fileId 0 k d Hk)|].
  split.
  - intros k st Hk Hcap Hst Hprog.
    now apply (poll_progress_repolled server fileId 0 k st).
  - intros k Hk Hcap Herr.
    now apply (poll_error_retried server fileId 0 k).
Qed.

(** When every read fails the loop makes its 60 re-polls, 2000 ms apart:
    61 fetches in all. *)
Example always_failing_reads :
  fetchCount (pollFileStatus (fun _ => NetworkError) "file-1") = 61 /\
  delays (pollFileStatus (fun _ => NetworkError) "file-1") = repeat 2000 60.
Proof. split; vm_compute; reflexivity. Qed.

(** The bound and the two delays on the sample run: 2000 ms after the
    failed read, 1000 ms after [queued]. *)
Lemma polling_terminates_within_cap_witness :
  length (delays (pollFileStatus sampleServer "file-1")) <= maxAttempts /\
  nth_error (delays (pollFileStatus sampleServer "file-1")) 0 = Some 2000 /\
  nth_error (delays (pollFileStatus sampleServer "file-1")) 1 = Some 1000.
Proof.
  destruct (polling_terminates_within_cap sampleServer "file-1")
    as (_ & Hcap & _ & _ & _ & Hprog & Herr).
  split; [exact Hcap|]. split.
  - apply Herr; [vm_compute; lia | vm_compute; lia | reflexivity].
  - apply (Hprog 1 (statusBody "queued" 10));
      [vm_compute; lia | vm_compute; lia | reflexivity | reflexivity].
Defined.

(** C3. Once a poll returns the status [failed] or [completed], that poll
    is the last one: no timer is set and no further fetch is made. A poll
    whose read failed (network error, a response that is not ok, or a body
    that does not parse) is followed, while the attempt cap allows, by a
    timer of 2000 ms and one more poll. *)
Theorem terminal_status_stops_errors_retry (server : nat -> PollResponse)
  (fileId : string) :
  let tr := pollFileStatus server fileId in
  (forall k st, k < fetchCount tr -> server k = Ok st ->
     js_status st = Some "failed" \/ js_status st = Some "completed" ->
     fetchCount tr = S k /\ length (delays tr) = k) /\
  (forall k, k < fetchCount tr ->
     server k = NetworkError \/ server k = NotOk \/ server k = BadJson ->
     k < maxAttempts ->
     nth_error (delays tr) k = Some 2000 /\ S k < fetchCount tr).
Proof.
  unfold pollFileStatus. cbn zeta. split.
  - intros k st Hk Hst Hterm.
    assert (Hdone : inProgress (js_status st) = false)
      by (destruct Hterm as [-> | ->]; reflexivity).
    pose proof (poll_terminal_stops server fileId 0 k st Hk Hst Hdone) as Hn.
    pose proof (poll_fetch_delays server fileId 0). split; [assumption | lia].
  - intros k Hk Herr Hcap.
    apply (poll_error_retried server fileId 0 k Hk); [|lia].
    cbn [Nat.add]. destruct Herr as [-> | [-> | ->]]; reflexivity.
Qed.

(** On the sample run the third poll returns [failed] and is the last;
    the failed read of the first poll is followed by a second poll. *)
Lemma terminal_status_stops_errors_retry_witness :
  fetchCount (pollFileStatus sampleServer "file-1") = 3 /\
  length (delays (pollFileStatus sampleServer "file-1")) = 2 /\
  nth_error (delays (pollFileStatus sampleServer "file-1")) 0 = Some 2000 /\
  1 < fetchCount (pollFileStatus sampleServer "file-1").
Proof.
  destruct (terminal_status_stops_errors_retry sampleServer "file-1")
    as (Hstop & Hretry).
  destruct (Hstop 2 (statusBody "failed" 0)) as (H1 & H2);
    [vm_compute; lia | reflexivity | left; reflexivity |].
  destruct (Hretry 0) as (H3 & H4);
    [vm_compute; lia | right; left; reflexivity | vm_compute; lia |].
  repeat split; assumption.
Defined.

(** C9. A status update of the polling loop maps over the files list: the
    list keeps its length and the order of its entries; an entry whose id
    is not the polled file id is returned as it was; an entry with the
    polled id keeps its id, name and upload time and gets status, progress,
    message, chunks, wordCount and fileType from the response. The same
    frame holds for all the updates of a whole polling run. *)
Theorem status_update_rewrites_only_polled_entry (fileId : string)
  (st : StatusJson) (prev : list UploadedFile) :
  length (applyStatus fileId st prev) = length prev /\
  map f_id (applyStatus fileId st prev) = map f_id prev /\
  (forall i f, nth_error prev i = Some f ->
     (f_id f <> fileId -> nth_error (applyStatus fileId st prev) i = Some f) /\
     (f_id f = fileId ->
        nth_error (applyStatus fileId st prev) i =
        Some {| f_id := f_id f;
                f_name := f_name f;
                f_status := js_status st;
                f_progress := progress_or_zero (js_progress st);
                f_uploadedAt := f_uploadedAt f;
                f_message := js_message st;
                f_chunks := js_chunks_added st;
                f_wordCount := js_word_count st;
                f_fileType := js_file_type st |})) /\
  (forall server,
     let files' := replay (pollFileStatus server fileId) prev in
     length files' = length prev /\
     map f_id files' = map f_id prev /\
     forall i f, nth_error prev i = Some f -> f_id f <> fileId ->
                 nth_error files' i = Some f).
Proof.
  split; [apply applyStatus_length|].
  split; [apply applyStatus_ids|].
  split.
  - intros i f Hi. split.
    + now apply applyStatus_other.
    + intros Heq. rewrite applyStatus_nth, Hi. cbn [option_map].
      apply String.eqb_eq in Heq. now rewrite Heq.
  - intros server. cbn zeta. apply replay_frame.
    unfold pollFileStatus. apply poll_updatesOnly.
Qed.

(** A poll of file-2 leaves the entry of file-1 as it was. *)
Lemma status_update_rewrites_only_polled_entry_witness :
  nth_error (applyStatus "file-2" (statusBody "indexing" 90) sampleFiles) 0
  = nth_error sampleFiles 0.
Proof.
  destruct (status_update_rewrites_only_polled_entry
              "file-2" (statusBody "indexing" 90) sampleFiles)
    as (_ & _ & Hentry & _).
  destruct (Hentry 0
              (mkUploadedFile "file-1" "a.pdf" (Some "queued") 10 "2024-01-01"
                              None None None None) eq_refl) as (Hother & _).
  apply Hother. discriminate.
Defined.

End ChatArea.

(* ===================================================================== *)
(** * The job tracker behind the status endpoint *)
(* ===================================================================== *)

Module JobTracker.
Import ChatArea.

(** Modelled from the spec: the status of an ingestion job (section 3);
    the backend that holds the jobs is not among the sources. *)
Inductive JobStatus :=
| Queued | Extracting | Chunking | Embedding | Indexing | Completed | Failed.

(** Modelled from the spec: the wire name of a status (section 3). *)
Definition statusName (s : JobStatus) : string :=
  match s with
  | Queued => "queued"
  | Extracting => "extracting"
  | Chunking => "chunking"
  | Embedding => "embedding"
  | Indexing => "indexing"
  | Completed => "completed"
  | Failed => "failed"
  end.

(** Modelled from the spec: the state ordinal along
    [queued -> extracting -> chunking -> embedding -> indexing -> completed]
    (section 4.5). *)
Definition stateOrdinal (s : JobStatus) : nat :=
  match s with
  | Queued => 0
  | Extracting => 1
  | Chunking => 2
  | Embedding => 3
  | Indexing => 4
  | Completed => 5
  | Failed => 6
  end.

(** Modelled from the spec: [completed] and [failed] are the terminal
    statuses (sections 4.5 and 4.6). *)
Definition isTerminal (s : JobStatus) : bool :=
  match s with
  | Completed | Failed => true
  | _ => false
  end.

(** Modelled from the spec: [update(jobId, patch)] of the Job Tracker
    (section 4.6) on the status of one job. A terminal status stays; any
    non-terminal status may become [failed]; any other write is rejected
    when it would regress the state ordinal. *)
Definition update (cur new : JobStatus) : JobStatus :=
  if isTerminal cur then cur
  else match new with
       | Failed => Failed
       | _ => if (stateOrdinal cur <=? stateOrdinal new)%nat then new else cur
       end.

(** Modelled from the spec: the status a reader sees at the [k]-th poll,
    for a job created in [queued], when [writes i] are the updates the
    pipeline attempts between poll [i - 1] and poll [i]. *)
Fixpoint statusAt (writes : nat -> list JobStatus) (k : nat) : JobStatus :=
  fold_left update (writes k)
    match k with
    | 0 => Queued
    | S k' => statusAt writes k'
    end.

(** Modelled from the spec: the status endpoint over the tracker
    (section 6, "Poll job status"). The [k]-th read either fails
    transiently ([readOk k = false]) or answers with the tracked status
    and whatever other fields [body k] carries. *)
Definition trackedServer (writes : nat -> list JobStatus)
  (readOk : nat -> bool) (body : nat -> StatusJson) (k : nat) : PollResponse :=
  if readOk k
  then Ok {| js_status := Some (statusName (statusAt writes k));
             js_progress := js_progress (body k);
             js_message := js_message (body k);
             js_chunks_added := js_chunks_added (body k);
             js_word_count := js_word_count (body k);
             js_file_type := js_file_type (body k) |}
  else NotOk.

(** A job that is still [queued] at the first two polls and has run to
    [completed] by the third. *)
Definition slowStart (k : nat) : list JobStatus :=
  match k with
  | 2 => [Extracting; Chunking; Embedding; Indexing; Completed]
  | _ => []
  end.

Definition emptyBody : StatusJson :=
  mkStatusJson None None None None None None.

Lemma statusName_ordinal s :
  statusOrdinal (Some (statusName s)) = stateOrdinal s.
Proof. destruct s; reflexivity. Qed.

Lemma statusName_valid s : isJobStatus (Some (statusName s)).
Proof.
  exists (statusName s). split; [reflexivity|].
  destruct s; cbn; tauto.
Qed.

Lemma update_forward cur new : stateOrdinal cur <= stateOrdinal (update cur new).
Proof.
  unfold update. destruct (isTerminal cur); [lia|].
  destruct new; try (destruct cur; cbn; lia);
    match goal with
    | |- context [(?a <=? ?b)%nat] => destruct (Nat.leb_spec a b); lia
    end.
Qed.

Lemma fold_update_forward ws : forall cur,
  stateOrdinal cur <= stateOrdinal (fold_left update ws cur).
Proof.
  induction ws as [|w ws IH]; intros cur; cbn [fold_left]; [lia|].
  pose proof (update_forward cur w). specialize (IH (update cur w)). lia.
Qed.

Lemma statusAt_step writes k :
  stateOrdinal (statusAt writes k) <= stateOrdinal (statusAt writes (S k)).
Proof. cbn [statusAt]. apply fold_update_forward. Qed.

Lemma statusAt_mono writes i j : i <= j ->
  stateOrdinal (statusAt writes i) <= stateOrdinal (statusAt writes j).
Proof.
  induction 1 as [|j _ IH]; [lia|].
  pose proof (statusAt_step writes j). lia.
Qed.

Lemma trackedServer_forwardOnly writes readOk body :
  forwardOnly (trackedServer writes readOk body).
Proof.
  intros i j si sj Hij Hi Hj. unfold trackedServer in Hi, Hj.
  destruct (readOk i); [|discriminate Hi].
  destruct (readOk j); [|discriminate Hj].
  injection Hi as <-. injection Hj as <-. cbn [js_status].
  rewrite !statusName_ordinal.
  repeat split; try apply statusName_valid.
  now apply statusAt_mono.
Qed.

(** A job that two successive polls find [queued] is observed as
    [queued; queued; completed]: the polls repeat a status that has not
    changed. *)
Example unchanged_status_is_seen_again :
  observed (pollFileStatus
              (trackedServer slowStart (fun _ => true) (fun _ => emptyBody))
              "file-1")
  = [Some "queued"; Some "queued"; Some "completed"].
Proof. vm_compute. reflexivity. Qed.

(** C1. For a job held by the tracker and read through the polling
    client, whatever the pipeline writes and whichever reads fail: the
    client records the status of each successful poll as sent, in poll
    order, and nothing after the first [completed] or [failed]; every
    recorded status is one of the seven values; no recorded status
    regresses: each is at the same place of
    [queued; extracting; chunking; embedding; indexing; completed] as
    every status recorded before it or further along, [failed] counting
    as last; and the recorded sequence, a status that several polls in a
    row found unchanged counted once, is a subsequence of that list, or a
    subsequence of the five non-terminal statuses followed by
    [failed]. *)
Theorem observed_statuses_forward (writes : nat -> list JobStatus)
  (readOk : nat -> bool) (body : nat -> StatusJson) (fileId : string) :
  let server := trackedServer writes readOk body in
  let tr := pollFileStatus server fileId in
  observed tr = omap okStatus (map server (seq 0 (fetchCount tr))) /\
  (forall l1 x l2, observed tr = l1 ++ x :: l2 ->
     x = Some "completed" \/ x = Some "failed" -> l2 = []) /\
  StronglySorted ordLe (observed tr) /\
  statusesForward (observed tr).
Proof.
  cbn zeta. unfold pollFileStatus.
  set (server := trackedServer writes readOk body).
  pose proof (trackedServer_forwardOnly writes readOk body) as Hfwd.
  fold server in Hfwd.
  assert (Hlast : forall l1 x l2,
            observed (poll server fileId 0) = l1 ++ x :: l2 ->
            inProgress x = false -> l2 = [])
    by apply poll_observed_terminal_last.
  pose proof (forwardOnly_reads server Hfwd
                (fetchCount (poll server fileId 0)) 0) as Hreads.
  cbn zeta in Hreads. rewrite <- poll_observed in Hreads.
  destruct Hreads as (Hval & Hsort & _).
  split; [apply poll_observed|].
  split; [|split; [exact Hsort|]].
  - intros l1 x l2 Hobs Hx. apply (Hlast l1 x l2 Hobs).
    destruct Hx as [-> | ->]; reflexivity.
  - now apply forward_observations.
Qed.

(** The statement at the job that is found [queued] twice. *)
Lemma observed_statuses_forward_witness :
  statusesForward
    (observed (pollFileStatus
                 (trackedServer slowStart (fun _ => true) (fun _ => emptyBody))
                 "file-1")).
Proof.
  apply (observed_statuses_forward slowStart (fun _ => true)
           (fun _ => emptyBody) "file-1").
Defined.

End JobTracker.

(* ===================================================================== *)
(** * App.js: the chat request and the reply *)
(* ===================================================================== *)

Module App.

Local Unset Elimination Schemes.

(** JavaScript values as they occur in the request and response bodies. *)
Inductive JsValue :=
| JUndefined
| JNull
| JBool (b : bool)
| JNumber (n : Z)
| JString (s : string)
| JArray (items : list JsValue)
| JObject (fields : list (string * JsValue)).

Local Set Elimination Schemes.

(** Property read [obj.key]: [undefined] when the key is absent. *)
Fixpoint lookupField (key : string) (fields : list (string * JsValue)) : JsValue :=
  match fields with
  | [] => JUndefined
  | (k, v) :: rest => if String.eqb k key then v else lookupField key rest
  end.

Definition getField (key : string) (v : JsValue) : JsValue :=
  match v with
  | JObject fields => lookupField key fields
  | _ => JUndefined
  end.

Definition hasField (key : string) (v : JsValue) : bool :=
  match v with
  | JObject fields => existsb (fun kv => String.eqb (fst kv) key) fields
  | _ => false
  end.

(** JavaScript truthiness and the operator [a || b]. *)
Definition truthy (v : JsValue) : bool :=
  match v with
  | JUndefined | JNull => false
  | JBool b => b
  | JNumber n => negb (Z.eqb n 0)
  | JString s => negb (String.eqb s "")
  | JArray _ | JObject _ => true
  end.

Definition jsOr (a b : JsValue) : JsValue := if truthy a then a else b.

(** A message of the current conversation. *)
Record Message := mkMessage {
  m_role : string;
  m_content : string;
  m_id : Z
}.

Record Request := mkRequest {
  r_url : string;
  r_method : string;
  r_body : JsValue
}.

(** "Map frontend modes to backend modes": the values of [backendMode]
    and [useRag] after the [if] chain. *)
Definition mapMode (mode : string) : string * bool :=
  if String.eqb mode "rag-enhanced" then ("chat", true)
  else if String.eqb mode "summarize" then ("summarize", false)
  else if String.eqb mode "deep-research" then ("deep-research", true)
  else ("chat", true).

(** [messages.map(msg => ({role: msg.role, content: msg.content}))] *)
Definition conversationHistory (messages : list Message) : list JsValue :=
  map (fun msg => JObject [("role", JString (m_role msg));
                           ("content", JString (m_content msg))]) messages.

(** The [fetch] that [addMessage] issues. [messages] is the state before
    the new user message is appended. *)
Definition buildRequest (messages : list Message) (userMessage mode : string)
  : Request :=
  let '(backendMode, useRag) := mapMode mode in
  if String.eqb mode "deep-research"
  then {| r_url := "/api/deep-research";
          r_method := "POST";
          r_body := JObject [("query", JString userMessage)] |}
  else {| r_url := "/api/chat";
          r_method := "POST";
          r_body := JObject [("message", JString userMessage);
                             ("mode", JString backendMode);
                             ("use_rag", JBool useRag);
                             ("conversation_history",
                              JArray (conversationHistory messages))] |}.

(** [data.response || data.summary || data.research || ''], then the
    check [if (!responseText) throw ...]: [None] is the thrown error. *)
Definition responseText (data : JsValue) : JsValue :=
  jsOr (jsOr (jsOr (getField "response" data) (getField "summary" data))
             (getField "research" data))
       (JString "").

Definition readReply (data : JsValue) : option JsValue :=
  if truthy (responseText data) then Some (responseText data) else None.

(** The four fields of the chat/generate request (wire names). *)
Definition chatFields : list string :=
  ["message"; "mode"; "use_rag"; "conversation_history"].

Definition carriesChatFields (r : Request) : Prop :=
  forall k, In k chatFields -> hasField k (r_body r) = true.

(** The value of the [use_rag] field of a request body, if it has one. *)
Definition requestUseRag (r : Request) : JsValue := getField "use_rag" (r_body r).

Example chat_request :
  buildRequest [mkMessage "user" "hi" 1; mkMessage "assistant" "hello" 2]
               "and then?" "chat"
  = {| r_url := "/api/chat";
       r_method := "POST";
       r_body := JObject
         [("message", JString "and then?");
          ("mode", JString "chat");
          ("use_rag", JBool true);
          ("conversation_history",
           JArray [JObject [("role", JString "user"); ("content", JString "hi")];
                   JObject [("role", JString "assistant");
                            ("content", JString "hello")]])] |}.
Proof. reflexivity. Qed.

Example summary_reply :
  readReply (JObject [("summary", JString "short"); ("mode", JString "summarize")])
  = Some (JString "short").
Proof. reflexivity. Qed.

Example empty_reply : readReply (JObject [("response", JString "")]) = None.
Proof. reflexivity. Qed.

Lemma mapMode_useRag mode :
  snd (mapMode mode) = negb (String.eqb mode "summarize").
Proof.
  unfold mapMode.
  destruct (String.eqb_spec mode "rag-enhanced") as [->|_]; [reflexivity|].
  destruct (String.eqb_spec mode "summarize") as [->|_]; [reflexivity|].
  destruct (String.eqb mode "deep-research"); reflexivity.
Qed.

Lemma buildRequest_chat messages userMessage mode :
  mode <> "deep-research" ->
  buildRequest messages userMessage mode =
  {| r_url := "/api/chat";
     r_method := "POST";
     r_body := JObject [("message", JString userMessage);
                        ("mode", JString (fst (mapMode mode)));
                        ("use_rag", JBool (snd (mapMode mode)));
                        ("conversation_history",
                         JArray (conversationHistory messages))] |}.
Proof.
  intros Hne. unfold buildRequest. destruct (mapMode mode) as [bm rag].
  apply String.eqb_neq in Hne. now rewrite Hne.
Qed.

Lemma buildRequest_research messages userMessage :
  buildRequest messages userMessage "deep-research" =
  {| r_url := "/api/deep-research";
     r_method := "POST";
     r_body := JObject [("query", JString userMessage)] |}.
Proof. reflexivity. Qed.

Lemma readReply_source data r :
  readReply data = Some r ->
  truthy r = true /\
  ((r = getField "response" data) \/
   (truthy (getField "response" data) = false /\
    r = getField "summary" data) \/
   (truthy (getField "response" data) = false /\
    truthy (getField "summary" data) = false /\
    r = getField "research" data)).
Proof.
  unfold readReply, responseText, jsOr.
  destruct (truthy (getField "response" data)) eqn:H1;
    [|destruct (truthy (getField "summary" data)) eqn:H2;
      [|destruct (truthy (getField "research" data)) eqn:H3]];
    rewrite ?H1, ?H2, ?H3; cbn [truthy String.eqb negb];
    intros H; try discriminate H; injection H as <-; auto 7.
Qed.

(** C4, as stated, fails: in deep-research mode the request carries none
    of the four chat fields. *)
Lemma research_request_lacks_chat_fields :
  ~ carriesChatFields (buildRequest [] "what changed?" "deep-research").
Proof.
  intros H. specialize (H "message"). cbn in H.
  discriminate H. now left.
Qed.

(** C4, amended. In every mode other than deep-research the request goes
    to /api/chat and its body is exactly the four fields message (the user
    message), mode (the backend mode), use_rag and conversation_history
    (role and content of each prior turn, in order, without the new
    message). In deep-research mode the request goes to
    /api/deep-research and its body is the single field query. In every
    mode the reply text is the first truthy one of the response fields
    response, summary and research, and an error is raised when none
    is. *)
Theorem chat_request_fields_and_reply (messages : list Message)
  (userMessage mode : string) (data : JsValue) :
  (mode <> "deep-research" ->
     let r := buildRequest messages userMessage mode in
     r_url r = "/api/chat" /\
     r_body r = JObject [("message", JString userMessage);
                         ("mode", JString (fst (mapMode mode)));
                         ("use_rag", JBool (snd (mapMode mode)));
                         ("conversation_history",
                          JArray (conversationHistory messages))] /\
     carriesChatFields r /\
     map (getField "role") (conversationHistory messages)
       = map (fun m => JString (m_role m)) messages /\
     map (getField "content") (conversationHistory messages)
       = map (fun m => JString (m_content m)) messages) /\
  (mode = "deep-research" ->
     let r := buildRequest messages userMessage mode in
     r_url r = "/api/deep-research" /\
     r_body r = JObject [("query", JString userMessage)]) /\
  (forall r, readReply data = Some r ->
     truthy r = true /\
     ((r = getField "response" data) \/
      (truthy (getField "response" data) = false /\
       r = getField "summary" data) \/
      (truthy (getField "response" data) = false /\
       truthy (getField "summary" data) = false /\
       r = getField "research" data))) /\
  (readReply data = None <->
     truthy (getField "response" data) = false /\
     truthy (getField "summary" data) = false /\
     truthy (getField "research" data) = false).
Proof.
  split; [|split; [|split]].
  - intros Hne. cbn zeta. rewrite (buildRequest_chat _ _ _ Hne). cbn [r_url r_body].
    split; [reflexivity|]. split; [reflexivity|]. split.
    + intros k Hk. cbn in Hk.
      repeat (destruct Hk as [<- | Hk]; [reflexivity|]). destruct Hk.
    + unfold conversationHistory. rewrite !map_map. split; reflexivity.
  - intros ->. cbn zeta. rewrite buildRequest_research. split; reflexivity.
  - apply readReply_source.
  - unfold readReply, responseText, jsOr.
    destruct (truthy (getField "response" data)) eqn:H1;
      [|destruct (truthy (getField "summary" data)) eqn:H2;
        [|destruct (truthy (getField "research" data)) eqn:H3]];
      cbn [truthy String.eqb negb]; rewrite ?H1, ?H2, ?H3;
      (split; [intros H; try discriminate H; auto
              |intros (A & B & C); try discriminate; reflexivity]).
Qed.

(** The request of chat mode after one exchange, and the reply read from
    the [summary] field. *)
Lemma chat_request_fields_and_reply_witness :
  r_url (buildRequest [mkMessage "user" "hi" 1; mkMessage "assistant" "hello" 2]
                      "and then?" "chat") = "/api/chat" /\
  carriesChatFields
    (buildRequest [mkMessage "user" "hi" 1; mkMessage "assistant" "hello" 2]
                  "and then?" "chat") /\
  truthy (JString "short") = true.
Proof.
  destruct (chat_request_fields_and_reply
              [mkMessage "user" "hi" 1; mkMessage "assistant" "hello" 2]
              "and then?" "chat"
              (JObject [("summary", JString "short")]))
    as (Hchat & _ & Hreply & _).
  destruct Hchat as (Hurl & _ & Hfields & _); [discriminate|].
  destruct (Hreply (JString "short") eq_refl) as (Htruthy & _).
  repeat split; assumption.
Defined.

(** C6, as stated, fails: the deep-research request has no [use_rag]
    field, so it does not carry [use_rag = true]. *)
Lemma research_request_has_no_use_rag :
  requestUseRag (buildRequest [] "what changed?" "deep-research") <> JBool true.
Proof. cbn. discriminate. Qed.

(** C6, amended. The mode mapping computes [useRag = false] for summarize
    and [useRag = true] for every other mode, recognised or not. The
    request of summarize mode carries [use_rag = false]; the request of
    chat, rag-enhanced and any unrecognised mode carries [use_rag = true];
    the deep-research request, sent to its own endpoint, carries no
    [use_rag] field at all. *)
Theorem use_rag_by_mode (messages : list Message) (userMessage mode : string) :
  snd (mapMode mode) = negb (String.eqb mode "summarize") /\
  (mode = "summarize" ->
     requestUseRag (buildRequest messages userMessage mode) = JBool false) /\
  (mode <> "summarize" -> mode <> "deep-research" ->
     requestUseRag (buildRequest messages userMessage mode) = JBool true) /\
  (mode = "deep-research" ->
     snd (mapMode mode) = true /\
     requestUseRag (buildRequest messages userMessage mode) = JUndefined /\
     hasField "use_rag" (r_body (buildRequest messages userMessage mode)) = false).
Proof.
  split; [apply mapMode_useRag|]. split; [|split].
  - intros ->. reflexivity.
  - intros Hs Hd. unfold requestUseRag.
    rewrite (buildRequest_chat _ _ _ Hd). cbn.
    rewrite mapMode_useRag. apply String.eqb_neq in Hs. now rewrite Hs.
  - intros ->. repeat split.
Qed.

(** The [use_rag] field of a summarize request and of a chat request. *)
Lemma use_rag_by_mode_witness :
  requestUseRag (buildRequest [] "shorten this" "summarize") = JBool false /\
  requestUseRag (buildRequest [] "hello" "chat") = JBool true.
Proof.
  split.
  - destruct (use_rag_by_mode [] "shorten this" "summarize") as (_ & H & _).
    now apply H.
  - destruct (use_rag_by_mode [] "hello" "chat") as (_ & _ & H & _).
    apply H; discriminate.
Defined.

End App.

(* ===================================================================== *)
(** * ChatArea.js: the upload file selector *)
(* ===================================================================== *)

Module FileInput.

(** [fileInput.accept] of the 'add-files' action. *)
Definition accept : string :=
  ".pdf,.doc,.docx,.txt,.md,.py,.js,.java,.cpp,.c,.html,.css,.json,.xml".

(** The comma-separated tokens of an [accept] attribute. *)
Fixpoint splitOn (sep : ascii) (s : string) : list string :=
  match s with
  | EmptyString => [EmptyString]
  | String c rest =>
      if Ascii.eqb c sep then EmptyString :: splitOn sep rest
      else match splitOn sep rest with
           | [] => [String c EmptyString]
           | tok :: toks => String c tok :: toks
           end
  end.

Definition acceptTokens : list string := splitOn "," accept.

(** ASCII lower-casing: extension tokens match case-insensitively. *)
Definition lowerChar (c : ascii) : ascii :=
  let n := nat_of_ascii c in
  if (65 <=? n)%nat && (n <=? 90)%nat then ascii_of_nat (n + 32) else c.

Fixpoint lowerCase (s : string) : string :=
  match s with
  | EmptyString => EmptyString
  | String c rest => String (lowerChar c) (lowerCase rest)
  end.

(** The extension of a file name: from its last dot on, or empty. *)
Fixpoint extensionOf (name : string) : string :=
  match name with
  | EmptyString => EmptyString
  | String c rest =>
      match extensionOf rest with
      | EmptyString => if Ascii.eqb c "." then name else EmptyString
      | ext => ext
      end
  end.

Definition acceptsExtension (ext : string) : bool :=
  existsb (String.eqb (lowerCase ext)) acceptTokens.

(** Whether the selector, filtering by [accept], offers the file. *)
Definition acceptsFile (name : string) : bool :=
  acceptsExtension (extensionOf name).

(** The ingest formats the specification names, each with its usual
    extensions; for source code, those of backend/README.md. *)
Definition specFormats : list (string * list string) :=
  [("PDF", [".pdf"]);
   ("DOCX", [".docx"]);
   ("TXT", [".txt"]);
   ("Markdown", [".md"]);
   ("PNG", [".png"]);
   ("JPG", [".jpg"; ".jpeg"]);
   ("source code", [".py"; ".js"; ".java"; ".cpp"; ".html"; ".css"; ".json"; ".xml"])].

Definition formatAccepted (exts : list string) : bool :=
  existsb acceptsExtension exts.

Example accept_tokens :
  acceptTokens = [".pdf"; ".doc"; ".docx"; ".txt"; ".md"; ".py"; ".js"; ".java";
                  ".cpp"; ".c"; ".html"; ".css"; ".json"; ".xml"].
Proof. reflexivity. Qed.

Example accepts_report : acceptsFile "Report.final.PDF" = true.
Proof. reflexivity. Qed.

(** C5, evaluated. The selector offers no PNG and no JPG file: no image
    extension is among the tokens of [accept]. Every other format the
    specification names has an accepted extension. *)
Theorem upload_selector_omits_images :
  acceptsFile "scan.png" = false /\
  acceptsFile "photo.jpg" = false /\
  acceptsFile "photo.jpeg" = false /\
  map (fun f => (fst f, formatAccepted (snd f))) specFormats =
    [("PDF", true); ("DOCX", true); ("TXT", true); ("Markdown", true);
     ("PNG", false); ("JPG", false); ("source code", true)].
Proof. repeat split. Qed.

End FileInput.

(* ===================================================================== *)
(** * Settings.js: settings kept in localStorage *)
(* ===================================================================== *)

Module Settings.

(** localStorage: string keys, string values. *)
Abbreviation Storage := (gmap string string).

Definition getItem (key : string) (ls : Storage) : option string := ls !! key.

Definition setItem (key value : string) (ls : Storage) : Storage :=
  <[key := value]> ls.

(** [setItem] stores [String(value)]; for a boolean that is its name. *)
Definition boolToString (b : bool) : string := if b then "true" else "false".

Record State := mkState {
  chatHistory : bool;
  sharedLinks : bool;
  language : string
}.

Definition keyChatHistory : string := "omnivault-chat-history".
Definition keySharedLinks : string := "omnivault-shared-links".
Definition keyLanguage : string := "omnivault-language".

(** [saved !== null ? saved === 'true' : true] *)
Definition initFlag (key : string) (ls : Storage) : bool :=
  match getItem key ls with
  | Some saved => String.eqb saved "true"
  | None => true
  end.

(** [localStorage.getItem('omnivault-language') || 'English'] *)
Definition initLanguage (ls : Storage) : string :=
  match getItem keyLanguage ls with
  | Some saved => if String.eqb saved "" then "English" else saved
  | None => "English"
  end.

(** The three [useState] initialisers. *)
Definition initState (ls : Storage) : State :=
  {| chatHistory := initFlag keyChatHistory ls;
     sharedLinks := initFlag keySharedLinks ls;
     language := initLanguage ls |}.

(** The three persistence effects, each run after the first render. *)
Definition effectChatHistory (st : State) (ls : Storage) : Storage :=
  setItem keyChatHistory (boolToString (chatHistory st)) ls.

Definition effectSharedLinks (st : State) (ls : Storage) : Storage :=
  setItem keySharedLinks (boolToString (sharedLinks st)) ls.

Definition effectLanguage (st : State) (ls : Storage) : Storage :=
  setItem keyLanguage (language st) ls.

(** Mounting the component: initial state, then the effects in order. *)
Definition mount (ls : Storage) : State * Storage :=
  let st := initState ls in
  (st, effectLanguage st (effectSharedLinks st (effectChatHistory st ls))).

(** What the user can do in the dialog. *)
Inductive Action :=
| SetChatHistory (checked : bool)
| SetSharedLinks (checked : bool)
| SetLanguage (value : string).

(** A state setter followed by the effect that depends on the changed
    value. Setting the value the state already has is a no-op in React:
    no render, no effect. *)
Definition act (a : Action) (c : State * Storage) : State * Storage :=
  let '(st, ls) := c in
  match a with
  | SetChatHistory b =>
      if Bool.eqb b (chatHistory st) then c
      else let st' := {| chatHistory := b;
                         sharedLinks := sharedLinks st;
                         language := language st |} in
           (st', effectChatHistory st' ls)
  | SetSharedLinks b =>
      if Bool.eqb b (sharedLinks st) then c
      else let st' := {| chatHistory := chatHistory st;
                         sharedLinks := b;
                         language := language st |} in
           (st', effectSharedLinks st' ls)
  | SetLanguage l =>
      if String.eqb l (language st) then c
      else let st' := {| chatHistory := chatHistory st;
                         sharedLinks := sharedLinks st;
                         language := l |} in
           (st', effectLanguage st' ls)
  end.

Definition session (acts : list Action) (ls : Storage) : State * Storage :=
  fold_left (fun c a => act a c) acts (mount ls).

(** The values of the language selector's options. *)
Definition languageOptions : list string :=
  ["English"; "Spanish"; "French"; "German"; "Italian"; "Portuguese";
   "Chinese"; "Japanese"].

(** An action the dialog can produce: the selector only yields its
    options. *)
Definition fromDialog (a : Action) : Prop :=
  match a with
  | SetLanguage l => In l languageOptions
  | _ => True
  end.

(** The stored strings are those of the state. *)
Definition synced (c : State * Storage) : Prop :=
  getItem keyChatHistory (snd c) = Some (boolToString (chatHistory (fst c))) /\
  getItem keySharedLinks (snd c) = Some (boolToString (sharedLinks (fst c))) /\
  getItem keyLanguage (snd c) = Some (language (fst c)) /\
  language (fst c) <> "".

Lemma option_nonempty l : In l languageOptions -> l <> "".
Proof.
  cbn. intros H.
  repeat (destruct H as [<- | H]; [discriminate|]). destruct H.
Qed.

Lemma initLanguage_nonempty ls : initLanguage ls <> "".
Proof.
  unfold initLanguage. destruct (getItem keyLanguage ls) as [s|]; [|discriminate].
  destruct (String.eqb_spec s ""); [discriminate | assumption].
Qed.

Lemma mount_synced ls : synced (mount ls).
Proof.
  unfold synced, mount, effectLanguage, effectSharedLinks, effectChatHistory,
    setItem, getItem. cbn [fst snd].
  repeat split.
  - rewrite !lookup_insert_ne by discriminate. apply lookup_insert_eq.
  - rewrite lookup_insert_ne by discriminate. apply lookup_insert_eq.
  - apply lookup_insert_eq.
  - cbn [initState language]. apply initLanguage_nonempty.
Qed.

Lemma act_synced a c : fromDialog a -> synced c -> synced (act a c).
Proof.
  destruct c as [st ls]. intros Ha (H1 & H2 & H3 & H4).
  cbn [fst snd] in *. destruct a as [b|b|l]; cbn [act].
  - destruct (Bool.eqb b (chatHistory st)); [repeat split; assumption|].
    unfold synced, effectChatHistory, setItem, getItem in *. cbn [fst snd chatHistory sharedLinks language].
    repeat split; try assumption.
    + apply lookup_insert_eq.
    + rewrite lookup_insert_ne by discriminate. assumption.
    + rewrite lookup_insert_ne by discriminate. assumption.
  - destruct (Bool.eqb b (sharedLinks st)); [repeat split; assumption|].
    unfold synced, effectSharedLinks, setItem, getItem in *. cbn [fst snd chatHistory sharedLinks language].
    repeat split; try assumption.
    + rewrite lookup_insert_ne by discriminate. assumption.
    + apply lookup_insert_eq.
    + rewrite lookup_insert_ne by discriminate. assumption.
  - destruct (String.eqb l (language st)); [repeat split; assumption|].
    unfold synced, effectLanguage, setItem, getItem in *. cbn [fst snd chatHistory sharedLinks language].
    repeat split.
    + rewrite lookup_insert_ne by discriminate. assumption.
    + rewrite lookup_insert_ne by discriminate. assumption.
    + apply lookup_insert_eq.
    + now apply option_nonempty.
Qed.

Lemma session_synced acts : Forall fromDialog acts -> forall c,
  synced c -> synced (fold_left (fun c a => act a c) acts c).
Proof.
  induction 1 as [|a acts Ha _ IH]; intros c Hc; cbn [fold_left];
    [assumption|].
  apply IH. now apply act_synced.
Qed.

Lemma boolToString_read b : String.eqb (boolToString b) "true" = b.
Proof. destruct b; reflexivity. Qed.

(** A fresh initialisation over a synced store gives the state back. *)
Lemma synced_init c : synced c -> initState (snd c) = fst c.
Proof.
  destruct c as [[ch sh lang] ls]. intros (H1 & H2 & H3 & H4).
  cbn [fst snd chatHistory sharedLinks language] in *.
  unfold initState, initFlag, initLanguage. rewrite H1, H2, H3.
  rewrite !boolToString_read.
  apply String.eqb_neq in H4. now rewrite H4.
Qed.

(** What the state holds after an action. *)
Lemma act_sets a c :
  match a with
  | SetChatHistory b => chatHistory (fst (act a c)) = b
  | SetSharedLinks b => sharedLinks (fst (act a c)) = b
  | SetLanguage l => language (fst (act a c)) = l
  end.
Proof.
  destruct c as [st ls]. destruct a as [b|b|l]; cbn [act].
  - destruct (Bool.eqb_spec b (chatHistory st)); [now subst | reflexivity].
  - destruct (Bool.eqb_spec b (sharedLinks st)); [now subst | reflexivity].
  - destruct (String.eqb_spec l (language st)); [now subst | reflexivity].
Qed.

(** C10. Whatever localStorage held when the dialog was opened and
    whatever the user did in it before, once the user sets chat history,
    shared links or the language (to one of the selector's options), a
    fresh initialisation of the component over the resulting localStorage
    reads back exactly the value that was set, and indeed the whole state
    of the dialog. With nothing stored, the initial values are [true],
    [true] and ["English"]. *)
Theorem settings_round_trip (ls0 : Storage) (before : list Action) (a : Action) :
  Forall fromDialog before -> fromDialog a ->
  let c := session (before ++ [a]) ls0 in
  initState (snd c) = fst c /\
  match a with
  | SetChatHistory b => chatHistory (initState (snd c)) = b
  | SetSharedLinks b => sharedLinks (initState (snd c)) = b
  | SetLanguage l => language (initState (snd c)) = l
  end /\
  initState ∅ = {| chatHistory := true; sharedLinks := true;
                   language := "English" |}.
Proof.
  intros Hbefore Ha. cbn zeta.
  assert (Hsync : synced (session (before ++ [a]) ls0)).
  { unfold session. apply session_synced; [|apply mount_synced].
    apply Forall_app. split; [assumption | now constructor]. }
  pose proof (synced_init _ Hsync) as Hinit.
  split; [assumption|]. split; [|reflexivity].
  rewrite Hinit. unfold session. rewrite fold_left_app. cbn [fold_left].
  apply act_sets.
Qed.

(** The round trip at a concrete session: German stored beforehand, then
    chat history off, French, shared links off. *)
Lemma settings_round_trip_witness :
  let c := session ([SetChatHistory false; SetLanguage "French"]
                      ++ [SetSharedLinks false])
                   {[ "omnivault-language" := "German" ]} in
  initState (snd c) = fst c /\
  sharedLinks (initState (snd c)) = false /\
  initState ∅ = {| chatHistory := true; sharedLinks := true;
                   language := "English" |}.
Proof.
  apply (settings_round_trip {[ "omnivault-language" := "German" ]}
           [SetChatHistory false; SetLanguage "French"] (SetSharedLinks false)).
  - constructor; [exact I|]. constructor; [cbn; tauto|]. constructor.
  - exact I.
Defined.

End Settings.

(* ===================================================================== *)
(** * The chunker and the ingestion of one document *)
(* ===================================================================== *)

Module Ingestion.
Import JobTracker.

(** Modelled from the spec: a chunk as the Chunker returns it (section
    4.2): its text and its offsets in the extracted text. The backend
    chunker is not among the sources. *)
Record Chunk := mkChunk {
  c_text : string;
  charStart : nat;
  charEnd : nat
}.

(** Modelled from the spec: the sliding window (section 4.2). The window
    that starts at [start] covers [start, start + chunkSize) clipped to
    [len]; the next one starts [step = chunkSize - overlap] later; the
    loop stops once the start reaches [len]. [fuel] bounds the number of
    windows. *)
Fixpoint windowsFrom (fuel start len chunkSize step : nat) : list (nat * nat) :=
  match fuel with
  | 0 => []
  | S fuel' =>
      if (start <? len)%nat
      then (start, Nat.min (start + chunkSize) len)
             :: windowsFrom fuel' (start + step) len chunkSize step
      else []
  end.

(** Modelled from the spec: [chunk(text, chunkSize, overlap)] (section
    4.2), after its algorithm sentence. [overlap >= chunkSize] is a
    configuration error ([None]). Otherwise the step is at least 1, so
    [length text] windows are enough fuel ([windowsFrom_fuel]). *)
Definition chunk (text : string) (chunkSize overlap : nat) : option (list Chunk) :=
  if (chunkSize <=? overlap)%nat then None
  else
    let len := String.length text in
    Some (map (fun w => {| c_text := substring (fst w) (snd w - fst w) text;
                           charStart := fst w;
                           charEnd := snd w |})
              (windowsFrom len 0 len chunkSize (chunkSize - overlap))).

(** Modelled from the spec: the fields of an ingestion job that the
    pipeline sets (sections 3 and 4.5). *)
Record Job := mkJob {
  j_status : JobStatus;
  j_progressPercent : nat;
  j_chunksAdded : option nat
}.

(** Modelled from the spec: a job that failed (section 4.5). *)
Definition failedJob : Job :=
  {| j_status := Failed; j_progressPercent := 0; j_chunksAdded := None |}.

Section Pipeline.

(** The embedding model is external: one vector per text, or a failure. *)
Variable Vector : Type.
Variable embed : list string -> option (list Vector).

(** Modelled from the spec: the ingestion pipeline for one document
    (section 4.5), from the extracted text on: chunk, embed, index, and
    on success record the chunk count with status [completed] and
    progress 100. A failure at any stage gives a failed job and leaves
    nothing indexed. *)
Definition ingest (extracted : option string) (chunkSize overlap : nat)
  : Job * list (Chunk * Vector) :=
  match extracted with
  | None => (failedJob, [])
  | Some text =>
      match chunk text chunkSize overlap with
      | None => (failedJob, [])
      | Some chunks =>
          match embed (map c_text chunks) with
          | None => (failedJob, [])
          | Some vectors =>
              if (List.length vectors =? List.length chunks)%nat
              then ({| j_status := Completed;
                       j_progressPercent := 100;
                       j_chunksAdded := Some (List.length chunks) |},
                    combine chunks vectors)
              else (failedJob, [])
          end
      end
  end.

End Pipeline.

Definition bounds (c : Chunk) : nat * nat := (charStart c, charEnd c).

(** More fuel than windows changes nothing. *)
Lemma windowsFrom_fuel len chunkSize step : 1 <= step ->
  forall fuel fuel' start,
    len - start <= fuel -> len - start <= fuel' ->
    windowsFrom fuel start len chunkSize step
    = windowsFrom fuel' start len chunkSize step.
Proof.
  intros Hstep. induction fuel as [|fuel IH]; intros fuel' start Hf Hf'.
  - destruct fuel' as [|fuel']; [reflexivity|]. cbn [windowsFrom].
    destruct (Nat.ltb_spec start len); [lia | reflexivity].
  - destruct fuel' as [|fuel']; cbn [windowsFrom];
      destruct (Nat.ltb_spec start len); try reflexivity; try lia.
    f_equal. apply IH; lia.
Qed.

(** Window [i] is [i * step, i * step + chunkSize) clipped to [len], for
    as long as its start is below [len]. *)
Lemma windowsFrom_nth len chunkSize step : 1 <= step ->
  forall i fuel start,
    len - start <= fuel ->
    nth_error (windowsFrom fuel start len chunkSize step) i =
    if (start + i * step <? len)%nat
    then Some (start + i * step, Nat.min (start + i * step + chunkSize) len)
    else None.
Proof.
  intros Hstep. induction i as [|i IH]; intros fuel start Hf.
  - rewrite Nat.mul_0_l, Nat.add_0_r.
    destruct fuel as [|fuel]; cbn [windowsFrom nth_error];
      destruct (Nat.ltb_spec start len); try reflexivity; lia.
  - destruct fuel as [|fuel]; cbn [windowsFrom nth_error].
    + destruct (Nat.ltb_spec (start + S i * step) len); [lia | reflexivity].
    + destruct (Nat.ltb_spec start len) as [Hlt|Hge].
      * cbn [nth_error]. rewrite IH by lia.
        replace (start + step + i * step) with (start + S i * step) by lia.
        reflexivity.
      * cbn [nth_error].
        destruct (Nat.ltb_spec (start + S i * step) len); [lia | reflexivity].
Qed.

Lemma chunk_windows text chunkSize overlap : overlap < chunkSize ->
  exists chunks,
    chunk text chunkSize overlap = Some chunks /\
    forall i, option_map bounds (nth_error chunks i) =
      if (i * (chunkSize - overlap) <? String.length text)%nat
      then Some (i * (chunkSize - overlap),
                 Nat.min (i * (chunkSize - overlap) + chunkSize)
                         (String.length text))
      else None.
Proof.
  intros Hov. unfold chunk.
  destruct (Nat.leb_spec chunkSize overlap) as [Hle|_]; [lia|].
  eexists. split; [reflexivity|]. intros i. cbn zeta.
  rewrite nth_error_map.
  rewrite (windowsFrom_nth (String.length text) chunkSize (chunkSize - overlap))
    by lia.
  cbn [Nat.add].
  destruct (i * (chunkSize - overlap) <? String.length text)%nat; reflexivity.
Qed.

(** C7. For an extracted text of 1200 characters, chunk size 512 and
    overlap 50, the chunker returns exactly three chunks, with
    boundaries [0,512), [462,974) and [924,1200), each holding the
    characters of the text between its boundaries; and when the embedder
    returns one vector per chunk, the job ends [completed] at progress
    100 with [chunksAdded = 3] and the three chunks indexed. *)
Theorem scenario_1200_characters (Vector : Type)
  (embed : list string -> option (list Vector)) (text : string)
  (vectors : list Vector) :
  String.length text = 1200 ->
  embed [substring 0 512 text; substring 462 512 text; substring 924 276 text]
    = Some vectors ->
  List.length vectors = 3 ->
  chunk text 512 50 =
    Some [mkChunk (substring 0 512 text) 0 512;
          mkChunk (substring 462 512 text) 462 974;
          mkChunk (substring 924 276 text) 924 1200] /\
  (exists chunks, chunk text 512 50 = Some chunks /\
     map bounds chunks = [(0, 512); (462, 974); (924, 1200)]) /\
  let '(job, indexed) := ingest Vector embed (Some text) 512 50 in
  j_status job = Completed /\
  j_progressPercent job = 100 /\
  j_chunksAdded job = Some 3 /\
  map (fun cv => bounds (fst cv)) indexed = [(0, 512); (462, 974); (924, 1200)].
Proof.
  intros Hlen Hembed Hvec.
  assert (Hchunk : chunk text 512 50 =
            Some [mkChunk (substring 0 512 text) 0 512;
                  mkChunk (substring 462 512 text) 462 974;
                  mkChunk (substring 924 276 text) 924 1200]).
  { unfold chunk. rewrite Hlen.
    replace (windowsFrom 1200 0 1200 512 (512 - 50))
      with [(0, 512); (462, 974); (924, 1200)] by (vm_compute; reflexivity).
    reflexivity. }
  split; [exact Hchunk|]. split.
  - eexists. split; [exact Hchunk | reflexivity].
  - unfold ingest. rewrite Hchunk. cbn [map c_text]. rewrite Hembed.
    destruct vectors as [|v1 [|v2 [|v3 [|v4 vs]]]]; try discriminate Hvec.
    cbn. repeat split.
Qed.

(** The scenario at a concrete text, 1200 times the letter a, with an
    embedder that maps each chunk to its length. *)
Lemma scenario_1200_characters_witness :
  let text := string_of_list_ascii (repeat "a"%char 1200) in
  chunk text 512 50 =
    Some [mkChunk (substring 0 512 text) 0 512;
          mkChunk (substring 462 512 text) 462 974;
          mkChunk (substring 924 276 text) 924 1200] /\
  (exists chunks, chunk text 512 50 = Some chunks /\
     map bounds chunks = [(0, 512); (462, 974); (924, 1200)]) /\
  let '(job, indexed) :=
    ingest nat (fun texts => Some (map String.length texts)) (Some text) 512 50 in
  j_status job = Completed /\
  j_progressPercent job = 100 /\
  j_chunksAdded job = Some 3 /\
  map (fun cv => bounds (fst cv)) indexed = [(0, 512); (462, 974); (924, 1200)].
Proof.
  apply (scenario_1200_characters nat
           (fun texts => Some (map String.length texts))
           (string_of_list_ascii (repeat "a"%char 1200))
           [512; 512; 276]).
  - vm_compute. reflexivity.
  - vm_compute. reflexivity.
  - reflexivity.
Defined.

End Ingestion.

(* ===================================================================== *)
(** * ChatArea.js: code blocks in a message *)
(* ===================================================================== *)

Module Markdown.

(** A JavaScript string: the list of its UTF-16 code units. *)
Abbreviation Str := (list N).

(** The code units of an ASCII literal. *)
Definition str (s : string) : Str := map N_of_ascii (list_ascii_of_string s).

Definition backtick : N := 96.
Definition newline : N := 10.
Definition fence : Str := [backtick; backtick; backtick].

(** [\w]: ASCII letters, digits and the underscore. *)
Definition isWordChar (c : N) : bool :=
  ((48 <=? c) && (c <=? 57) || (65 <=? c) && (c <=? 90)
   || (97 <=? c) && (c <=? 122) || (c =? 95))%N.

(** What [trim] strips: white space and line terminators. *)
Definition isSpace (c : N) : bool :=
  ((9 <=? c) && (c <=? 13) || (c =? 32) || (c =? 160) || (c =? 5760)
   || (8192 <=? c) && (c <=? 8202) || (c =? 8232) || (c =? 8233)
   || (c =? 8239) || (c =? 8287) || (c =? 12288) || (c =? 65279))%N.

Fixpoint trimStart (s : Str) : Str :=
  match s with
  | c :: s' => if isSpace c then trimStart s' else s
  | [] => []
  end.

Definition trimEnd (s : Str) : Str := rev (trimStart (rev s)).

Definition trim (s : Str) : Str := trimEnd (trimStart s).

(** Truthiness of a string: it is not empty. *)
Definition nonEmpty (s : Str) : bool :=
  match s with
  | [] => false
  | _ => true
  end.

(** [content.substring(from, to)] for [from <= to]. *)
Definition substring (content : Str) (from to : nat) : Str :=
  firstn (to - from) (skipn from content).

(** The rest of [s] after the prefix [p], if [s] starts with [p]. *)
Fixpoint stripPrefix (p s : Str) : option Str :=
  match p with
  | [] => Some s
  | a :: p' =>
      match s with
      | b :: s' => if N.eqb a b then stripPrefix p' s' else None
      | [] => None
      end
  end.

(** The regular expression [/```(\w+)?\n?([\s\S]*?)```/], matched at the
    start of a string, piece by piece in the order a backtracking matcher
    tries the alternatives. *)

(** One successful match at the start of a string: the pieces, and what
    follows the match. *)
Record Pieces := mkPieces {
  p_lang : Str;
  p_newline : Str;
  p_body : Str;
  p_rest : Str
}.

(** [([\s\S]*?)```]: the shortest body after which the closing fence
    follows. *)
Fixpoint lazyBody (s : Str) : option (Str * Str) :=
  match stripPrefix fence s with
  | Some rest => Some ([], rest)
  | None =>
      match s with
      | [] => None
      | c :: s' =>
          match lazyBody s' with
          | Some (body, rest) => Some (c :: body, rest)
          | None => None
          end
      end
  end.

(** [\n?] then the body: first with the newline taken, then without. *)
Definition afterLang (s : Str) : option (Str * Str * Str) :=
  let without :=
    match lazyBody s with
    | Some (body, rest) => Some ([], body, rest)
    | None => None
    end in
  match s with
  | c :: s' =>
      if N.eqb c newline
      then match lazyBody s' with
           | Some (body, rest) => Some ([newline], body, rest)
           | None => without
           end
      else without
  | [] => without
  end.

(** [(\w+)?] then the rest: the group first takes [k] word characters,
    then fewer, and last none at all (the group does not take part and
    [match[1] || ''] is the empty string). *)
Fixpoint tryLang (k : nat) (s : Str) : option Pieces :=
  match afterLang (skipn k s) with
  | Some (nl, body, rest) =>
      Some {| p_lang := firstn k s; p_newline := nl;
              p_body := body; p_rest := rest |}
  | None =>
      match k with
      | 0 => None
      | S k' => tryLang k' s
      end
  end.

(** The length of the longest prefix of word characters. *)
Fixpoint wordRun (s : Str) : nat :=
  match s with
  | c :: s' => if isWordChar c then S (wordRun s') else 0
  | [] => 0
  end.

Definition matchHere (s : Str) : option Pieces :=
  match stripPrefix fence s with
  | Some s1 => tryLang (wordRun s1) s1
  | None => None
  end.

(** The result of [codeBlockRegex.exec(content)]. *)
Record Match := mkMatch {
  m_index : nat;
  m_full : Str;
  m_lang : Str;
  m_body : Str
}.

Definition matchOf (i : nat) (p : Pieces) : Match :=
  {| m_index := i;
     m_full := fence ++ p_lang p ++ p_newline p ++ p_body p ++ fence;
     m_lang := p_lang p;
     m_body := p_body p |}.

(** The global regular expression tries each start position from its
    [lastIndex] on. *)
Fixpoint search (s : Str) (i : nat) : option Match :=
  match matchHere s with
  | Some p => Some (matchOf i p)
  | None =>
      match s with
      | [] => None
      | _ :: s' => search s' (S i)
      end
  end.

Definition exec (content : Str) (lastIndex : nat) : option Match :=
  search (skipn lastIndex content) lastIndex.

Inductive Part :=
| PText (content : Str)
| PCode (language code : Str).

(** "Add text before code block". *)
Definition pushText (content : Str) (from to : nat) (parts : list Part)
  : list Part :=
  if (from <? to)%nat
  then let text := substring content from to in
       if nonEmpty (trim text) then parts ++ [PText text] else parts
  else parts.

(** "Add code block". *)
Definition pushCode (m : Match) (parts : list Part) : list Part :=
  let code := trim (m_body m) in
  if nonEmpty code then parts ++ [PCode (m_lang m) code] else parts.


(** Whether three backticks in a row occur in a string. *)
Fixpoint containsFence (s : Str) : bool :=
  match stripPrefix fence s with
  | Some _ => true
  | None =>
      match s with
      | [] => false
      | _ :: s' => containsFence s'
      end
  end.

(** A match at the start of [s]: [s] is the opening fence, a run of word
    characters, at most one newline, the body, the closing fence, and
    what follows; the closing fence is the first one after the body's
    start. *)
Definition wellFormed (p : Pieces) : Prop :=
  forallb isWordChar (p_lang p) = true /\
  (p_newline p = [] \/ p_newline p = [newline]) /\
  containsFence (p_body p ++ [backtick; backtick]) = false.

(** ** The content cut into segments *)

(** A piece of the content: text between code blocks, or one fenced
    block with its language, the optional newline and the body. *)
Inductive Segment :=
| SegText (raw : Str)
| SegFence (lang nl body : Str).

(** The characters of a segment as they stand in the content. *)
Definition rawOf (seg : Segment) : Str :=
  match seg with
  | SegText raw => raw
  | SegFence lang nl body => fence ++ lang ++ nl ++ body ++ fence
  end.

(** The part a segment gives rise to, if any: a text segment is kept as
    it is unless it trims to nothing; a fenced block gives its trimmed
    body unless that is empty. *)
Definition partsOf (seg : Segment) : list Part :=
  match seg with
  | SegText raw => if nonEmpty (trim raw) then [PText raw] else []
  | SegFence lang _ body =>
      if nonEmpty (trim body) then [PCode lang (trim body)] else []
  end.

(** ** The cut of the content, said without the matcher *)

(** A fenced block opens at the start of [s]: [s] starts with three
    backticks, and three backticks in a row occur again after them. *)
Definition opensBlock (s : Str) : bool :=
  match stripPrefix fence s with
  | Some s1 => containsFence s1
  | None => false
  end.

(** No fenced block opens at a position of [t] when [r] follows [t]. *)
Fixpoint blockFree (t r : Str) : bool :=
  match t with
  | [] => true
  | _ :: t' => negb (opensBlock (t ++ r)) && blockFree t' r
  end.

(** Whether a string starts with a character that satisfies [f]. *)
Definition headIs (f : N -> bool) (s : Str) : bool :=
  match s with
  | c :: _ => f c
  | [] => false
  end.

(** The pieces of one fenced block as the expression reads them: the
    language is the whole run of word characters after the opening fence
    (no word character follows it), the newline after it is taken when
    there is one, and the body ends at the first closing fence. *)
Definition blockOk (lang nl body : Str) : bool :=
  forallb isWordChar lang
  && negb (headIs isWordChar (nl ++ body))
  && match nl with
     | [] => negb (headIs (N.eqb newline) body)
     | [c] => N.eqb c newline
     | _ => false
     end
  && negb (containsFence (body ++ [backtick; backtick])).

(** The cut of a content: text and fenced blocks in turn, from a text
    to a text; no block opens inside a text, so each block is the first
    one after the block before it. *)
Fixpoint cutOk (segs : list Segment) : bool :=
  match segs with
  | SegText t :: more =>
      match more with
      | [] => blockFree t []
      | SegFence lang nl body :: rest =>
          blockFree t (concat (map rawOf more))
          && blockOk lang nl body && cutOk rest
      | SegText _ :: _ => false
      end
  | _ => false
  end.

(** ** What a match looks like *)

Lemma stripPrefix_Some p : forall s r, stripPrefix p s = Some r -> s = p ++ r.
Proof.
  induction p as [|a p IH]; intros s r H; cbn in H.
  - now injection H as ->.
  - destruct s as [|b s]; [discriminate H|].
    destruct (N.eqb_spec a b) as [->|_]; [|discriminate H].
    cbn. f_equal. now apply IH.
Qed.

Lemma lazyBody_Some s : forall body rest,
  lazyBody s = Some (body, rest) -> s = body ++ fence ++ rest.
Proof.
  induction s as [|c s IH]; intros body rest H; cbn [lazyBody] in H.
  - destruct (stripPrefix fence []) as [r|] eqn:Hp; [|discriminate H].
    injection H as <- <-. now apply stripPrefix_Some in Hp.
  - destruct (stripPrefix fence (c :: s)) as [r|] eqn:Hp.
    + injection H as <- <-. now apply stripPrefix_Some in Hp.
    + destruct (lazyBody s) as [[b r]|]; [|discriminate H].
      injection H as <- <-. cbn. f_equal. now apply IH.
Qed.

Lemma stripPrefix_app p : forall s r t,
  stripPrefix p s = Some r -> stripPrefix p (s ++ t) = Some (r ++ t).
Proof.
  induction p as [|a p IH]; intros s r t H; cbn in *.
  - now injection H as ->.
  - destruct s as [|b s]; [discriminate H|]. cbn.
    destruct (N.eqb a b); [now apply IH | discriminate H].
Qed.

Lemma lazyBody_shortest s : forall body rest,
  lazyBody s = Some (body, rest) ->
  containsFence (body ++ [backtick; backtick]) = false.
Proof.
  induction s as [|c s IH]; intros body rest H; cbn [lazyBody] in H.
  - destruct (stripPrefix fence []) as [r|]; [|discriminate H].
    now injection H as <- <-.
  - destruct (stripPrefix fence (c :: s)) as [r|] eqn:Hp.
    + now injection H as <- <-.
    + destruct (lazyBody s) as [[b r]|] eqn:Hb; [|discriminate H].
      injection H as <- <-.
      pose proof (lazyBody_Some s b r Hb) as Hs.
      cbn [app containsFence].
      destruct (stripPrefix fence (c :: b ++ [backtick; backtick]))
        as [r'|] eqn:Hp'; [|now apply (IH b r)].
      exfalso.
      apply (stripPrefix_app _ _ _ (backtick :: r)) in Hp'.
      replace ((c :: b ++ [backtick; backtick]) ++ backtick :: r)
        with (c :: s) in Hp'; [congruence|].
      rewrite Hs. cbn. f_equal. now rewrite <- app_assoc.
Qed.

Lemma afterLang_Some s nl body rest :
  afterLang s = Some (nl, body, rest) ->
  s = nl ++ body ++ fence ++ rest /\ (nl = [] \/ nl = [newline]) /\
  containsFence (body ++ [backtick; backtick]) = false.
Proof.
  assert (Hwithout :
    match lazyBody s with
    | Some (body0, rest0) => Some ([], body0, rest0)
    | None => None
    end = Some (nl, body, rest) ->
    s = nl ++ body ++ fence ++ rest /\ (nl = [] \/ nl = [newline]) /\
    containsFence (body ++ [backtick; backtick]) = false).
  { destruct (lazyBody s) as [[b r]|] eqn:Hb; [|discriminate].
    intros H. injection H as <- <- <-.
    split; [now apply lazyBody_Some|]. split; [now left|].
    now apply (lazyBody_shortest s b r). }
  unfold afterLang. destruct s as [|c s']; [exact Hwithout|].
  destruct (N.eqb_spec c newline) as [->|_]; [|exact Hwithout].
  destruct (lazyBody s') as [[b r]|] eqn:Hb; [|exact Hwithout].
  intros H. injection H as <- <- <-.
  split; [cbn; f_equal; now apply lazyBody_Some|]. split; [now right|].
  now apply (lazyBody_shortest s' b r).
Qed.

Lemma wordRun_firstn s : forall k, k <= wordRun s ->
  forallb isWordChar (firstn k s) = true.
Proof.
  induction s as [|c s IH]; intros k Hk; cbn in Hk.
  - now replace k with 0 by lia.
  - destruct k as [|k]; [reflexivity|]. cbn.
    destruct (isWordChar c); [|lia]. cbn. apply IH. lia.
Qed.

Lemma tryLang_Some s : forall k p, k <= wordRun s ->
  tryLang k s = Some p ->
  s = p_lang p ++ p_newline p ++ p_body p ++ fence ++ p_rest p /\ wellFormed p.
Proof.
  induction k as [|k IH]; intros p Hk H; cbn [tryLang] in H;
    destruct (afterLang (skipn _ s)) as [[[nl b] r]|] eqn:Ha;
    try discriminate H.
  - injection H as <-. cbn. apply afterLang_Some in Ha as (Hs & Hnl & Hmin).
    cbn in Hs. split; [assumption|]. repeat split; assumption.
  - injection H as <-. cbn [p_lang p_newline p_body p_rest].
    apply afterLang_Some in Ha as (Hs & Hnl & Hmin). split.
    + rewrite <- Hs. symmetry. apply firstn_skipn.
    + split; [now apply wordRun_firstn | split; assumption].
  - apply IH; [lia | assumption].
Qed.

Lemma matchHere_Some s p :
  matchHere s = Some p ->
  s = fence ++ p_lang p ++ p_newline p ++ p_body p ++ fence ++ p_rest p /\
  wellFormed p.
Proof.
  unfold matchHere. destruct (stripPrefix fence s) as [s1|] eqn:Hp;
    [|discriminate].
  intros H. apply stripPrefix_Some in Hp.
  apply tryLang_Some in H as [Hs Hw]; [|lia].
  split; [|assumption]. now rewrite Hp, Hs at 1.
Qed.

(** ** Backtracking finds nothing the greedy choices miss *)

Lemma lazyBody_cons_None c s :
  c <> backtick -> lazyBody s = None -> lazyBody (c :: s) = None.
Proof.
  intros Hc Hs. cbn [lazyBody]. rewrite Hs.
  cbn [stripPrefix fence]. destruct (N.eqb_spec backtick c) as [E|_];
    [now subst c | reflexivity].
Qed.

Lemma afterLang_None_body s : afterLang s = None -> lazyBody s = None.
Proof.
  unfold afterLang. destruct (lazyBody s) as [[b r]|] eqn:Hb; [|reflexivity].
  destruct s as [|c s']; [discriminate|].
  destruct (N.eqb c newline); [|discriminate].
  destruct (lazyBody s') as [[b' r']|]; discriminate.
Qed.

Lemma wordChar_plain c :
  isWordChar c = true -> c <> backtick /\ c <> newline.
Proof. intros H. split; intros ->; discriminate H. Qed.

Lemma afterLang_cons_None c s :
  isWordChar c = true -> afterLang s = None -> afterLang (c :: s) = None.
Proof.
  intros Hc Hs. apply wordChar_plain in Hc as [Hb Hn].
  apply afterLang_None_body in Hs.
  unfold afterLang. rewrite (lazyBody_cons_None c s Hb Hs).
  destruct (N.eqb_spec c newline); [contradiction | reflexivity].
Qed.

Lemma skipn_wordRun s : forall k, S k <= wordRun s ->
  exists c, isWordChar c = true /\ skipn k s = c :: skipn (S k) s.
Proof.
  induction s as [|a s IH]; intros k Hk; cbn [wordRun] in Hk; [lia|].
  destruct (isWordChar a) eqn:Ha; [|lia].
  destruct k as [|k].
  - exists a. split; [assumption | reflexivity].
  - cbn [skipn]. apply IH. lia.
Qed.

Lemma tryLang_None s : forall k j, k <= wordRun s -> j <= k ->
  afterLang (skipn k s) = None -> tryLang j s = None.
Proof.
  intros k j Hk Hj Hnone.
  assert (Hall : forall d, d <= k -> afterLang (skipn (k - d) s) = None).
  { induction d as [|d IH]; intros Hd.
    - now rewrite Nat.sub_0_r.
    - destruct (skipn_wordRun s (k - S d)) as (c & Hc & Heq); [lia|].
      rewrite Heq. apply afterLang_cons_None; [assumption|].
      replace (S (k - S d)) with (k - d) by lia. apply IH. lia. }
  induction j as [|j IH]; cbn [tryLang].
  - specialize (Hall k (Nat.le_refl k)). rewrite Nat.sub_diag in Hall.
    now rewrite Hall.
  - specialize (Hall (k - S j)) as Hj'.
    replace (k - (k - S j)) with (S j) in Hj' by lia.
    rewrite Hj' by lia. apply IH. lia.
Qed.

(** The match at the start of a string is the one with the longest
    language, the newline taken when there is one, and the body up to the
    first closing fence. *)
Lemma matchHere_greedy s :
  matchHere s =
  match stripPrefix fence s with
  | Some s1 =>
      match afterLang (skipn (wordRun s1) s1) with
      | Some (nl, body, rest) =>
          Some {| p_lang := firstn (wordRun s1) s1; p_newline := nl;
                  p_body := body; p_rest := rest |}
      | None => None
      end
  | None => None
  end.
Proof.
  unfold matchHere. destruct (stripPrefix fence s) as [s1|]; [|reflexivity].
  destruct (afterLang (skipn (wordRun s1) s1)) as [[[nl b] r]|] eqn:Ha.
  - destruct (wordRun s1) as [|k]; cbn [tryLang]; now rewrite Ha.
  - now apply (tryLang_None s1 (wordRun s1) (wordRun s1)).
Qed.

Lemma afterLang_newline s' :
  afterLang (newline :: s') =
  match lazyBody s' with
  | Some (body, rest) => Some ([newline], body, rest)
  | None => None
  end.
Proof.
  unfold afterLang. rewrite N.eqb_refl.
  destruct (lazyBody s') as [[b r]|] eqn:Hb; [reflexivity|].
  rewrite (lazyBody_cons_None newline s'); [reflexivity | discriminate | assumption].
Qed.

Lemma search_Some s : forall i m,
  search s i = Some m ->
  exists pre p,
    m = matchOf (i + length pre) p /\ wellFormed p /\
    s = pre ++ m_full m ++ p_rest p.
Proof.
  induction s as [|c s IH]; intros i m H; cbn [search] in H.
  - destruct (matchHere []) as [p|] eqn:Hm; [|discriminate H].
    injection H as <-. apply matchHere_Some in Hm as [Hs Hw].
    exists [], p. cbn [length]. rewrite Nat.add_0_r.
    split; [reflexivity|]. split; [assumption|].
    cbn [matchOf m_full app]. rewrite Hs at 1. now rewrite <- !app_assoc.
  - destruct (matchHere (c :: s)) as [p|] eqn:Hm.
    + injection H as <-. apply matchHere_Some in Hm as [Hs Hw].
      exists [], p. cbn [length]. rewrite Nat.add_0_r.
      split; [reflexivity|]. split; [assumption|].
      cbn [matchOf m_full app]. rewrite Hs at 1. now rewrite <- !app_assoc.
    + apply IH in H as (pre & p & -> & Hw & Hs).
      exists (c :: pre), p. cbn [length].
      replace (i + S (length pre)) with (S i + length pre) by lia.
      split; [reflexivity|]. split; [assumption|].
      cbn [app]. f_equal. exact Hs.
Qed.

Lemma exec_Some content lastIndex m :
  exec content lastIndex = Some m ->
  exists pre p,
    m = matchOf (lastIndex + length pre) p /\ wellFormed p /\
    content = firstn lastIndex content ++ pre ++ m_full m ++ p_rest p /\
    lastIndex <= length content.
Proof.
  unfold exec. intros H. apply search_Some in H as (pre & p & Hm & Hw & Hs).
  exists pre, p. split; [assumption|]. split; [assumption|].
  split.
  - rewrite <- Hs. symmetry. apply firstn_skipn.
  - destruct (Nat.le_gt_cases lastIndex (length content)) as [Hle|Hgt];
      [assumption|].
    rewrite skipn_all2 in Hs by lia.
    rewrite Hm in Hs. destruct pre; discriminate Hs.
Qed.

Lemma exec_advances content lastIndex m :
  exec content lastIndex = Some m ->
  lastIndex <= m_index m /\
  lastIndex < m_index m + length (m_full m) <= length content.
Proof.
  intros H. apply exec_Some in H as (pre & p & Hm & _ & Hc & Hle).
  apply (f_equal (@length N)) in Hc.
  rewrite !length_app, length_firstn in Hc.
  subst m. cbn [matchOf m_index m_full] in *.
  rewrite !length_app in *. cbn [fence length] in *. lia.
Qed.

(** The [while] loop of [parseMessage]: the state is [lastIndex] and
    [parts]. Each match ends after [lastIndex], which bounds the number
    of turns. *)
Equations? loop (content : Str) (lastIndex : nat) (parts : list Part)
  : nat * list Part by wf (length content - lastIndex) lt :=
loop content lastIndex parts with inspect (exec content lastIndex) => {
  | exist _ None _ => (lastIndex, parts);
  | exist _ (Some m) Hm =>
      loop content (m_index m + length (m_full m))
        (pushCode m (pushText content lastIndex (m_index m) parts)) }.
Proof.
  apply exec_advances in Hm. lia.
Qed.

(** "Add remaining text". *)
Definition pushRest (content : Str) (lastIndex : nat) (parts : list Part)
  : list Part :=
  if (lastIndex <? length content)%nat
  then let text := skipn lastIndex content in
       if nonEmpty (trim text) then parts ++ [PText text] else parts
  else parts.

(** "If no code blocks found, return original content as text". *)
Definition orWhole (content : Str) (parts : list Part) : list Part :=
  match parts with
  | [] => [PText content]
  | _ :: _ => parts
  end.

Definition parseMessage (content : Str) : list Part :=
  let '(lastIndex, parts) := loop content 0 [] in
  orWhole content (pushRest content lastIndex parts).


(** ** The loop, unfolded once *)

Lemma loop_step content lastIndex parts :
  loop content lastIndex parts =
  match exec content lastIndex with
  | None => (lastIndex, parts)
  | Some m =>
      loop content (m_index m + length (m_full m))
        (pushCode m (pushText content lastIndex (m_index m) parts))
  end.
Proof.
  funelim (loop content lastIndex parts);
    match goal with
    | E : exec content lastIndex = _ |- _ => rewrite E
    end; reflexivity.
Qed.

(** Induction along the matches: to prove [P lastIndex] one may assume
    [P] at the end of the next match. *)
Lemma matches_ind content (P : nat -> Prop) :
  (forall lastIndex,
     (forall m, exec content lastIndex = Some m ->
                P (m_index m + length (m_full m))) ->
     P lastIndex) ->
  forall lastIndex, P lastIndex.
Proof.
  intros step lastIndex.
  remember (length content - lastIndex) as n eqn:Hn.
  revert lastIndex Hn.
  induction n as [n IH] using lt_wf_ind. intros lastIndex Hn.
  apply step. intros m Hm. apply exec_advances in Hm.
  apply (IH (length content - (m_index m + length (m_full m)))); lia.
Qed.

Lemma pushText_segment content from to parts : from <= to ->
  pushText content from to parts
  = parts ++ partsOf (SegText (substring content from to)).
Proof.
  intros Hle. unfold pushText, partsOf.
  destruct (Nat.ltb_spec from to) as [Hlt|Hge].
  - destruct (nonEmpty (trim (substring content from to)));
      [reflexivity | now rewrite app_nil_r].
  - unfold substring. replace (to - from) with 0 by lia.
    cbn. now rewrite app_nil_r.
Qed.

Lemma pushCode_segment i p parts :
  pushCode (matchOf i p) parts
  = parts ++ partsOf (SegFence (p_lang p) (p_newline p) (p_body p)).
Proof.
  unfold pushCode, partsOf. cbn [matchOf m_body m_lang].
  destruct (nonEmpty (trim (p_body p))); [reflexivity | now rewrite app_nil_r].
Qed.

Lemma containsFence_search s : containsFence s = false ->
  forall i, search s i = None.
Proof.
  induction s as [|c s IH]; cbn [containsFence search]; unfold matchHere;
    destruct (stripPrefix fence _); try discriminate; auto.
Qed.

(** ** The matcher and the cut agree *)

Lemma stripPrefix_app_None p : forall x y, length p <= length x ->
  stripPrefix p x = None -> stripPrefix p (x ++ y) = None.
Proof.
  induction p as [|a p IH]; intros x y Hlen H; [discriminate H|].
  destruct x as [|b x]; [cbn in Hlen; lia|]. cbn in *.
  destruct (N.eqb a b); [apply IH; [lia | assumption] | reflexivity].
Qed.

Lemma lazyBody_app body rest :
  containsFence (body ++ [backtick; backtick]) = false ->
  lazyBody (body ++ fence ++ rest) = Some (body, rest).
Proof.
  induction body as [|c body IH]; intros Hmin; [reflexivity|].
  cbn [app containsFence] in Hmin.
  destruct (stripPrefix fence (c :: body ++ [backtick; backtick])) eqn:Hp;
    [discriminate|].
  cbn [app lazyBody].
  replace (c :: body ++ fence ++ rest)
    with ((c :: body ++ [backtick; backtick]) ++ backtick :: rest)
    by (cbn; f_equal; now rewrite <- app_assoc).
  rewrite stripPrefix_app_None;
    [|cbn; rewrite length_app; cbn; lia | assumption].
  replace ((c :: body ++ [backtick; backtick]) ++ backtick :: rest)
    with (c :: body ++ fence ++ rest)
    by (cbn; f_equal; now rewrite <- app_assoc).
  now rewrite (IH Hmin).
Qed.

Lemma search_hit s i p : matchHere s = Some p -> search s i = Some (matchOf i p).
Proof. intros H. destruct s; cbn [search]; now rewrite H. Qed.

Lemma lazyBody_None s : lazyBody s = None <-> containsFence s = false.
Proof.
  induction s as [|c s IH]; cbn [lazyBody containsFence].
  - destruct (stripPrefix fence []); split; intros; congruence.
  - destruct (stripPrefix fence (c :: s)); [split; intros; congruence|].
    destruct (lazyBody s) as [[b r]|].
    + split; [discriminate|]. intros H. apply IH in H. discriminate H.
    + split; [|reflexivity]. intros _. now apply IH.
Qed.

Lemma afterLang_None s : afterLang s = None <-> containsFence s = false.
Proof.
  rewrite <- lazyBody_None. split; [apply afterLang_None_body|].
  intros H. unfold afterLang. rewrite H.
  destruct s as [|c s']; [reflexivity|].
  destruct (N.eqb c newline); [|reflexivity].
  cbn [lazyBody] in H. destruct (stripPrefix fence (c :: s')); [discriminate H|].
  destruct (lazyBody s') as [[b r]|]; [discriminate H | reflexivity].
Qed.

Lemma stripPrefix_word c s : isWordChar c = true -> stripPrefix fence (c :: s) = None.
Proof.
  intros Hc. apply wordChar_plain in Hc as [Hb _].
  unfold fence. cbn [stripPrefix].
  destruct (N.eqb_spec backtick c) as [E|_]; [now subst c | reflexivity].
Qed.

Lemma containsFence_wordRun s :
  containsFence (skipn (wordRun s) s) = containsFence s.
Proof.
  induction s as [|c s IH]; [reflexivity|]. cbn [wordRun].
  destruct (isWordChar c) eqn:Hc; [|reflexivity].
  cbn [skipn containsFence]. now rewrite (stripPrefix_word c s Hc).
Qed.

(** The expression matches at the start of a string exactly when a
    block opens there. *)
Lemma matchHere_opens s : matchHere s = None <-> opensBlock s = false.
Proof.
  rewrite matchHere_greedy. unfold opensBlock.
  destruct (stripPrefix fence s) as [s1|]; [|tauto].
  rewrite <- containsFence_wordRun, <- afterLang_None.
  destruct (afterLang (skipn (wordRun s1) s1)) as [[[nl b] r]|];
    split; intros; congruence.
Qed.

Lemma headIs_wordRun s : headIs isWordChar (skipn (wordRun s) s) = false.
Proof.
  induction s as [|c s IH]; [reflexivity|]. cbn [wordRun].
  destruct (isWordChar c) eqn:Hc; [exact IH | exact Hc].
Qed.

Lemma headIs_app f (x y : Str) : x <> [] -> headIs f (x ++ y) = headIs f x.
Proof. destruct x; [contradiction | reflexivity]. Qed.

(** What the matcher returns has the pieces of a block. *)
Lemma matchHere_blockOk s p :
  matchHere s = Some p -> blockOk (p_lang p) (p_newline p) (p_body p) = true.
Proof.
  rewrite matchHere_greedy. destruct (stripPrefix fence s) as [s1|]; [|discriminate].
  pose proof (headIs_wordRun s1) as Hhead.
  destruct (afterLang (skipn (wordRun s1) s1)) as [[[nl b] r]|] eqn:Ha;
    [|discriminate].
  intros [= <-]. cbn [p_lang p_newline p_body]. unfold blockOk.
  rewrite (wordRun_firstn s1 (wordRun s1) (Nat.le_refl _)).
  pose proof (afterLang_Some _ _ _ _ Ha) as (Hx & Hnl & Hmin).
  rewrite Hmin. cbn [negb andb]. rewrite andb_true_r.
  set (x := skipn (wordRun s1) s1) in *.
  assert (Hw : headIs isWordChar (nl ++ b) = false).
  { destruct (nl ++ b) as [|c l] eqn:E; [reflexivity|].
    rewrite Hx, app_assoc, E in Hhead. exact Hhead. }
  rewrite Hw. cbn [negb andb].
  unfold afterLang in Ha. destruct x as [|c x'] eqn:Ex.
  - cbn in Ha. discriminate Ha.
  - destruct (N.eqb_spec c newline) as [->|Hc].
    + destruct (lazyBody x') as [[b1 r1]|] eqn:Hb1.
      * injection Ha as <- <- <-. apply N.eqb_refl.
      * rewrite (lazyBody_cons_None newline x') in Ha;
          [discriminate Ha | discriminate | exact Hb1].
    + destruct (lazyBody (c :: x')) as [[b0 r0]|]; [|discriminate Ha].
      injection Ha as <- <- <-. cbn [app] in Hx.
      destruct b0 as [|d b0]; [reflexivity|].
      cbn [app] in Hx. injection Hx as -> _. cbn [headIs].
      destruct (N.eqb_spec newline d) as [E|_]; [now subst d | reflexivity].
Qed.

Lemma wordRun_prefix lang y :
  forallb isWordChar lang = true -> headIs isWordChar y = false ->
  wordRun (lang ++ y) = length lang.
Proof.
  induction lang as [|c lang IH]; intros H Hy.
  - destruct y as [|d y]; [reflexivity|]. cbn in *. now rewrite Hy.
  - cbn in H. apply andb_prop in H as [Hc H]. cbn. rewrite Hc.
    now rewrite IH.
Qed.

(** The pieces of a block are what the matcher returns at its start. *)
Lemma blockOk_matchHere lang nl body rest :
  blockOk lang nl body = true ->
  matchHere (fence ++ lang ++ nl ++ body ++ fence ++ rest)
  = Some {| p_lang := lang; p_newline := nl; p_body := body; p_rest := rest |}.
Proof.
  unfold blockOk. intros H.
  apply andb_prop in H as [H Hmin]. apply andb_prop in H as [H Hnl].
  apply andb_prop in H as [Hlang Hhead].
  apply negb_true_iff in Hmin, Hhead.
  rewrite matchHere_greedy.
  change (stripPrefix fence (fence ++ lang ++ nl ++ body ++ fence ++ rest))
    with (Some (lang ++ nl ++ body ++ fence ++ rest)).
  cbv iota.
  assert (Hy : headIs isWordChar (nl ++ body ++ fence ++ rest) = false).
  { destruct (nl ++ body) as [|c l] eqn:E.
    - apply app_eq_nil in E as [-> ->]. reflexivity.
    - rewrite app_assoc, E. exact Hhead. }
  rewrite (wordRun_prefix lang _ Hlang Hy).
  rewrite skipn_app, skipn_all, Nat.sub_diag, skipn_O. cbn [app].
  rewrite firstn_app, firstn_all, Nat.sub_diag. cbn [firstn].
  rewrite app_nil_r.
  destruct nl as [|c [|d nl]]; [| |discriminate Hnl].
  - cbn [app]. unfold afterLang. rewrite (lazyBody_app body rest Hmin).
    apply negb_true_iff in Hnl.
    destruct body as [|d body]; [reflexivity|]. cbn [app headIs] in *.
    rewrite N.eqb_sym in Hnl. now rewrite Hnl.
  - apply N.eqb_eq in Hnl. subst c. cbn [app].
    now rewrite afterLang_newline, (lazyBody_app body rest Hmin).
Qed.

(** Where no block opens the search moves on. *)
Lemma search_blockFree t : forall r i, blockFree t r = true ->
  search (t ++ r) i = search r (i + length t).
Proof.
  induction t as [|c t IH]; intros r i H.
  - cbn. now rewrite Nat.add_0_r.
  - cbn [blockFree] in H. apply andb_prop in H as [Hc H].
    apply negb_true_iff, matchHere_opens in Hc.
    cbn [app search] in *. rewrite Hc, (IH r (S i) H). cbn [length].
    f_equal. lia.
Qed.

Lemma search_free t i : blockFree t [] = true -> search t i = None.
Proof.
  intros H. pose proof (search_blockFree t [] i H) as E.
  rewrite app_nil_r in E. rewrite E. reflexivity.
Qed.

Lemma search_None s i : search s i = None -> blockFree s [] = true.
Proof.
  revert i. induction s as [|c s IH]; intros i H; [reflexivity|].
  cbn [search] in H. destruct (matchHere (c :: s)) eqn:Hm; [discriminate H|].
  cbn [blockFree]. rewrite app_nil_r. apply matchHere_opens in Hm.
  rewrite Hm. cbn [negb andb]. now apply (IH (S i)).
Qed.

Lemma search_first s : forall i m, search s i = Some m ->
  exists pre p,
    s = pre ++ fence ++ p_lang p ++ p_newline p ++ p_body p ++ fence ++ p_rest p /\
    blockFree pre (fence ++ p_lang p ++ p_newline p ++ p_body p ++ fence ++ p_rest p) = true /\
    blockOk (p_lang p) (p_newline p) (p_body p) = true /\
    m = matchOf (i + length pre) p.
Proof.
  induction s as [|c s IH]; intros i m H; cbn [search] in H.
  - destruct (matchHere []) as [p|] eqn:Hm; [discriminate Hm | discriminate H].
  - destruct (matchHere (c :: s)) as [p|] eqn:Hm.
    + injection H as <-. exists [], p.
      pose proof (matchHere_blockOk _ _ Hm) as Hok.
      apply matchHere_Some in Hm as [Hs _].
      cbn [app length blockFree]. rewrite Nat.add_0_r. auto.
    + apply IH in H as (pre & p & Hs & Hfree & Hok & ->).
      exists (c :: pre), p. split; [cbn [app]; now f_equal|].
      split; [|split; [assumption | cbn [length]; f_equal; lia]].
      cbn [blockFree app]. rewrite <- Hs. apply matchHere_opens in Hm.
      rewrite Hm. exact Hfree.
Qed.

(** Every content has a cut. *)
Lemma cut_exists s :
  exists segs, concat (map rawOf segs) = s /\ cutOk segs = true.
Proof.
  remember (length s) as n eqn:Hn. revert s Hn.
  induction n as [n IH] using lt_wf_ind. intros s Hn.
  destruct (search s 0) as [m|] eqn:Hs.
  - apply search_first in Hs as (pre & p & Hcut & Hfree & Hok & _).
    destruct (IH (length (p_rest p))) with (s := p_rest p)
      as (segs & Hraw & Hsegs); [|reflexivity|].
    { subst n. rewrite Hcut, !length_app. cbn. lia. }
    exists (SegText pre :: SegFence (p_lang p) (p_newline p) (p_body p) :: segs).
    split.
    + cbn [map concat rawOf]. rewrite Hraw, Hcut. now rewrite <- !app_assoc.
    + cbn [cutOk map concat rawOf]. rewrite Hraw, Hok, Hsegs.
      rewrite <- !app_assoc. rewrite Hfree. reflexivity.
  - exists [SegText s]. split; [cbn; apply app_nil_r|].
    cbn [cutOk]. now apply (search_None s 0).
Qed.

Lemma pushRest_segment content lastIndex parts :
  pushRest content lastIndex parts
  = parts ++ partsOf (SegText (skipn lastIndex content)).
Proof.
  unfold pushRest, partsOf.
  destruct (Nat.ltb_spec lastIndex (length content)) as [Hlt|Hge].
  - destruct (nonEmpty (trim (skipn lastIndex content)));
      [reflexivity | now rewrite app_nil_r].
  - rewrite skipn_all2 by lia. cbn. now rewrite app_nil_r.
Qed.

(** The loop follows any cut of what is left of the content. *)
Lemma cut_parse content : forall n segs lastIndex parts,
  length segs <= n -> cutOk segs = true ->
  skipn lastIndex content = concat (map rawOf segs) ->
  pushRest content (fst (loop content lastIndex parts))
    (snd (loop content lastIndex parts))
  = parts ++ flat_map partsOf segs.
Proof.
  induction n as [|n IH]; intros segs lastIndex parts Hn Hcut Hskip.
  { destruct segs; [discriminate Hcut | cbn in Hn; lia]. }
  destruct segs as [|[t|? ? ?] more]; try discriminate Hcut.
  cbn [cutOk] in Hcut.
  destruct more as [|[?|lang nl body] rest]; try discriminate Hcut.
  - (* the last text *)
    cbn [map concat rawOf] in Hskip. rewrite app_nil_r in Hskip.
    rewrite loop_step. unfold exec. rewrite Hskip.
    rewrite (search_free t lastIndex Hcut). cbn [fst snd].
    rewrite pushRest_segment, Hskip. cbn [flat_map]. now rewrite app_nil_r.
  - (* a text and a block *)
    apply andb_prop in Hcut as [Hcut Hrest].
    apply andb_prop in Hcut as [Hfree Hok].
    set (rest' := concat (map rawOf rest)) in *.
    set (full := fence ++ lang ++ nl ++ body ++ fence).
    assert (Hraw : concat (map rawOf (SegFence lang nl body :: rest))
                   = fence ++ lang ++ nl ++ body ++ fence ++ rest').
    { cbn [map concat rawOf]. fold rest'. now rewrite <- !app_assoc. }
    rewrite Hraw in Hfree.
    assert (Hskip' : skipn lastIndex content
                     = t ++ fence ++ lang ++ nl ++ body ++ fence ++ rest').
    { rewrite Hskip. cbn [map concat rawOf]. fold rest'.
      now rewrite <- !app_assoc. }
    assert (Hlen : length content - lastIndex
                   = length t + length full + length rest').
    { rewrite <- length_skipn, Hskip'. unfold full.
      rewrite !length_app. lia. }
    assert (Hfull : length full >= 6).
    { unfold full. rewrite !length_app. cbn. lia. }
    rewrite loop_step. unfold exec. rewrite Hskip'.
    rewrite (search_blockFree t _ lastIndex Hfree).
    rewrite (search_hit _ _ _ (blockOk_matchHere lang nl body rest' Hok)).
    cbn [matchOf m_index m_full p_lang p_newline p_body].
    fold full.
    change {| m_index := lastIndex + length t; m_full := full;
              m_lang := lang; m_body := body |}
      with (matchOf (lastIndex + length t)
              {| p_lang := lang; p_newline := nl; p_body := body;
                 p_rest := rest' |}).
    rewrite pushCode_segment. cbn [p_lang p_newline p_body].
    rewrite pushText_segment by lia.
    assert (Hsub : substring content lastIndex (lastIndex + length t) = t).
    { unfold substring. rewrite Hskip'.
      replace (lastIndex + length t - lastIndex) with (length t) by lia.
      now rewrite firstn_app, firstn_all, Nat.sub_diag, firstn_0, app_nil_r. }
    rewrite Hsub.
    rewrite (IH rest (lastIndex + length t + length full)).
    + cbn [flat_map]. now rewrite <- !app_assoc.
    + cbn in Hn. lia.
    + exact Hrest.
    + replace (lastIndex + length t + length full)
        with ((length t + length full) + lastIndex) by lia.
      rewrite <- skipn_skipn, Hskip'.
      replace (t ++ fence ++ lang ++ nl ++ body ++ fence ++ rest')
        with ((t ++ full) ++ rest')
        by (unfold full; now rewrite <- !app_assoc).
      rewrite <- length_app.
      rewrite skipn_app, skipn_all, Nat.sub_diag. now rewrite skipn_O.
Qed.

(** The parts of a content are those of its cut. *)
Lemma parseMessage_cutOk content segs :
  concat (map rawOf segs) = content -> cutOk segs = true ->
  parseMessage content = orWhole content (flat_map partsOf segs).
Proof.
  intros Hraw Hcut. unfold parseMessage.
  pose proof (cut_parse content (length segs) segs 0 [] (Nat.le_refl _) Hcut) as H.
  rewrite skipn_O in H. specialize (H (eq_sym Hraw)).
  destruct (loop content 0 []) as [lastIndex parts]. cbn [fst snd] in H.
  now rewrite H.
Qed.

(** C8. If the content contains no run of three backticks,
    [parseMessage] returns one text part holding the content unchanged.
    In general the content has a cut into text and fenced blocks in
    turn, in which each block is the first one that opens after the block
    before it, with its language the whole run of word characters after
    the opening fence, the newline after it if there is one, and its body
    up to the first closing fence. Whatever cut of this kind one takes,
    the parts returned are those of its segments in the same
    left-to-right order: a text segment unchanged unless it is all white
    space, which gives no part, and a fenced block as its language and
    its body trimmed, unless the trimmed body is empty, which gives no
    part; if no part is left at all, the whole content is returned as one
    text part. *)
Theorem parseMessage_segments (content : Str) :
  (containsFence content = false -> parseMessage content = [PText content]) /\
  (exists segs, concat (map rawOf segs) = content /\ cutOk segs = true) /\
  (forall segs, concat (map rawOf segs) = content -> cutOk segs = true ->
     parseMessage content = orWhole content (flat_map partsOf segs)).
Proof.
  split; [|split; [apply cut_exists | apply parseMessage_cutOk]].
  intros Hno. unfold parseMessage. rewrite loop_step.
  unfold exec. cbn [skipn]. rewrite containsFence_search by assumption.
  unfold pushRest.
  destruct (Nat.ltb_spec 0 (length content)); [|reflexivity].
  change (skipn 0 content) with content.
  destruct (nonEmpty (trim content)); reflexivity.
Qed.

(** A message with two blocks, the second one empty, and a blank text
    between them: the parts are the first text, the code of the first
    block trimmed, and the last text. *)
Lemma parseMessage_segments_witness :
  parseMessage (str "Here:
```py
x = 1
```
  ```js
```
done")
  = [PText (str "Here:
"); PCode (str "py") (str "x = 1"); PText (str "
done")].
Proof.
  exact (proj2 (proj2 (parseMessage_segments _))
           [SegText (str "Here:
"); SegFence (str "py") [newline] (str "x = 1
"); SegText (str "
  "); SegFence (str "js") [newline] []; SegText (str "
done")] eq_refl eq_refl).
Defined.

Example exec_finds_block :
  exec (str "a ```py
x = 1
``` b") 0
  = Some (mkMatch 2 (str "```py
x = 1
```") (str "py") (str "x = 1
")).
Proof. reflexivity. Qed.

Example parse_mixed :
  parseMessage (str "Here:
```py
x = 1
```
  ```js
```
done")
  = [PText (str "Here:
"); PCode (str "py") (str "x = 1"); PText (str "
done")].
Proof. vm_compute. reflexivity. Qed.

Example parse_plain : parseMessage (str "no code") = [PText (str "no code")].
Proof. vm_compute. reflexivity. Qed.

Example parse_empty_block :
  parseMessage (str "  ``````  ") = [PText (str "  ``````  ")].
Proof. vm_compute. reflexivity. Qed.

End Markdown.

(* ===================================================================== *)
(** * ChatArea.js: more on [trim], [parseMessage] and the rendered text *)
(* ===================================================================== *)

Module Text.
Import Markdown.

(** A string without white space at either end. *)
Definition trimmed (s : Str) : Prop :=
  match s with
  | [] => True
  | c :: _ => isSpace c = false /\ isSpace (List.last s c) = false
  end.

(** [content.split('\n')]: the pieces between the newlines; an empty
    string gives one empty piece. *)
Fixpoint splitLines (s : Str) : list Str :=
  match s with
  | [] => [[]]
  | c :: s' =>
      if N.eqb c newline then [] :: splitLines s'
      else match splitLines s' with
           | line :: rest => (c :: line) :: rest
           | [] => [[c]]
           end
  end.

(** What a text part renders to: its lines, with a [<br />] after each
    line but the last. *)
Inductive Node :=
| NText (line : Str)
| NBreak.

Fixpoint renderLines (lines : list Str) : list Node :=
  match lines with
  | [] => []
  | [line] => [NText line]
  | line :: rest => NText line :: NBreak :: renderLines rest
  end.

Definition renderText (content : Str) : list Node :=
  renderLines (splitLines content).

(** The characters a rendered text shows, a line break read as a newline. *)
Fixpoint shown (nodes : list Node) : Str :=
  match nodes with
  | [] => []
  | NText line :: rest => line ++ shown rest
  | NBreak :: rest => newline :: shown rest
  end.

Fixpoint breaks (nodes : list Node) : nat :=
  match nodes with
  | [] => 0
  | NBreak :: rest => S (breaks rest)
  | _ :: rest => breaks rest
  end.

(** The characters of a part. *)
Definition partText (p : Part) : Str :=
  match p with
  | PText text => text
  | PCode _ code => code
  end.

(** [x] stands in [content], in one piece. *)
Definition pieceOf (content x : Str) : Prop :=
  exists a b, content = a ++ x ++ b.

(** A part as a segment of a cut gives it: a text that is not blank and
    in which no fenced block opens; a code that is not empty, has no
    white space at either end and holds no fence, with a language of word
    characters. *)
Definition partStrict (p : Part) : Prop :=
  match p with
  | PText text => nonEmpty (trim text) = true /\ blockFree text [] = true
  | PCode lang code =>
      forallb isWordChar lang = true /\ code <> [] /\ trimmed code /\
      containsFence code = false
  end.

(** The whole content came back as the only part because its cut gives
    no part at all. *)
Definition fallback (content : Str) (parts : list Part) : Prop :=
  parts = [PText content] /\
  exists segs, concat (map rawOf segs) = content /\ cutOk segs = true /\
               flat_map partsOf segs = [].

(** What the segments of a cut are, one by one. *)
Definition segStrict (seg : Segment) : Prop :=
  match seg with
  | SegText t => blockFree t [] = true
  | SegFence lang nl body => blockOk lang nl body = true
  end.

Definition partSize (p : Part) : nat :=
  match p with
  | PText text => length text
  | PCode _ code => length code
  end.

(** ** [trim] *)

Lemma trimStart_split s :
  exists pre, s = pre ++ trimStart s /\ forallb isSpace pre = true.
Proof.
  induction s as [|c s (pre & Hs & Hpre)]; [now exists []|].
  cbn [trimStart]. destruct (isSpace c) eqn:Hc.
  - exists (c :: pre). cbn. rewrite Hc, Hpre. split; [now f_equal | reflexivity].
  - now exists [].
Qed.

Lemma trimStart_head s :
  match trimStart s with
  | [] => True
  | c :: _ => isSpace c = false
  end.
Proof.
  induction s as [|c s IH]; [exact I|]. cbn [trimStart].
  destruct (isSpace c) eqn:Hc; [exact IH | exact Hc].
Qed.

Lemma trimStart_fixed s :
  match s with [] => True | c :: _ => isSpace c = false end ->
  trimStart s = s.
Proof. destruct s as [|c s]; [reflexivity|]. cbn. now intros ->. Qed.

Lemma trimStart_idem s : trimStart (trimStart s) = trimStart s.
Proof. apply trimStart_fixed, trimStart_head. Qed.

Lemma trimEnd_split s :
  exists post, s = trimEnd s ++ post /\ forallb isSpace post = true.
Proof.
  unfold trimEnd. destruct (trimStart_split (rev s)) as (pre & Hs & Hpre).
  exists (rev pre). split.
  - rewrite <- rev_app_distr, <- Hs. now rewrite rev_involutive.
  - rewrite forallb_forall in *. intros x Hx. apply Hpre. now apply in_rev.
Qed.

Lemma trimEnd_idem s : trimEnd (trimEnd s) = trimEnd s.
Proof. unfold trimEnd. now rewrite rev_involutive, trimStart_idem. Qed.

(** Cutting spaces from the end leaves a non-space head in place. *)
Lemma trimEnd_head c s : isSpace c = false ->
  exists t, trimEnd (c :: s) = c :: t.
Proof.
  intros Hc. destruct (trimEnd_split (c :: s)) as (post & Hs & Hpost).
  destruct (trimEnd (c :: s)) as [|d t] eqn:Ht.
  - cbn in Hs. subst post. cbn in Hpost. rewrite Hc in Hpost. discriminate.
  - cbn in Hs. injection Hs as <- _. now exists t.
Qed.

Lemma trimEnd_last s :
  match trimEnd s with
  | [] => True
  | c :: t => isSpace (List.last (c :: t) c) = false
  end.
Proof.
  unfold trimEnd. pose proof (trimStart_head (rev s)) as Hh.
  destruct (trimStart (rev s)) as [|d u]; [exact I|].
  cbn [rev]. destruct (rev u ++ [d]) as [|c t] eqn:E.
  - destruct (rev u); discriminate E.
  - rewrite <- E. now rewrite last_last.
Qed.

Lemma trim_trimmed s : trimmed (trim s).
Proof.
  unfold trim, trimmed. pose proof (trimStart_head s) as Hh.
  pose proof (trimEnd_last (trimStart s)) as Hl.
  destruct (trimStart s) as [|c t] eqn:Hs; [exact I|].
  destruct (trimEnd_head c t Hh) as (t' & Ht'). rewrite Ht' in *.
  split; assumption.
Qed.

Lemma trim_split s :
  exists pre post, s = pre ++ trim s ++ post /\
                   forallb isSpace pre = true /\ forallb isSpace post = true.
Proof.
  destruct (trimStart_split s) as (pre & Hs & Hpre).
  destruct (trimEnd_split (trimStart s)) as (post & Ht & Hpost).
  exists pre, post. unfold trim. rewrite <- Ht. auto.
Qed.

Lemma trim_idem s : trim (trim s) = trim s.
Proof.
  unfold trim at 1. pose proof (trim_trimmed s) as Ht.
  rewrite trimStart_fixed.
  - unfold trim. apply trimEnd_idem.
  - unfold trimmed in Ht. destruct (trim s); tauto.
Qed.

(** ** Fences inside a string *)

Lemma containsFence_tail a s : containsFence (a ++ s) = false ->
  containsFence s = false.
Proof.
  induction a as [|c a IH]; [auto|]. cbn [app containsFence].
  destruct (stripPrefix fence (c :: a ++ s)); [discriminate | exact IH].
Qed.

Lemma containsFence_init s : forall b, containsFence (s ++ b) = false ->
  containsFence s = false.
Proof.
  induction s as [|c s IH]; intros b H.
  - reflexivity.
  - cbn [app containsFence] in *.
    destruct (stripPrefix fence (c :: s)) as [r|] eqn:Hp.
    + apply (stripPrefix_app _ _ _ b) in Hp. cbn [app] in Hp.
      now rewrite Hp in H.
    + destruct (stripPrefix fence (c :: s ++ b)); [discriminate|].
      now apply (IH b).
Qed.

Lemma trim_no_fence body :
  containsFence (body ++ [backtick; backtick]) = false ->
  containsFence (trim body) = false.
Proof.
  intros H. destruct (trim_split body) as (pre & post & Hb & _ & _).
  rewrite Hb in H. rewrite <- !app_assoc in H.
  apply containsFence_tail in H. now apply containsFence_init in H.
Qed.

Lemma trim_length s : length (trim s) <= length s.
Proof.
  destruct (trim_split s) as (pre & post & Hs & _ & _).
  rewrite Hs at 2. rewrite !length_app. lia.
Qed.

(** ** The parts of a message *)

Lemma nonEmpty_true (s : Str) : nonEmpty s = true -> s <> [].
Proof. destruct s; [discriminate | discriminate]. Qed.

Lemma containsFence_app_l s r :
  containsFence s = true -> containsFence (s ++ r) = true.
Proof.
  induction s as [|c s IH]; cbn [containsFence app].
  - destruct (stripPrefix fence []) eqn:E; [|discriminate].
    apply stripPrefix_Some in E. discriminate E.
  - destruct (stripPrefix fence (c :: s)) as [x|] eqn:E.
    + intros _. change (c :: s ++ r) with ((c :: s) ++ r).
      now rewrite (stripPrefix_app _ _ _ r E).
    + intros H. destruct (stripPrefix fence (c :: s ++ r)); [reflexivity|].
      now apply IH.
Qed.

Lemma opensBlock_app s r : opensBlock s = true -> opensBlock (s ++ r) = true.
Proof.
  unfold opensBlock. destruct (stripPrefix fence s) as [x|] eqn:E; [|discriminate].
  rewrite (stripPrefix_app _ _ _ r E). apply containsFence_app_l.
Qed.

(** A text in which no block opens with something after it has none
    opening on its own. *)
Lemma blockFree_alone t r : blockFree t r = true -> blockFree t [] = true.
Proof.
  induction t as [|c t IH]; [reflexivity|]. cbn [blockFree].
  intros H. apply andb_prop in H as [Hc H]. rewrite (IH H), andb_true_r.
  apply negb_true_iff in Hc. apply negb_true_iff.
  destruct (opensBlock ((c :: t) ++ [])) eqn:E; [|reflexivity].
  rewrite app_nil_r in E. now rewrite (opensBlock_app _ r E) in Hc.
Qed.

Lemma cutOk_strict segs : cutOk segs = true -> Forall segStrict segs.
Proof.
  remember (length segs) as n eqn:Hn. revert segs Hn.
  induction n as [n IH] using lt_wf_ind. intros segs Hn Hcut.
  destruct segs as [|[t|? ? ?] more]; try discriminate Hcut.
  cbn [cutOk] in Hcut.
  destruct more as [|[?|lang nl body] rest]; try discriminate Hcut.
  - repeat constructor. exact Hcut.
  - apply andb_prop in Hcut as [Hcut Hrest].
    apply andb_prop in Hcut as [Hfree Hok].
    constructor; [now apply (blockFree_alone t _ Hfree)|].
    constructor; [exact Hok|].
    apply (IH (length rest)); [subst n; cbn; lia | reflexivity | exact Hrest].
Qed.

Lemma pieceOf_refl s : pieceOf s s.
Proof. exists [], []. now rewrite app_nil_r. Qed.

Lemma pieceOf_trans x y z : pieceOf x y -> pieceOf y z -> pieceOf x z.
Proof.
  intros (a & b & ->) (c & d & ->). exists (a ++ c), (d ++ b).
  now rewrite <- !app_assoc.
Qed.

Lemma pieceOf_trim s : pieceOf s (trim s).
Proof. destruct (trim_split s) as (pre & post & Hs & _). now exists pre, post. Qed.

Lemma blockOk_parts lang nl body : blockOk lang nl body = true ->
  forallb isWordChar lang = true /\
  containsFence (body ++ [backtick; backtick]) = false.
Proof.
  unfold blockOk. intros H.
  apply andb_prop in H as [H Hmin]. apply andb_prop in H as [H _].
  apply andb_prop in H as [Hlang _]. apply negb_true_iff in Hmin. now split.
Qed.

Lemma partsOf_strict seg : segStrict seg ->
  Forall (fun p => partStrict p /\ pieceOf (rawOf seg) (partText p)) (partsOf seg) /\
  list_sum (map partSize (partsOf seg)) <= length (rawOf seg).
Proof.
  destruct seg as [raw|lang nl body]; cbn [segStrict partsOf rawOf].
  - intros Hfree. destruct (nonEmpty (trim raw)) eqn:Hr; cbn.
    + split; [|lia]. constructor; [|constructor].
      split; [now split | apply pieceOf_refl].
    + split; [constructor | lia].
  - intros Hok. apply blockOk_parts in Hok as (Hlang & Hmin).
    destruct (nonEmpty (trim body)) eqn:Hb; cbn.
    + split.
      * constructor; [|constructor]. split.
        -- cbn. split; [assumption|]. split; [now apply nonEmpty_true|].
           split; [apply trim_trimmed | now apply trim_no_fence].
        -- cbn [partText]. apply (pieceOf_trans _ body); [|apply pieceOf_trim].
           exists (fence ++ lang ++ nl), fence. now rewrite <- !app_assoc.
      * pose proof (trim_length body). rewrite !length_app. lia.
    + split; [constructor | lia].
Qed.

Lemma segments_strict segs : Forall segStrict segs ->
  Forall (fun p => partStrict p /\
                   pieceOf (concat (map rawOf segs)) (partText p))
         (flat_map partsOf segs) /\
  list_sum (map partSize (flat_map partsOf segs))
    <= length (concat (map rawOf segs)).
Proof.
  induction 1 as [|seg segs Hseg _ (IH1 & IH2)]; cbn [flat_map map concat].
  - split; [constructor | cbn; lia].
  - destruct (partsOf_strict seg Hseg) as (H1 & H2). split.
    + apply Forall_app. split.
      * eapply Forall_impl; [exact H1|]. intros p (Hp & Hpiece).
        split; [exact Hp|]. apply (pieceOf_trans _ (rawOf seg)); [|exact Hpiece].
        exists [], (concat (map rawOf segs)). reflexivity.
      * eapply Forall_impl; [exact IH1|]. intros p (Hp & Hpiece).
        split; [exact Hp|].
        apply (pieceOf_trans _ (concat (map rawOf segs))); [|exact Hpiece].
        exists (rawOf seg), []. now rewrite app_nil_r.
    + rewrite map_app, list_sum_app, length_app. lia.
Qed.

(** X1. [parseMessage] always returns at least one part, every part
    stands in the content in one piece, and the parts together are no
    longer than the content. A code part has a language of word
    characters and a code that is not empty, has no white space at either
    end and holds no fence. A text part is not blank and no fenced block
    opens in it, with one exception: when the cut of the content into
    text and blocks gives no part at all (every text blank, every block
    with a blank body, as for an empty or blank message), the whole
    content comes back as the only part. *)
Theorem parts_are_pieces_of_the_content (content : Str) :
  parseMessage content <> [] /\
  Forall (fun p => pieceOf content (partText p)) (parseMessage content) /\
  list_sum (map partSize (parseMessage content)) <= length content /\
  Forall (fun p => partStrict p \/ fallback content (parseMessage content))
         (parseMessage content).
Proof.
  destruct (cut_exists content) as (segs & Hraw & Hcut).
  rewrite (parseMessage_cutOk content segs Hraw Hcut).
  destruct (segments_strict segs (cutOk_strict segs Hcut)) as (Hparts & Hsize).
  rewrite Hraw in Hparts, Hsize. unfold orWhole.
  destruct (flat_map partsOf segs) as [|p ps] eqn:Hflat.
  - split; [discriminate|]. split; [|split].
    + constructor; [apply pieceOf_refl | constructor].
    + cbn. lia.
    + constructor; [|constructor]. right. split; [reflexivity|].
      exists segs. auto.
  - split; [discriminate|]. split; [|split; [exact Hsize|]].
    + eapply Forall_impl; [exact Hparts|]. now intros q (_ & Hq).
    + eapply Forall_impl; [exact Hparts|]. intros q (Hq & _). now left.
Qed.

(** ** One fenced block, there and back *)

(** A text that holds no fence and does not end in a backtick has no
    block opening in it, whatever fence follows. *)
Lemma blockFree_before_fence t r :
  containsFence (t ++ [backtick; backtick]) = false ->
  blockFree t (fence ++ r) = true.
Proof.
  induction t as [|c t IH]; [reflexivity|].
  cbn [app containsFence blockFree]. intros H.
  destruct (stripPrefix fence (c :: t ++ [backtick; backtick])) eqn:E;
    [discriminate H|].
  rewrite (IH H), andb_true_r. apply negb_true_iff. unfold opensBlock.
  replace (c :: t ++ fence ++ r)
    with ((c :: t ++ [backtick; backtick]) ++ backtick :: r)
    by (cbn; f_equal; now rewrite <- app_assoc).
  rewrite stripPrefix_app_None; [reflexivity| |exact E].
  cbn. rewrite length_app. cbn. lia.
Qed.

Lemma blockFree_no_fence s : containsFence s = false -> blockFree s [] = true.
Proof. intros H. apply (search_None s 0). now apply containsFence_search. Qed.

(** X2. A message made of a text, an opening fence, a language of word
    characters, a newline, a body, the closing fence and a text after it
    is cut exactly there, and gives the text before (if not blank), one
    code part with that language and the body trimmed, and the text after
    (if not blank). For that the body must not be blank; the text before
    and the body must hold no three backticks in a row even when two
    backticks are put after them (so they hold no fence and do not end in
    a backtick); and the text after must hold no three backticks in a
    row. *)
Theorem fenced_block_round_trip (text lang code after : Str) :
  containsFence (text ++ [backtick; backtick]) = false ->
  forallb isWordChar lang = true ->
  containsFence (code ++ [backtick; backtick]) = false ->
  nonEmpty (trim code) = true ->
  containsFence after = false ->
  parseMessage (text ++ fence ++ lang ++ newline :: code ++ fence ++ after)
  = partsOf (SegText text) ++ [PCode lang (trim code)]
      ++ partsOf (SegText after).
Proof.
  intros Htext Hlang Hmin Hcode Hafter.
  rewrite (parseMessage_cutOk _
             [SegText text; SegFence lang [newline] code; SegText after]).
  - cbn [flat_map partsOf]. rewrite Hcode, app_nil_r. unfold orWhole.
    destruct (nonEmpty (trim text)); reflexivity.
  - cbn [map concat rawOf]. rewrite app_nil_r. now rewrite <- !app_assoc.
  - cbn [cutOk map concat rawOf]. rewrite app_nil_r.
    rewrite <- !app_assoc. rewrite (blockFree_before_fence text _ Htext).
    rewrite (blockFree_no_fence after Hafter). unfold blockOk.
    rewrite Hlang, Hmin, N.eqb_refl. reflexivity.
Qed.

(** The round trip on a two-line Python block after a sentence, with a
    backtick left over after the closing fence. *)
Lemma fenced_block_round_trip_witness :
  parseMessage (str "Run this:
" ++ fence ++ str "py" ++ newline :: str "x = 1
print(x)
" ++ fence ++ str "`")
  = [PText (str "Run this:
"); PCode (str "py") (str "x = 1
print(x)"); PText (str "`")].
Proof.
  apply (fenced_block_round_trip (str "Run this:
") (str "py") (str "x = 1
print(x)
") (str "`")); reflexivity.
Defined.

(** ** Rendering a text part *)

Lemma splitLines_cons s : exists line rest, splitLines s = line :: rest.
Proof.
  destruct s as [|c s]; [now exists [], []|]. cbn [splitLines].
  destruct (N.eqb c newline); [now eexists _, _|].
  destruct (splitLines s); now eexists _, _.
Qed.

Lemma renderLines_cons line rest next :
  renderLines (line :: next :: rest)
  = NText line :: NBreak :: renderLines (next :: rest).
Proof. reflexivity. Qed.

Lemma shown_first c line rest :
  shown (renderLines ((c :: line) :: rest)) = c :: shown (renderLines (line :: rest)).
Proof. destruct rest; reflexivity. Qed.

Lemma breaks_first c line rest :
  breaks (renderLines ((c :: line) :: rest)) = breaks (renderLines (line :: rest)).
Proof. destruct rest; reflexivity. Qed.

(** X3. A text part is rendered line by line with a line break between
    consecutive lines: read back with each break as a newline, the
    rendering is the content, character for character; there are as many
    breaks as newlines; and no rendered line holds a newline. *)
Theorem rendered_text_is_the_content (content : Str) :
  shown (renderText content) = content /\
  breaks (renderText content) = count_occ N.eq_dec content newline /\
  Forall (fun line => ~ In newline line) (splitLines content).
Proof.
  unfold renderText. induction content as [|c s (IH1 & IH2 & IH3)].
  - repeat split. repeat constructor. intros [].
  - cbn [splitLines count_occ].
    destruct (splitLines_cons s) as (line & rest & Hs). rewrite Hs in *.
    destruct (N.eqb_spec c newline) as [->|Hc].
    + destruct (N.eq_dec newline newline) as [_|E]; [|contradiction].
      rewrite renderLines_cons. cbn [shown breaks].
      rewrite IH1, IH2. repeat split. constructor; [intros [] | assumption].
    + destruct (N.eq_dec c newline) as [E|_]; [contradiction|].
      rewrite shown_first, breaks_first, IH1, IH2. repeat split.
      inversion IH3 as [|? ? Hline Hrest]; subst.
      constructor; [|assumption].
      intros [E|Hin]; [now apply Hc | now apply Hline].
Qed.

End Text.

(* ===================================================================== *)
(** * ChatArea.js: uploads, removal and the outcome of a polling run *)
(* ===================================================================== *)

Module Uploads.
Import ChatArea.

(** [prev => prev.filter(f => f.id !== fileId)] *)
Definition removeFile (fileId : string) (prev : list UploadedFile)
  : list UploadedFile :=
  filter (fun f => f_id f <> fileId) prev.

(** The body of the last status update of a trace, if there is one. *)
Fixpoint lastBody (tr : list Event) : option StatusJson :=
  match tr with
  | [] => None
  | EvSetFiles _ st :: tr' =>
      match lastBody tr' with
      | Some st' => Some st'
      | None => Some st
      end
  | _ :: tr' => lastBody tr'
  end.

(** What the upload of one file came to: the [fetch] or the reading of
    the body threw, the response was not [ok] (with the [error] field of
    its body, if any, and the HTTP status), or it was [ok] with a file id
    and perhaps a file name. *)
Inductive UploadResult :=
| UploadThrew (message : string)
| UploadNotOk (errorField : option string) (status : nat)
| UploadOk (file_id : string) (filename : option string).

(** [a || b] for a string [a] that may be missing. *)
Definition orElse (a : option string) (b : string) : string :=
  match a with
  | Some s => if String.eqb s "" then b else s
  | None => b
  end.

Definition decimal (n : nat) : string := NilZero.string_of_uint (Nat.to_uint n).

(** [error.message] in the [catch] of the upload loop. *)
Definition uploadError (r : UploadResult) : string :=
  match r with
  | UploadThrew message => message
  | UploadNotOk errorField status =>
      orElse errorField ("Upload failed: " ++ decimal status)
  | UploadOk _ _ => ""
  end.

(** One file picked in the selector: its name, what its upload came to,
    and the time stamp taken if it succeeded. *)
Record Picked := mkPicked {
  p_name : string;
  p_result : UploadResult;
  p_now : string
}.

(** [newFile] for a successful upload. *)
Definition newFile (p : Picked) : option UploadedFile :=
  match p_result p with
  | UploadOk file_id filename =>
      Some {| f_id := file_id;
              f_name := orElse filename (p_name p);
              f_status := Some "queued";
              f_progress := 10;
              f_uploadedAt := p_now p;
              f_message := None;
              f_chunks := None;
              f_wordCount := None;
              f_fileType := None |}
  | _ => None
  end.

(** What the [onchange] handler does, in order. *)
Inductive UploadEvent :=
| UpUploading (flag : bool)
| UpAppend (f : UploadedFile)
| UpPoll (fileId : string)
| UpAlert (text : string).

(** The body of the [for] loop for one file. *)
Definition uploadOne (p : Picked) : list UploadEvent :=
  match newFile p with
  | Some f => [UpAppend f; UpPoll (f_id f)]
  | None =>
      [UpAlert ("Failed to upload " ++ p_name p ++ ": " ++ uploadError (p_result p))]
  end.


(** The files list after the [setUploadedFiles(prev => [...prev, newFile])]
    of a run of events. *)
Fixpoint filesAfter (events : list UploadEvent) (prev : list UploadedFile)
  : list UploadedFile :=
  match events with
  | [] => prev
  | UpAppend f :: rest => filesAfter rest (prev ++ [f])
  | _ :: rest => filesAfter rest prev
  end.




(** ** Removal and status updates *)

Lemma applyStatus_twice fileId st1 st2 files :
  applyStatus fileId st2 (applyStatus fileId st1 files)
  = applyStatus fileId st2 files.
Proof.
  unfold applyStatus. rewrite map_map. apply map_ext. intros f.
  destruct (String.eqb (f_id f) fileId) eqn:E; cbn [withStatus f_id];
    rewrite E; reflexivity.
Qed.

Lemma applyStatus_removeFile fileId other st files :
  applyStatus fileId st (removeFile other files)
  = removeFile other (applyStatus fileId st files).
Proof.
  unfold applyStatus, removeFile.
  induction files as [|f files IH]; [reflexivity|].
  cbn [map]. rewrite !filter_cons.
  assert (Hid : f_id (if String.eqb (f_id f) fileId then withStatus st f else f)
                = f_id f) by (destruct (String.eqb (f_id f) fileId); reflexivity).
  rewrite Hid. destruct (decide (f_id f <> other)); cbn [map]; now rewrite IH.
Qed.

Lemma applyStatus_absent fileId st files :
  applyStatus fileId st (removeFile fileId files) = removeFile fileId files.
Proof.
  unfold applyStatus, removeFile.
  induction files as [|f files IH]; [reflexivity|].
  rewrite filter_cons. destruct (decide (f_id f <> fileId)) as [Hne|_];
    [|exact IH].
  cbn [map]. rewrite IH. apply String.eqb_neq in Hne. now rewrite Hne.
Qed.

Lemma removeFile_applyStatus fileId st files :
  removeFile fileId (applyStatus fileId st files) = removeFile fileId files.
Proof. now rewrite <- applyStatus_removeFile, applyStatus_absent. Qed.

Lemma replay_removeFile other tr : forall files,
  replay tr (removeFile other files) = removeFile other (replay tr files).
Proof.
  induction tr as [|e tr IH]; intros files; [reflexivity|].
  destruct e as [fid|fid st|d]; cbn [replay]; try apply IH.
  now rewrite applyStatus_removeFile, IH.
Qed.

Lemma replay_absent fileId tr : updatesOnly fileId tr -> forall files,
  replay tr (removeFile fileId files) = removeFile fileId files.
Proof.
  induction 1 as [|e tr He _ IH]; intros files; [reflexivity|].
  destruct e as [fid|fid st|d]; cbn [replay]; try apply IH.
  subst fid. now rewrite applyStatus_absent, IH.
Qed.

(** X4. Removing a file chip and the status updates of any polling run
    commute: it makes no difference whether the chip is removed before,
    during or after the updates. In particular the polling of a file
    that was removed never brings its entry back, and removing it after
    its updates gives what removing it at once gives. *)
Theorem removal_commutes_with_polling (server : nat -> PollResponse)
  (fileId other : string) (files : list UploadedFile) :
  replay (pollFileStatus server fileId) (removeFile other files)
    = removeFile other (replay (pollFileStatus server fileId) files) /\
  replay (pollFileStatus server fileId) (removeFile fileId files)
    = removeFile fileId files /\
  removeFile fileId (replay (pollFileStatus server fileId) files)
    = removeFile fileId files /\
  Forall (fun f => f_id f <> fileId) (removeFile fileId files).
Proof.
  assert (Hown : replay (pollFileStatus server fileId) (removeFile fileId files)
                 = removeFile fileId files)
    by (apply replay_absent, poll_updatesOnly).
  split; [apply replay_removeFile|]. split; [exact Hown|]. split.
  - now rewrite <- replay_removeFile.
  - unfold removeFile. apply Forall_forall. intros f Hf.
    now apply list_elem_of_filter in Hf as [Hf _].
Qed.

(** ** What a polling run leaves in the list *)

Lemma replay_last fileId tr : updatesOnly fileId tr -> forall files,
  replay tr files =
  match lastBody tr with
  | Some st => applyStatus fileId st files
  | None => files
  end.
Proof.
  induction 1 as [|e tr He _ IH]; intros files; [reflexivity|].
  destruct e as [fid|fid st|d]; cbn [replay lastBody]; try apply IH.
  subst fid. rewrite IH. destruct (lastBody tr) as [st'|]; [|reflexivity].
  apply applyStatus_twice.
Qed.

Lemma lastBody_None tr : lastBody tr = None -> observed tr = [].
Proof.
  induction tr as [|e tr IH]; [reflexivity|].
  destruct e as [fid|fid st|d]; cbn [lastBody observed]; try exact IH.
  destruct (lastBody tr); discriminate.
Qed.

Lemma lastBody_observed tr :
  option_map js_status (lastBody tr) = List.last (map Some (observed tr)) None.
Proof.
  induction tr as [|e tr IH]; [reflexivity|].
  destruct e as [fid|fid st|d]; cbn [lastBody observed]; try exact IH.
  destruct (lastBody tr) as [st'|] eqn:Hl; cbn [option_map] in *.
  - destruct (observed tr) as [|o obs]; [discriminate IH | exact IH].
  - now rewrite (lastBody_None tr Hl).
Qed.

(** X5. A whole polling run has the effect of its last successful poll
    alone: the list after the run is the list with that one response
    applied (or the list unchanged when no poll succeeded), and the
    status it then shows for the file is the last status observed. *)
Theorem polling_run_leaves_last_response (server : nat -> PollResponse)
  (fileId : string) (files : list UploadedFile) :
  let tr := pollFileStatus server fileId in
  replay tr files =
    match lastBody tr with
    | Some st => applyStatus fileId st files
    | None => files
    end /\
  option_map js_status (lastBody tr) = List.last (map Some (observed tr)) None.
Proof.
  cbn zeta. split; [apply replay_last, poll_updatesOnly | apply lastBody_observed].
Qed.

(** ** How long a polling run lasts *)

Lemma poll_wait_bounds server fileId a :
  1000 * length (delays (poll server fileId a))
    <= list_sum (delays (poll server fileId a))
    <= 2000 * length (delays (poll server fileId a)).
Proof.
  unfold list_sum.
  poll_cases server fileId a IH; cbn [fold_right length]; lia.
Qed.

Lemma poll_wait_clean server fileId a :
  (forall k, a <= k -> isError (server k) = false) ->
  list_sum (delays (poll server fileId a))
  = 1000 * length (delays (poll server fileId a)).
Proof.
  unfold list_sum.
  pattern a. apply attempts_ind. clear a. intros a IH Hclean.
  pose proof (Hclean a (Nat.le_refl a)) as Ha.
  rewrite (poll_step server fileId a).
  destruct (server a) as [| | |st]; try discriminate Ha.
  destruct (inProgress (js_status st));
    destruct (Nat.ltb_spec a maxAttempts) as [Hlt|Hge];
    cbn [andb delays fold_right length]; try lia.
  rewrite (IH Hlt); [lia|]. intros k Hk. apply Hclean. lia.
Qed.

Lemma poll_gives_up server fileId a :
  (forall k st, a <= k -> server k = Ok st ->
     inProgress (js_status st) = true) ->
  fetchCount (poll server fileId a) = S (maxAttempts - a) /\
  Forall (fun s => inProgress s = true) (observed (poll server fileId a)).
Proof.
  pattern a. apply attempts_ind. clear a. intros a IH Hbusy.
  rewrite (poll_step server fileId a).
  assert (Hnext : forall k st, S a <= k -> server k = Ok st ->
                    inProgress (js_status st) = true)
    by (intros k st Hk; apply Hbusy; lia).
  destruct (server a) as [| | |st] eqn:Hresp;
    [| | |pose proof (Hbusy a st (Nat.le_refl a) Hresp) as Hst; rewrite Hst];
    destruct (Nat.ltb_spec a maxAttempts) as [Hlt|Hge];
    cbn [andb fetchCount observed].
  all: try (destruct (IH Hlt Hnext) as (IH1 & IH2); rewrite IH1).
  all: split; [lia|].
  all: repeat (constructor; try assumption).
  all: assumption.
Qed.

(** X6. The waiting of a polling run adds up to between one and two
    seconds per re-poll, so to at most 2000 ms times 60, two minutes; when
    no read fails it is exactly one second per re-poll, at most one
    minute. And when none
    of the responses carries [completed] or [failed], the run makes its 61
    fetches and stops without ever having seen a terminal status. *)
Theorem polling_run_duration (server : nat -> PollResponse) (fileId : string) :
  let tr := pollFileStatus server fileId in
  1000 * length (delays tr) <= list_sum (delays tr) <= 2000 * maxAttempts /\
  ((forall k, isError (server k) = false) ->
     list_sum (delays tr) = 1000 * length (delays tr) /\
     list_sum (delays tr) <= 1000 * maxAttempts) /\
  ((forall k st, server k = Ok st -> inProgress (js_status st) = true) ->
     fetchCount tr = 61 /\
     Forall (fun s => inProgress s = true) (observed tr)).
Proof.
  cbn zeta. unfold pollFileStatus.
  pose proof (poll_wait_bounds server fileId 0) as Hb.
  pose proof (poll_delays_bound server fileId 0) as Hn.
  rewrite Nat.sub_0_r in Hn.
  split; [lia|]. split.
  - intros Hclean.
    rewrite (poll_wait_clean server fileId 0) by (intros k _; apply Hclean).
    split; [reflexivity | lia].
  - intros Hbusy.
    destruct (poll_gives_up server fileId 0) as (H1 & H2);
      [intros k st _; apply Hbusy|].
    split; [exact H1 | exact H2].
Qed.

(** ** A batch of uploads *)








(** ** An uploaded file from upload to the end of its polling *)

Lemma applyStatus_fresh fileId st files :
  Forall (fun g => f_id g <> fileId) files ->
  applyStatus fileId st files = files.
Proof.
  unfold applyStatus. induction 1 as [|g files Hg _ IH]; [reflexivity|].
  cbn [map]. rewrite IH. apply String.eqb_neq in Hg. now rewrite Hg.
Qed.

(** X8. When an upload succeeds with an id no entry has yet, then after
    its polling run, however that goes, the earlier entries are as they
    were and the new entry is the last one: still under the id, the name
    and the upload time it was given, and showing the last polled
    response, or still queued at progress 10 when no poll succeeded. *)
Theorem uploaded_file_lifecycle (p : Picked) (f : UploadedFile)
  (prev : list UploadedFile) (server : nat -> PollResponse) :
  newFile p = Some f ->
  Forall (fun g => f_id g <> f_id f) prev ->
  let tr := pollFileStatus server (f_id f) in
  let shownEntry :=
    match lastBody tr with
    | Some st => withStatus st f
    | None => f
    end in
  replay tr (filesAfter (uploadOne p) prev) = prev ++ [shownEntry] /\
  f_id shownEntry = f_id f /\
  f_name shownEntry = f_name f /\
  f_uploadedAt shownEntry = p_now p /\
  (lastBody tr = None ->
     f_status shownEntry = Some "queued" /\ f_progress shownEntry = 10%Z).
Proof.
  intros Hnew Hfresh. cbn zeta.
  assert (Hf : f_uploadedAt f = p_now p /\ f_status f = Some "queued"
               /\ f_progress f = 10%Z).
  { unfold newFile in Hnew. destruct (p_result p); try discriminate Hnew.
    injection Hnew as <-. repeat split. }
  destruct Hf as (Hat & Hst & Hpr).
  split.
  - unfold uploadOne. rewrite Hnew. cbn [filesAfter].
    rewrite (replay_last (f_id f)) by apply poll_updatesOnly.
    destruct (lastBody (pollFileStatus server (f_id f))) as [st|];
      [|reflexivity].
    unfold applyStatus. rewrite map_app. cbn [map]. rewrite String.eqb_refl.
    f_equal. now apply (applyStatus_fresh (f_id f) st prev).
  - destruct (lastBody (pollFileStatus server (f_id f))) as [st|];
      cbn [withStatus f_id f_name f_uploadedAt]; repeat split;
      try assumption; try discriminate; intros _; assumption.
Qed.

(** A PDF uploaded next to an earlier file, then polled through a failed
    read, [queued] and [failed]. *)
Lemma uploaded_file_lifecycle_witness :
  replay (pollFileStatus sampleServer "file-9")
         (filesAfter
            (uploadOne (mkPicked "notes.pdf" (UploadOk "file-9" None) "2024-02-02"))
            sampleFiles)
  = sampleFiles
      ++ [mkUploadedFile "file-9" "notes.pdf" (Some "failed") 0 "2024-02-02"
                         None None None None].
Proof.
  destruct (uploaded_file_lifecycle
              (mkPicked "notes.pdf" (UploadOk "file-9" None) "2024-02-02")
              (mkUploadedFile "file-9" "notes.pdf" (Some "queued") 10
                              "2024-02-02" None None None None)
              sampleFiles sampleServer) as (H & _).
  - reflexivity.
  - repeat constructor; discriminate.
  - exact H.
Defined.

(** A job that stays [queued]: the client stops after 61 fetches. *)
Lemma polling_run_duration_witness :
  fetchCount (pollFileStatus (fun _ => Ok (statusBody "queued" 10)) "file-1") = 61.
Proof.
  destruct (polling_run_duration (fun _ => Ok (statusBody "queued" 10)) "file-1")
    as (_ & _ & Hbusy).
  apply Hbusy. intros k st Hst. injection Hst as <-. reflexivity.
Defined.

End Uploads.

(* ===================================================================== *)
(** * ChatArea.js: the composer *)
(* ===================================================================== *)

Module Composer.
Import Markdown Text.

(** The state the composer's handlers read and write. *)
Record State := mkState {
  input : Str;
  isLoading : bool;
  showPlusMenu : bool;
  activeMode : option string
}.

Definition isMode (m : string) (active : option string) : bool :=
  match active with
  | Some x => String.eqb x m
  | None => false
  end.

(** [handlePlusMenuAction(action)]: the new state, and whether the file
    selector is opened. *)
Definition handlePlusMenuAction (isThinking : bool) (action : string)
  (st : State) : State * bool :=
  if isThinking || isLoading st then (st, false)
  else
    let closed := {| input := input st; isLoading := isLoading st;
                     showPlusMenu := false; activeMode := activeMode st |} in
    if String.eqb action "deep-research"
    then ({| input := input st; isLoading := isLoading st;
             showPlusMenu := false; activeMode := Some "deep-research" |}, false)
    else if String.eqb action "add-files" then (closed, true)
    else if String.eqb action "summarize"
    then ({| input := input st; isLoading := isLoading st;
             showPlusMenu := false; activeMode := Some "summarize" |}, false)
    else (closed, false).

(** [removeActiveMode] *)
Definition removeActiveMode (st : State) : State :=
  {| input := input st; isLoading := isLoading st;
     showPlusMenu := showPlusMenu st; activeMode := None |}.

(** [handleSubmit], up to the call of [onSendMessage]: the new state and
    the message and mode passed on, if any. *)
Definition handleSubmit (isThinking : bool) (st : State)
  : State * option (Str * string) :=
  if negb (nonEmpty (trim (input st))) || isLoading st || isThinking
  then (st, None)
  else
    let message := trim (input st) in
    if isMode "summarize" (activeMode st)
    then ({| input := []; isLoading := true;
             showPlusMenu := showPlusMenu st; activeMode := None |},
          Some (message ++ str ", do summarize this", "summarize"))
    else if isMode "deep-research" (activeMode st)
    then ({| input := []; isLoading := true;
             showPlusMenu := showPlusMenu st; activeMode := None |},
          Some (message ++ str ", do deep research on this", "deep-research"))
    else ({| input := []; isLoading := true;
             showPlusMenu := showPlusMenu st; activeMode := activeMode st |},
          Some (message, "chat")).

(** [setIsLoading(false)] once [onSendMessage] has returned. *)
Definition sendReturned (st : State) : State :=
  {| input := input st; isLoading := false;
     showPlusMenu := showPlusMenu st; activeMode := activeMode st |}.

(** The words appended for a mode. *)
Definition suffixOf (mode : string) : Str :=
  if String.eqb mode "summarize" then str ", do summarize this"
  else if String.eqb mode "deep-research" then str ", do deep research on this"
  else [].

(** What the user and the application can do to the composer: type,
    open or close the plus menu, click outside it, choose a menu entry,
    remove the mode chip, submit, and the return of [onSendMessage]. *)
Inductive Action :=
| Typed (value : Str)
| TogglePlus
| ClickOutside
| Menu (action : string)
| RemoveMode
| Submit
| Returned.

Definition initial : State :=
  {| input := []; isLoading := false; showPlusMenu := false;
     activeMode := None |}.

(** One handler run, with the value of the [isThinking] prop at the time. *)
Definition step (st : State) (e : bool * Action) : State :=
  let (isThinking, a) := e in
  match a with
  | Typed value =>
      {| input := value; isLoading := isLoading st;
         showPlusMenu := showPlusMenu st; activeMode := activeMode st |}
  | TogglePlus =>
      {| input := input st; isLoading := isLoading st;
         showPlusMenu := negb (showPlusMenu st); activeMode := activeMode st |}
  | ClickOutside =>
      {| input := input st; isLoading := isLoading st;
         showPlusMenu := false; activeMode := activeMode st |}
  | Menu action => fst (handlePlusMenuAction isThinking action st)
  | RemoveMode => removeActiveMode st
  | Submit => fst (handleSubmit isThinking st)
  | Returned => sendReturned st
  end.

Definition run (events : list (bool * Action)) : State :=
  fold_left step events initial.

(** The text of the mode chip, when one is shown:
    [activeMode && (activeMode === 'summarize' ? 'Summarize' : 'Deep Research')]. *)
Definition chipText (active : option string) : option string :=
  match active with
  | None => None
  | Some m =>
      if String.eqb m "" then None
      else Some (if String.eqb m "summarize" then "Summarize" else "Deep Research")
  end.

(** The chip that names a mode sent. *)
Definition chipOf (mode : string) : option string :=
  if String.eqb mode "summarize" then Some "Summarize"
  else if String.eqb mode "deep-research" then Some "Deep Research"
  else None.

Definition modeOk (active : option string) : Prop :=
  active = None \/ active = Some "summarize" \/ active = Some "deep-research".

Lemma trim_head_message s suffix :
  nonEmpty (trim s) = true ->
  exists c rest, trim s ++ suffix = c :: rest /\ isSpace c = false.
Proof.
  intros Hne. pose proof (trim_trimmed s) as Ht. unfold trimmed in Ht.
  destruct (trim s) as [|c t]; [discriminate Hne|].
  exists c, (t ++ suffix). split; [reflexivity | tauto].
Qed.

(** X9. Submitting sends nothing and changes nothing when the input is
    blank or a send or a reply is under way. Otherwise it sends the
    trimmed input followed by the words of the active mode, so a message
    that starts with a character other than white space; the mode sent is
    chat, summarize or deep-research and nothing else; the input is
    cleared, the mode chip is used up, and until the send has returned a
    second submit sends nothing. *)
Theorem submit_sends_trimmed_once (isThinking : bool) (st : State) :
  match handleSubmit isThinking st with
  | (st', None) =>
      st' = st /\
      (nonEmpty (trim (input st)) = false \/ isLoading st = true
       \/ isThinking = true)
  | (st', Some (message, mode)) =>
      nonEmpty (trim (input st)) = true /\
      isLoading st = false /\ isThinking = false /\
      In mode ["chat"; "summarize"; "deep-research"] /\
      message = trim (input st) ++ suffixOf mode /\
      (exists c rest, message = c :: rest /\ isSpace c = false) /\
      input st' = [] /\ isLoading st' = true /\
      (mode <> "chat" -> activeMode st = Some mode /\ activeMode st' = None) /\
      (mode = "chat" -> activeMode st' = activeMode st) /\
      (forall thinking, snd (handleSubmit thinking st') = None)
  end.
Proof.
  unfold handleSubmit.
  destruct (nonEmpty (trim (input st))) eqn:Hin; cbn [negb orb];
    [|split; [reflexivity | now left]].
  destruct (isLoading st) eqn:Hl; cbn [orb];
    [split; [reflexivity | right; now left]|].
  destruct isThinking; [split; [reflexivity | right; now right]|].
  assert (Hagain : forall v m thinking,
            snd (handleSubmit thinking
                   {| input := []; isLoading := true;
                      showPlusMenu := v; activeMode := m |}) = None)
    by reflexivity.
  assert (Hplain : exists c rest, trim (input st) = c :: rest /\ isSpace c = false).
  { destruct (trim_head_message (input st) [] Hin) as (c & r & E & Hc).
    rewrite app_nil_r in E. now exists c, r. }
  destruct (activeMode st) as [m|] eqn:Hm; cbn [isMode];
    [destruct (String.eqb_spec m "summarize") as [->|Hs];
     [|destruct (String.eqb_spec m "deep-research") as [->|Hd]]|];
    repeat split; try reflexivity; try discriminate;
    try (cbn; tauto); try (now apply trim_head_message);
    try apply Hagain; try (intros H; now contradiction H);
    try (cbn [suffixOf String.eqb]; now rewrite app_nil_r);
    try exact Hplain.
Qed.

(** X10. Whatever the composer sends, the request built for it goes to
    /api/deep-research exactly when the deep-research chip was active,
    and to /api/chat otherwise, with the mode field equal to the mode
    sent (chat or summarize) and [use_rag] off exactly for summarize: the
    rag-enhanced and the fallback branch of the mode mapping are never
    reached from the composer. *)
Theorem composer_modes_reach_three_branches (isThinking : bool) (st : State)
  (messages : list App.Message) (userMessage : string) :
  match snd (handleSubmit isThinking st) with
  | None => True
  | Some (_, mode) =>
      mode <> "rag-enhanced" /\
      App.mapMode mode = (mode, negb (String.eqb mode "summarize")) /\
      App.r_url (App.buildRequest messages userMessage mode)
        = (if isMode "deep-research" (activeMode st)
           then "/api/deep-research" else "/api/chat") /\
      (mode <> "deep-research" ->
         App.getField "mode" (App.r_body (App.buildRequest messages userMessage mode))
           = App.JString mode)
  end.
Proof.
  unfold handleSubmit.
  destruct (negb (nonEmpty (trim (input st))) || isLoading st || isThinking);
    [exact I|].
  destruct (isMode "summarize" (activeMode st)) eqn:Hs; cbn [snd].
  - assert (Hd : isMode "deep-research" (activeMode st) = false).
    { destruct (activeMode st) as [m|]; [|reflexivity]. cbn in Hs.
      apply String.eqb_eq in Hs. now subst m. }
    rewrite Hd. repeat split; discriminate.
  - destruct (isMode "deep-research" (activeMode st)) eqn:Hd; cbn [snd].
    + repeat split; try discriminate. intros H. now contradiction H.
    + repeat split; discriminate.
Qed.

Lemma step_modeOk st e : modeOk (activeMode st) -> modeOk (activeMode (step st e)).
Proof.
  intros H. destruct e as [thinking a]. destruct a; cbn [step]; try exact H.
  - unfold handlePlusMenuAction.
    destruct (thinking || isLoading st); [exact H|].
    destruct (String.eqb action "deep-research"); [right; now right|].
    destruct (String.eqb action "add-files"); [exact H|].
    destruct (String.eqb action "summarize"); [right; now left | exact H].
  - now left.
  - unfold handleSubmit.
    destruct (negb (nonEmpty (trim (input st))) || isLoading st || thinking);
      [exact H|].
    destruct (isMode "summarize" (activeMode st)); [now left|].
    destruct (isMode "deep-research" (activeMode st)); [now left | exact H].
Qed.

Lemma run_modeOk events : modeOk (activeMode (run events)).
Proof.
  unfold run. assert (H : modeOk (activeMode initial)) by now left.
  revert H. generalize initial.
  induction events as [|e events IH]; intros st H; [exact H|].
  cbn [fold_left]. apply IH. now apply step_modeOk.
Qed.

(** X11. In every state the composer can reach from its initial state,
    whatever is typed, clicked or submitted and whenever the sends return,
    the active mode is null, summarize or deep-research. So the mode chip
    names the mode the next submit sends: no chip for chat, Summarize for
    summarize, Deep Research for deep-research. *)
Theorem chip_names_the_mode_sent (events : list (bool * Action))
  (isThinking : bool) :
  modeOk (activeMode (run events)) /\
  match snd (handleSubmit isThinking (run events)) with
  | None => True
  | Some (_, mode) => chipText (activeMode (run events)) = chipOf mode
  end.
Proof.
  pose proof (run_modeOk events) as H. split; [exact H|].
  unfold handleSubmit.
  destruct (negb (nonEmpty (trim (input (run events))))
            || isLoading (run events) || isThinking); [exact I|].
  destruct H as [H|[H|H]]; rewrite H; reflexivity.
Qed.

End Composer.

(* ===================================================================== *)
(** * Settings.js: what the dialog leaves alone *)
(* ===================================================================== *)

Module SettingsFrame.
Import Settings.

(** The keys the dialog owns. *)
Definition ownKeys : list string :=
  [keyChatHistory; keySharedLinks; keyLanguage].

Lemma mount_other ls key : ~ In key ownKeys ->
  snd (mount ls) !! key = ls !! key.
Proof.
  intros Hk. unfold mount, effectLanguage, effectSharedLinks,
    effectChatHistory, setItem. cbn [snd].
  rewrite !lookup_insert_ne; [reflexivity | | |];
    intros <-; apply Hk; cbn; tauto.
Qed.

Lemma act_other a c key : ~ In key ownKeys ->
  snd (act a c) !! key = snd c !! key.
Proof.
  intros Hk. destruct c as [st ls]. destruct a as [b|b|l]; cbn [act].
  - destruct (Bool.eqb b (chatHistory st)); [reflexivity|].
    unfold effectChatHistory, setItem. cbn [snd].
    rewrite lookup_insert_ne; [reflexivity|]. intros <-. apply Hk. cbn. tauto.
  - destruct (Bool.eqb b (sharedLinks st)); [reflexivity|].
    unfold effectSharedLinks, setItem. cbn [snd].
    rewrite lookup_insert_ne; [reflexivity|]. intros <-. apply Hk. cbn. tauto.
  - destruct (String.eqb l (language st)); [reflexivity|].
    unfold effectLanguage, setItem. cbn [snd].
    rewrite lookup_insert_ne; [reflexivity|]. intros <-. apply Hk. cbn. tauto.
Qed.

(** The two flags are stored as the words true and false. *)
Definition flagsStored (c : State * Storage) : Prop :=
  getItem keyChatHistory (snd c) = Some (boolToString (chatHistory (fst c))) /\
  getItem keySharedLinks (snd c) = Some (boolToString (sharedLinks (fst c))).

Lemma mount_flags ls : flagsStored (mount ls).
Proof. destruct (mount_synced ls) as (H1 & H2 & _). now split. Qed.

Lemma act_flags a c : flagsStored c -> flagsStored (act a c).
Proof.
  destruct c as [st ls]. intros (H1 & H2). cbn [fst snd] in *.
  unfold flagsStored, getItem in *.
  destruct a as [b|b|l]; cbn [act].
  - destruct (Bool.eqb b (chatHistory st)); [now split|].
    unfold effectChatHistory, setItem. cbn [fst snd chatHistory sharedLinks].
    split; [apply lookup_insert_eq|].
    rewrite lookup_insert_ne by discriminate. assumption.
  - destruct (Bool.eqb b (sharedLinks st)); [now split|].
    unfold effectSharedLinks, setItem. cbn [fst snd chatHistory sharedLinks].
    split; [|apply lookup_insert_eq].
    rewrite lookup_insert_ne by discriminate. assumption.
  - destruct (String.eqb l (language st)); [now split|].
    unfold effectLanguage, setItem. cbn [fst snd chatHistory sharedLinks].
    split; rewrite lookup_insert_ne by discriminate; assumption.
Qed.

(** ** The whole dialog, theme selector included *)

(** What the user can do in the dialog: the three settings of the
    component, and the theme selector, whose handler only calls
    [setTheme] of the theme context. *)
Inductive DialogAction :=
| Own (a : Action)
| ThemeChange (newTheme : string).

Section Theme.

(** The theme context is not among the sources: its state and what its
    [setTheme] does to that state and to localStorage are parameters. *)
Variable ThemeState : Type.
Variable setTheme : string -> ThemeState * Storage -> ThemeState * Storage.

(** [handleThemeChange] and the three setters, on the state of the
    component, the state of the theme context and localStorage. *)
Definition actDialog (d : DialogAction) (c : State * ThemeState * Storage)
  : State * ThemeState * Storage :=
  let '(st, th, ls) := c in
  match d with
  | Own a => (fst (act a (st, ls)), th, snd (act a (st, ls)))
  | ThemeChange newTheme =>
      (st, fst (setTheme newTheme (th, ls)), snd (setTheme newTheme (th, ls)))
  end.

Definition dialog (acts : list DialogAction) (th : ThemeState) (ls : Storage)
  : State * ThemeState * Storage :=
  fold_left (fun c d => actDialog d c) acts
    (fst (mount ls), th, snd (mount ls)).

(** [setTheme] never changes what is stored under [key]. *)
Definition themeLeaves (key : string) : Prop :=
  forall newTheme th ls, snd (setTheme newTheme (th, ls)) !! key = ls !! key.

Lemma actDialog_other d c key : ~ In key ownKeys -> themeLeaves key ->
  snd (actDialog d c) !! key = snd c !! key.
Proof.
  intros Hk Hth. destruct c as [[st th] ls]. destruct d as [a|newTheme];
    cbn [actDialog snd].
  - apply (act_other a (st, ls) key Hk).
  - apply Hth.
Qed.

Lemma dialog_other acts key : ~ In key ownKeys -> themeLeaves key ->
  forall c, snd (fold_left (fun c d => actDialog d c) acts c) !! key
            = snd c !! key.
Proof.
  intros Hk Hth. induction acts as [|d acts IH]; intros c; [reflexivity|].
  cbn [fold_left]. rewrite IH. now apply actDialog_other.
Qed.

Definition dialogFlags (c : State * ThemeState * Storage) : Prop :=
  flagsStored (fst (fst c), snd c).

Lemma actDialog_flags d c :
  themeLeaves keyChatHistory -> themeLeaves keySharedLinks ->
  dialogFlags c -> dialogFlags (actDialog d c).
Proof.
  intros H1 H2. destruct c as [[st th] ls]. unfold dialogFlags.
  destruct d as [a|newTheme]; cbn [actDialog fst snd].
  - intros H. pose proof (act_flags a (st, ls) H) as H'.
    now destruct (act a (st, ls)).
  - intros [Ha Hb]. unfold flagsStored, getItem in *. cbn [fst snd] in *.
    now rewrite H1, H2.
Qed.

Lemma dialog_flags acts :
  themeLeaves keyChatHistory -> themeLeaves keySharedLinks ->
  forall c, dialogFlags c ->
            dialogFlags (fold_left (fun c d => actDialog d c) acts c).
Proof.
  intros H1 H2. induction acts as [|d acts IH]; intros c Hc; [assumption|].
  cbn [fold_left]. apply IH. now apply actDialog_flags.
Qed.

(** X12. Whatever the user does in the dialog, theme selector included:
    the component itself writes only its three keys of localStorage, and
    the theme selector writes what [setTheme] of the theme context writes
    (that context is not among the sources and is a parameter here). So
    every key other than the three that [setTheme] leaves alone keeps the
    value it had, present or absent. If [setTheme] leaves the two flag
    keys alone, these always hold the word true or the word false. And
    opening the dialog a second time on what the first opening left
    changes nothing more, neither the state nor the store. *)
Theorem settings_touch_only_their_keys (ls0 : Storage) (th0 : ThemeState)
  (acts : list DialogAction) :
  (forall key, ~ In key ownKeys -> themeLeaves key ->
     snd (dialog acts th0 ls0) !! key = ls0 !! key) /\
  (themeLeaves keyChatHistory -> themeLeaves keySharedLinks ->
   exists b1 b2,
     snd (dialog acts th0 ls0) !! keyChatHistory = Some (boolToString b1) /\
     snd (dialog acts th0 ls0) !! keySharedLinks = Some (boolToString b2)) /\
  mount (snd (mount ls0)) = mount ls0.
Proof.
  split; [|split].
  - intros key Hk Hth. unfold dialog. rewrite dialog_other by assumption.
    now apply mount_other.
  - intros H1 H2.
    destruct (dialog_flags acts H1 H2 (fst (mount ls0), th0, snd (mount ls0)))
      as (Ha & Hb).
    { unfold dialogFlags. cbn [fst snd].
      pose proof (mount_flags ls0) as H. now destruct (mount ls0). }
    eexists _, _. split; [exact Ha | exact Hb].
  - pose proof (mount_synced ls0) as Hs.
    pose proof (synced_init _ Hs) as Hinit.
    destruct Hs as (H1 & H2 & H3 & _).
    unfold mount at 1. rewrite Hinit. cbv zeta.
    unfold effectLanguage, effectSharedLinks, effectChatHistory, setItem, getItem in *.
    rewrite (insert_id _ _ _ H1), (insert_id _ _ _ H2), (insert_id _ _ _ H3).
    now destruct (mount ls0).
Qed.

End Theme.

(** A theme context that keeps the theme under a key of its own. *)
Definition storedTheme (newTheme : string) (c : unit * Storage)
  : unit * Storage :=
  (tt, setItem "theme" newTheme (snd c)).

(** With such a context, a key of another component survives a session
    in which the theme and a setting are changed. *)
Lemma settings_touch_only_their_keys_witness :
  snd (dialog unit storedTheme
         [ThemeChange "light"; Own (SetChatHistory false)] tt
         {["sidebar" := "open"]}) !! "sidebar" = Some "open".
Proof.
  refine (eq_trans
            (proj1 (settings_touch_only_their_keys unit storedTheme
                      {["sidebar" := "open"]} tt
                      [ThemeChange "light"; Own (SetChatHistory false)])
               "sidebar" _ _) _).
  - cbn. intros [H|[H|[H|[]]]]; discriminate H.
  - intros newTheme th ls. unfold storedTheme, setItem. cbn [snd].
    now apply lookup_insert_ne.
  - reflexivity.
Defined.

End SettingsFrame.

(* ===================================================================== *)
(** * ThinkingIndicator.js: the typewriter loop *)
(* ===================================================================== *)

Module ThinkingIndicator.

Record State := mkState {
  displayText : string;
  charIndex : nat
}.

Definition fullText : string := "thinking...".

Definition initial : State := {| displayText := ""; charIndex := 0 |}.

(** The effect for the current [charIndex]: the delay of the timer it
    sets, and the state its callback leaves. *)
Definition tick (st : State) : nat * State :=
  if (charIndex st <? String.length fullText)%nat
  then (100, {| displayText := substring 0 (charIndex st + 1) fullText;
                charIndex := charIndex st + 1 |})
  else (1500, {| displayText := ""; charIndex := 0 |}).

(** The cursor is rendered while [charIndex < fullText.length]. *)
Definition cursor (st : State) : bool :=
  (charIndex st <? String.length fullText)%nat.

(** The state after [n] timers have fired, and the time that took. *)
Fixpoint run (n : nat) : State * nat :=
  match n with
  | 0 => (initial, 0)
  | S k =>
      let (st, elapsed) := run k in
      let (delay, st') := tick st in
      (st', elapsed + delay)
  end.

(** The number of timers of one loop, and its duration. *)
Definition period : nat := String.length fullText + 1.
Definition loopTime : nat := 100 * String.length fullText + 1500.

Lemma succ_mod_small n m : 0 < m -> n mod m + 1 < m ->
  (S n) mod m = n mod m + 1 /\ (S n) / m = n / m.
Proof.
  intros Hm Hlt.
  assert (E : S n = m * (n / m) + (n mod m + 1))
    by (pose proof (Nat.div_mod_eq n m); lia).
  assert (Hne : m <> 0) by lia.
  symmetry in E. pose proof (Nat.div_mod_unique m (n / m) (S n / m)
    (n mod m + 1) (S n mod m) Hlt (Nat.mod_upper_bound (S n) m Hne)) as U.
  rewrite E in U. specialize (U (Nat.div_mod_eq (S n) m)). lia.
Qed.

Lemma succ_mod_wrap n m : 0 < m -> n mod m + 1 = m ->
  (S n) mod m = 0 /\ (S n) / m = n / m + 1.
Proof.
  intros Hm Hlt.
  assert (E : S n = m * (n / m + 1) + 0)
    by (pose proof (Nat.div_mod_eq n m); lia).
  assert (Hne : m <> 0) by lia.
  symmetry in E. pose proof (Nat.div_mod_unique m (n / m + 1) (S n / m)
    0 (S n mod m) Hm (Nat.mod_upper_bound (S n) m Hne)) as U.
  rewrite E in U. specialize (U (Nat.div_mod_eq (S n) m)). lia.
Qed.

Lemma substring_zero s : substring 0 0 s = "".
Proof. now destruct s. Qed.

Lemma run_closed n :
  run n = ({| displayText := substring 0 (n mod period) fullText;
              charIndex := n mod period |},
           loopTime * (n / period) + 100 * (n mod period)).
Proof.
  assert (Hp : 0 < period) by (unfold period; lia).
  induction n as [|n IH].
  - cbn [run]. rewrite Nat.Div0.mod_0_l, Nat.Div0.div_0_l, substring_zero.
    unfold initial. f_equal; lia.
  - cbn [run]. rewrite IH. unfold tick. cbn [charIndex].
    pose proof (Nat.mod_upper_bound n period ltac:(lia)) as Hup.
    destruct (Nat.ltb_spec (n mod period) (String.length fullText)) as [Hlt|Hge].
    + destruct (succ_mod_small n period Hp) as [-> ->];
        [unfold period in *; lia|]. f_equal; lia.
    + destruct (succ_mod_wrap n period Hp) as [-> ->];
        [unfold period in *; lia|]. rewrite substring_zero. f_equal.
      assert (n mod period = String.length fullText) by (unfold period in *; lia).
      unfold loopTime. lia.
Qed.

(** X13. The indicator types its text one character every 100 ms and
    starts again 1500 ms after the last one. After n timers the text shown
    is the first (n mod 12) characters of thinking..., and
    2600 * (n / 12) + 100 * (n mod 12) milliseconds have passed; the
    cursor is hidden exactly while the whole text is shown; and the
    indicator is back in the same state every twelve timers, 2600 ms
    later. *)
Theorem typewriter_loops (n : nat) :
  fst (run n) = {| displayText := substring 0 (n mod 12) fullText;
                   charIndex := n mod 12 |} /\
  String.prefix (displayText (fst (run n))) fullText = true /\
  snd (run n) = 2600 * (n / 12) + 100 * (n mod 12) /\
  (cursor (fst (run n)) = false <-> displayText (fst (run n)) = fullText) /\
  fst (run (n + 12)) = fst (run n) /\
  snd (run (n + 12)) = snd (run n) + 2600.
Proof.
  rewrite !run_closed. change period with 12. change loopTime with 2600.
  cbn [fst snd displayText charIndex].
  replace (n + 12) with (n + 1 * 12) by lia.
  rewrite Nat.Div0.mod_add, Nat.div_add by lia.
  assert (Hup : n mod 12 < 12) by (apply Nat.mod_upper_bound; lia).
  generalize dependent (n mod 12). intros k Hup.
  repeat split; try lia.
  - do 12 (destruct k as [|k]; [reflexivity|]). lia.
  - unfold cursor. cbn [charIndex]. intros H.
    apply Nat.ltb_ge in H. change (String.length fullText) with 11 in H.
    replace k with 11 by lia. reflexivity.
  - unfold cursor. cbn [charIndex]. intros H. apply Nat.ltb_ge.
    change (String.length fullText) with 11.
    do 11 (destruct k as [|k]; [discriminate H|]). lia.
Qed.

End ThinkingIndicator.

(* ===================================================================== *)
(** * App.js: the title taken from the first message *)
(* ===================================================================== *)

Module Title.
Import Markdown Text.

Definition stopWords : list Str :=
  map str ["why"; "what"; "who"; "when"; "where"; "how"; "is"; "are"; "was";
           "were"; "the"; "a"; "an"; "and"; "or"; "but"; "in"; "on"; "at";
           "to"; "for"; "of"; "with"; "by"; "from"; "as"; "can"; "could";
           "should"; "would"; "will"; "this"; "that"; "these"; "those"].

Definition space : N := 32.

(** [message.replace(/[^\w\s]/g, ' ')] *)
Definition replacePunct (s : Str) : Str :=
  map (fun c => if isWordChar c || isSpace c then c else space) s.

Definition isUpper (c : N) : bool := ((65 <=? c) && (c <=? 90))%N.
Definition isLower (c : N) : bool := ((97 <=? c) && (c <=? 122))%N.

(** [toLowerCase] and [toUpperCase], as they act on the code units they
    are applied to here: [replacePunct] leaves only the characters of
    [\w] and white space, and only the Latin capitals among them have
    another lower case; the character that is upper-cased is the first
    of a word, so a character of [\w]. *)
Definition lowerUnit (c : N) : N := if isUpper c then (c + 32)%N else c.
Definition upperUnit (c : N) : N := if isLower c then (c - 32)%N else c.
Definition toLowerCase (s : Str) : Str := map lowerUnit s.

(** [s.split(/\s+/)]: the fields between the runs of white space;
    [afterSpace] says that the character before [s] was white space. *)
Fixpoint splitSpaces (afterSpace : bool) (s : Str) : list Str :=
  match s with
  | [] => [[]]
  | c :: s' =>
      if isSpace c
      then (if afterSpace then splitSpaces true s'
            else [] :: splitSpaces true s')
      else match splitSpaces false s' with
           | w :: ws => (c :: w) :: ws
           | [] => [[c]]
           end
  end.

(** [word.length >= 3 && !stopWords.includes(word)] *)
Definition keep (word : Str) : bool :=
  (3 <=? length word)%nat && negb (bool_decide (word ∈ stopWords)).

(** [words.join(' ')] *)
Fixpoint join (words : list Str) : Str :=
  match words with
  | [] => []
  | [w] => w
  | w :: ws => w ++ space :: join ws
  end.

(** [title.charAt(0).toUpperCase() + title.slice(1)] *)
Definition capitalize (title : Str) : Str :=
  match title with
  | [] => []
  | c :: t => upperUnit c :: t
  end.

Definition cleaned (message : Str) : Str :=
  trim (toLowerCase (replacePunct message)).

Definition titleWords (message : Str) : list Str :=
  firstn 5 (List.filter keep (splitSpaces false (cleaned message))).

Definition extractTitleFromMessage (message : Str) : Str :=
  match titleWords message with
  | [] => trim (firstn 30 message)
  | words => capitalize (join words)
  end.

(** The title a chat is created with. *)
Definition defaultTitle : Str := str "New Chat".

(** A character of a word of the title: a digit, a small letter or the
    underscore. *)
Definition isTitleChar (c : N) : bool := isWordChar c && negb (isUpper c).

Example title_of_question :
  extractTitleFromMessage (str "What is the capital of France?")
  = str "Capital france".
Proof. vm_compute. reflexivity. Qed.

Example title_of_punctuation :
  extractTitleFromMessage (str "  ?!  ") = str "?!".
Proof. vm_compute. reflexivity. Qed.

(** ** Characters *)

Ltac units :=
  unfold isTitleChar, isSpace, isWordChar, isUpper, isLower, space in *;
  repeat first
    [ rewrite negb_true_iff in * | rewrite negb_false_iff in *
    | rewrite orb_true_iff in * | rewrite andb_true_iff in *
    | rewrite orb_false_iff in * | rewrite andb_false_iff in *
    | rewrite N.leb_le in * | rewrite N.eqb_eq in *
    | rewrite N.leb_gt in * | rewrite N.eqb_neq in * ];
  repeat match goal with H : _ \/ _ |- _ => destruct H end;
  lia.

Lemma isSpace_not_word c : isSpace c = true -> isWordChar c = false.
Proof. intros H. apply not_true_is_false. intros Hw. units. Qed.

Lemma cleaned_unit c :
  let d := lowerUnit (if isWordChar c || isSpace c then c else space) in
  isSpace d = true \/ isTitleChar d = true.
Proof.
  cbv zeta. unfold lowerUnit.
  destruct (isWordChar c) eqn:Hw; cbn [orb].
  - right. destruct (isUpper c) eqn:Hu; units.
  - left. destruct (isSpace c) eqn:Hs.
    + destruct (isUpper c) eqn:Hu; [exfalso; units | exact Hs].
    + reflexivity.
Qed.

Definition cleanChar (c : N) : Prop := isSpace c = true \/ isTitleChar c = true.

Lemma cleaned_chars message : Forall cleanChar (cleaned message).
Proof.
  unfold cleaned.
  destruct (trim_split (toLowerCase (replacePunct message)))
    as (pre & post & Hs & _ & _).
  assert (H : Forall cleanChar (toLowerCase (replacePunct message))).
  { unfold toLowerCase, replacePunct. rewrite map_map.
    apply Forall_forall. intros d Hd. apply list_elem_of_In, in_map_iff in Hd.
    destruct Hd as (c & <- & _). apply cleaned_unit. }
  rewrite Hs in H. apply Forall_app in H as [_ H].
  now apply Forall_app in H as [H _].
Qed.

(** ** Splitting *)

Lemma splitSpaces_cons b s : exists w ws, splitSpaces b s = w :: ws.
Proof.
  revert b. induction s as [|c s IH]; intros b; [now exists [], []|].
  cbn [splitSpaces]. destruct (isSpace c).
  - destruct b; [apply IH | eauto].
  - destruct (IH false) as (w & ws & ->). eauto.
Qed.

Lemma splitSpaces_chars (P : N -> Prop) s : Forall P s -> forall b,
  Forall (Forall (fun c => P c /\ isSpace c = false)) (splitSpaces b s).
Proof.
  induction 1 as [|c s Hc Hs IH]; intros b.
  - repeat constructor.
  - cbn [splitSpaces]. destruct (isSpace c) eqn:Hsp.
    + destruct b; [apply IH | constructor; [constructor | apply IH]].
    + specialize (IH false). destruct (splitSpaces false s) as [|w ws].
      * repeat constructor; assumption.
      * inversion IH; subst. constructor; [|assumption].
        constructor; [split|]; assumption.
Qed.

(** A word followed by white space or by the end is the first field. *)
Lemma splitSpaces_word w : forall l,
  w <> [] -> Forall (fun c => isSpace c = false) w ->
  (l = [] \/ exists sp r, l = sp :: r /\ isSpace sp = true) ->
  exists ws, splitSpaces false (w ++ l) = w :: ws.
Proof.
  induction w as [|c w IH]; intros l Hne Hw Hl; [contradiction|].
  inversion Hw as [|? ? Hc Hw']; subst. cbn [app splitSpaces]. rewrite Hc.
  destruct w as [|d w].
  - cbn [app]. destruct Hl as [->|(sp & r & -> & Hsp)].
    + cbn. now exists [].
    + cbn [splitSpaces]. rewrite Hsp. eauto.
  - destruct (IH l ltac:(discriminate) Hw' Hl) as (ws & ->). eauto.
Qed.

(** ** Joining *)

Definition joinChar (c : N) : Prop := c = space \/ isTitleChar c = true.

Lemma join_chars words :
  Forall (Forall (fun c => isTitleChar c = true)) words ->
  Forall joinChar (join words).
Proof.
  induction 1 as [|w ws Hw Hws IH]; [constructor|].
  assert (Hw' : Forall joinChar w).
  { eapply Forall_impl; [exact Hw|]. intros c Hc. now right. }
  cbn [join]. destruct ws as [|w2 ws]; [exact Hw'|].
  apply Forall_app. split; [exact Hw'|]. constructor; [now left | exact IH].
Qed.

Lemma join_head c w ws : exists t, join ((c :: w) :: ws) = c :: t.
Proof. cbn [join]. destruct ws; cbn; eauto. Qed.

Lemma last_app_cons (l : Str) x l' d :
  List.last (l ++ x :: l') d = List.last (x :: l') d.
Proof.
  induction l as [|a l IH]; [reflexivity|].
  cbn [app]. change (List.last (a :: l ++ x :: l') d)
    with (match l ++ x :: l' with [] => a | _ => List.last (l ++ x :: l') d end).
  destruct (l ++ x :: l') eqn:E; [now destruct l | exact IH].
Qed.

Lemma last_Forall (P : N -> Prop) (l : Str) d :
  Forall P l -> l <> [] -> P (List.last l d).
Proof.
  induction 1 as [|a l Ha Hl IH]; intros Hne; [contradiction|].
  destruct l as [|b l]; [exact Ha|]. apply IH. discriminate.
Qed.

(** The last character of a joined title is one of a word. *)
Lemma join_last (P : N -> Prop) words d :
  words <> [] -> Forall (fun w => w <> [] /\ Forall P w) words ->
  P (List.last (join words) d).
Proof.
  induction words as [|w ws IH]; intros Hne Hws; [contradiction|].
  inversion Hws as [|? ? [Hw HP] Hws']; subst.
  destruct ws as [|w2 ws]; [now apply last_Forall|].
  change (join (w :: w2 :: ws)) with (w ++ space :: join (w2 :: ws)).
  rewrite last_app_cons.
  inversion Hws' as [|? ? [Hw2 _] _]; subst.
  destruct w2 as [|c w2]; [contradiction|].
  destruct (join_head c w2 ws) as (t & E). rewrite E.
  change (List.last (space :: c :: t) d) with (List.last (c :: t) d).
  rewrite <- E. apply IH; [discriminate | exact Hws'].
Qed.

(** ** The words of a title *)

Definition wordOk (w : Str) : Prop :=
  3 <= length w /\ (w ∉ stopWords) /\ Forall (fun c => isTitleChar c = true) w.

Lemma keep_true w : keep w = true -> 3 <= length w /\ (w ∉ stopWords).
Proof.
  unfold keep. intros H. apply andb_true_iff in H as [H1 H2].
  apply Nat.leb_le in H1. apply negb_true_iff, bool_decide_eq_false in H2.
  now split.
Qed.

Lemma titleWords_ok message :
  Forall wordOk (titleWords message) /\ length (titleWords message) <= 5.
Proof.
  unfold titleWords. split; [|rewrite length_firstn; lia].
  apply Forall_take, Forall_forall. intros w Hw.
  apply list_elem_of_In, filter_In in Hw as [Hin Hk].
  apply keep_true in Hk as [Hlen Hstop].
  pose proof (splitSpaces_chars cleanChar _ (cleaned_chars message) false) as H.
  rewrite Forall_forall in H. apply list_elem_of_In in Hin.
  specialize (H w Hin). repeat split; try assumption.
  eapply Forall_impl; [exact H|]. intros c [[Hs|Ht] Hn]; [congruence | exact Ht].
Qed.

Lemma wordOk_nonempty w : wordOk w -> w <> [].
Proof. intros (H & _) ->. cbn in H. lia. Qed.

Lemma titleChar_not_space c : isTitleChar c = true -> isSpace c = false.
Proof.
  intros H. destruct (isSpace c) eqn:Hs; [|reflexivity].
  apply isSpace_not_word in Hs. unfold isTitleChar in H.
  rewrite Hs in H. discriminate.
Qed.

Lemma upperUnit_not_space c : isTitleChar c = true -> isSpace (upperUnit c) = false.
Proof.
  intros H. apply not_true_is_false. intros Hs. unfold upperUnit in Hs.
  destruct (isLower c) eqn:Hl; units.
Qed.

Lemma upperUnit_not_lower c : isTitleChar c = true -> isLower (upperUnit c) = false.
Proof.
  intros H. apply not_true_is_false. intros Hs. unfold upperUnit in Hs.
  destruct (isLower c) eqn:Hl; units.
Qed.

(** The title built from words: its first character and the others. *)
Lemma capitalize_join w ws :
  Forall wordOk (w :: ws) ->
  exists c rest,
    capitalize (join (w :: ws)) = upperUnit c :: rest /\
    join (w :: ws) = c :: rest /\
    isTitleChar c = true /\ Forall joinChar rest.
Proof.
  intros H. pose proof (join_chars (w :: ws)) as Hj.
  assert (Hc : Forall (Forall (fun c => isTitleChar c = true)) (w :: ws)).
  { eapply Forall_impl; [exact H|]. now intros x (_ & _ & Hx). }
  specialize (Hj Hc). inversion H as [|? ? Hw _]; subst.
  pose proof (wordOk_nonempty _ Hw) as Hne. destruct w as [|c w]; [contradiction|].
  destruct (join_head c w ws) as (t & E). rewrite E in *.
  exists c, t. inversion Hj; subst. repeat split; try assumption.
  destruct Hw as (_ & _ & Hw). now inversion Hw.
Qed.

Lemma extractTitle_words message w ws :
  titleWords message = w :: ws ->
  extractTitleFromMessage message = capitalize (join (w :: ws)).
Proof. unfold extractTitleFromMessage. now intros ->. Qed.

Lemma extractTitle_fallback message :
  titleWords message = [] ->
  extractTitleFromMessage message = trim (firstn 30 message).
Proof. unfold extractTitleFromMessage. now intros ->. Qed.

(** ** The first word of a message *)

Lemma clean_space c : isSpace c = true ->
  lowerUnit (if isWordChar c || isSpace c then c else space) = c.
Proof.
  intros H. rewrite H, orb_true_r. unfold lowerUnit.
  destruct (isUpper c) eqn:Hu; [exfalso; units | reflexivity].
Qed.

Lemma clean_word c : isWordChar c = true ->
  lowerUnit (if isWordChar c || isSpace c then c else space) = lowerUnit c /\
  isTitleChar (lowerUnit c) = true.
Proof.
  intros H. rewrite H. cbn [orb]. split; [reflexivity|].
  unfold lowerUnit. destruct (isUpper c) eqn:Hu; units.
Qed.

Lemma clean_app a b :
  toLowerCase (replacePunct (a ++ b))
  = toLowerCase (replacePunct a) ++ toLowerCase (replacePunct b).
Proof. unfold toLowerCase, replacePunct. now rewrite !map_app. Qed.

Lemma clean_spaces pre : forallb isSpace pre = true ->
  toLowerCase (replacePunct pre) = pre.
Proof.
  induction pre as [|c pre IH]; [reflexivity|]. cbn [forallb].
  intros H. apply andb_true_iff in H as [Hc Hpre].
  unfold toLowerCase, replacePunct in *. cbn [map].
  rewrite clean_space by assumption. now rewrite IH.
Qed.

Lemma clean_wordchars w : forallb isWordChar w = true ->
  toLowerCase (replacePunct w) = toLowerCase w /\
  Forall (fun c => isTitleChar c = true) (toLowerCase w).
Proof.
  induction w as [|c w IH]; [split; [reflexivity | constructor]|].
  cbn [forallb]. intros H. apply andb_true_iff in H as [Hc Hw].
  destruct (IH Hw) as [E F]. destruct (clean_word c Hc) as [Ec Fc].
  unfold toLowerCase, replacePunct in *. cbn [map]. rewrite Ec, E.
  split; [reflexivity | now constructor].
Qed.

Lemma trimStart_spaces pre x : forallb isSpace pre = true ->
  trimStart (pre ++ x) = trimStart x.
Proof.
  induction pre as [|c pre IH]; [reflexivity|]. cbn [forallb app trimStart].
  intros H. apply andb_true_iff in H as [-> Hpre]. now apply IH.
Qed.

(** Trimming the end keeps a word at the front, and what follows it is
    a prefix of what followed it before. *)
Lemma trimEnd_word w y :
  Forall (fun c => isSpace c = false) w ->
  exists l post, trimEnd (w ++ y) = w ++ l /\ y = l ++ post.
Proof.
  intros Hw. destruct (trimEnd_split (w ++ y)) as (post & Hs & Hpost).
  symmetry in Hs. apply app_eq_app in Hs as (l & [[E1 E2]|[E1 E2]]).
  - exists l, post. split; assumption.
  - (* the trimmed string is no longer than the word *)
    assert (l = []) as ->.
    { destruct l as [|c l]; [reflexivity|]. exfalso.
      assert (Hl : Forall (fun c => isSpace c = false) (c :: l)).
      { rewrite E1 in Hw. now apply Forall_app in Hw as [_ Hw]. }
      inversion Hl as [|? ? Hc _]; subst. cbn in Hpost.
      rewrite Hc in Hpost. discriminate. }
    rewrite app_nil_r in E1. cbn in E2. subst post.
    exists [], y. rewrite app_nil_r. split; [now symmetry | reflexivity].
Qed.

Lemma first_word pre w sp rest :
  forallb isSpace pre = true -> w <> [] -> forallb isWordChar w = true ->
  isSpace sp = true ->
  exists ws,
    splitSpaces false (cleaned (pre ++ w ++ sp :: rest)) = toLowerCase w :: ws.
Proof.
  intros Hpre Hne Hw Hsp. unfold cleaned.
  rewrite clean_app, (clean_spaces pre Hpre), clean_app.
  destruct (clean_wordchars w Hw) as [-> Hlow].
  assert (Hns : Forall (fun c => isSpace c = false) (toLowerCase w)).
  { eapply Forall_impl; [exact Hlow|]. apply titleChar_not_space. }
  assert (Hne' : toLowerCase w <> []) by (destruct w; [contradiction | discriminate]).
  unfold trim. rewrite trimStart_spaces by assumption.
  rewrite trimStart_fixed.
  2:{ destruct (toLowerCase w) as [|c t]; [contradiction|].
      cbn. now inversion Hns. }
  destruct (trimEnd_word (toLowerCase w)
              (toLowerCase (replacePunct (sp :: rest))) Hns)
    as (l & post & -> & Hy).
  apply splitSpaces_word; try assumption.
  destruct l as [|c l]; [now left|]. right. exists c, l. split; [reflexivity|].
  unfold toLowerCase, replacePunct in Hy. cbn [map app] in Hy.
  injection Hy as Hc _. rewrite clean_space in Hc by assumption. now subst c.
Qed.

(** A message that starts, after white space, with a word that is kept
    gets its title from its words. *)
Lemma first_word_kept pre w sp rest :
  forallb isSpace pre = true -> w <> [] -> forallb isWordChar w = true ->
  isSpace sp = true -> keep (toLowerCase w) = true ->
  titleWords (pre ++ w ++ sp :: rest) <> [].
Proof.
  intros Hpre Hne Hw Hsp Hk.
  destruct (first_word pre w sp rest Hpre Hne Hw Hsp) as (ws & E).
  unfold titleWords. rewrite E. cbn [List.filter]. rewrite Hk. discriminate.
Qed.

Lemma title_trimmed message : trimmed (extractTitleFromMessage message).
Proof.
  destruct (titleWords message) as [|w ws] eqn:E.
  - rewrite extractTitle_fallback by assumption. apply trim_trimmed.
  - rewrite (extractTitle_words _ _ _ E).
    pose proof (titleWords_ok message) as [Hok _]. rewrite E in Hok.
    destruct (capitalize_join w ws Hok) as (c & rest & -> & Hj & Hc & Hrest).
    unfold trimmed. split; [now apply upperUnit_not_space|].
    destruct rest as [|d rest]; [now apply upperUnit_not_space|].
    change (List.last (upperUnit c :: d :: rest) (upperUnit c))
      with (List.last (c :: d :: rest) (upperUnit c)).
    rewrite <- Hj.
    apply (join_last (fun c => isSpace c = false)); [discriminate|].
    eapply Forall_impl; [exact Hok|]. intros x Hx. split.
    + now apply wordOk_nonempty.
    + destruct Hx as (_ & _ & Hx). eapply Forall_impl; [exact Hx|].
      apply titleChar_not_space.
Qed.

Lemma title_not_default message :
  extractTitleFromMessage message <> defaultTitle.
Proof.
  destruct (titleWords message) as [|w ws] eqn:E.
  - rewrite extractTitle_fallback by assumption. intros Ht.
    destruct (trim_split (firstn 30 message)) as (pre & post & Hs & Hpre & _).
    rewrite Ht in Hs.
    assert (Hm : message = pre ++ str "New" ++ space
                             :: (str "Chat" ++ post ++ skipn 30 message)).
    { rewrite <- (firstn_skipn 30 message) at 1. rewrite Hs.
      unfold defaultTitle.
      change (str "New Chat") with (str "New" ++ space :: str "Chat").
      now rewrite <- !app_assoc. }
    rewrite Hm in E. revert E.
    apply first_word_kept; try reflexivity; [assumption | discriminate].
  - rewrite (extractTitle_words _ _ _ E).
    pose proof (titleWords_ok message) as [Hok _]. rewrite E in Hok.
    destruct (capitalize_join w ws Hok) as (c & rest & -> & _ & _ & Hrest).
    intros Ht. unfold defaultTitle in Ht. cbn in Ht.
    injection Ht as _ Hr. subst rest.
    do 3 (inversion Hrest as [|? ? _ Hrest']; subst; clear Hrest;
          rename Hrest' into Hrest).
    inversion Hrest as [|? ? [Hc|Hc] _]; subst; discriminate.
Qed.

(** X14. The title taken from a message is never the default title
    New Chat, and never has white space at either end. Either no word of
    the message is kept, and the title is the trimmed first 30 characters;
    or the title is the first one to five kept words joined by single
    spaces: each has three or more characters, all of them digits, small
    letters or underscores, none is a stop word, and the first character
    of the title is the upper case of the first word's. *)
Theorem title_is_words_or_prefix (message : Str) :
  extractTitleFromMessage message <> defaultTitle /\
  trimmed (extractTitleFromMessage message) /\
  ((titleWords message = [] /\
    extractTitleFromMessage message = trim (firstn 30 message) /\
    length (extractTitleFromMessage message) <= 30)
   \/
   (exists c rest,
      1 <= length (titleWords message) <= 5 /\
      Forall wordOk (titleWords message) /\
      join (titleWords message) = c :: rest /\
      extractTitleFromMessage message = upperUnit c :: rest /\
      isLower (upperUnit c) = false /\
      Forall joinChar rest)).
Proof.
  split; [apply title_not_default|]. split; [apply title_trimmed|].
  pose proof (titleWords_ok message) as [Hok Hlen].
  destruct (titleWords message) as [|w ws] eqn:E.
  - left. rewrite extractTitle_fallback by assumption.
    split; [reflexivity|]. split; [reflexivity|].
    etransitivity; [apply trim_length|]. rewrite length_firstn. lia.
  - right. rewrite (extractTitle_words _ _ _ E).
    destruct (capitalize_join w ws Hok) as (c & rest & Hcap & Hj & Hc & Hrest).
    exists c, rest. repeat split; try assumption.
    + cbn [length]. lia.
    + now apply upperUnit_not_lower.
Qed.

End Title.

(* ===================================================================== *)
(** * App.js: the list of chats and the conversation shown *)
(* ===================================================================== *)

Module Chats.
Import Markdown Text Title.

(** A message of the conversation shown; its content is a JavaScript
    string, so the list of its UTF-16 code units. *)
Record Message := mkMessage {
  m_role : string;
  m_content : Str;
  m_id : Z
}.

(** A chat id: [Date.now()] for a chat created here, and for a loaded
    one [parseInt(chat.id) || chat.id], a number or what the backend
    sent. *)
Inductive ChatId :=
| NumId (n : Z)
| StrId (s : string).

(** [a === b] on ids *)
Definition idEqb (a b : ChatId) : bool :=
  match a, b with
  | NumId x, NumId y => Z.eqb x y
  | StrId x, StrId y => String.eqb x y
  | _, _ => false
  end.

Record Chat := mkChat {
  c_id : ChatId;
  c_title : Str;
  c_messages : list Message
}.

(** The state of [App] that the chat handlers read and write;
    [currentChatId] is [None] for [null]. *)
Record State := mkState {
  chats : list Chat;
  currentChatId : option ChatId;
  messages : list Message;
  isThinking : bool;
  chatsLoaded : bool
}.

Definition initial : State :=
  {| chats := []; currentChatId := None; messages := [];
     isThinking := false; chatsLoaded := false |}.

(** [c.id === currentChatId] *)
Definition isCurrent (current : option ChatId) (c : Chat) : bool :=
  match current with
  | Some id => idEqb (c_id c) id
  | None => false
  end.

(** [currentChatId === chatId] *)
Definition sameId (current : option ChatId) (chatId : ChatId) : bool :=
  match current with
  | Some id => idEqb id chatId
  | None => false
  end.

(** [if (currentChatId)]: [null], [0] and the empty string are falsy. *)
Definition truthyId (current : option ChatId) : bool :=
  match current with
  | None => false
  | Some (NumId n) => negb (Z.eqb n 0)
  | Some (StrId s) => negb (String.eqb s "")
  end.

(** [chats.find(c => c.id === currentChatId)] *)
Definition findChat (current : option ChatId) (l : list Chat) : option Chat :=
  List.find (isCurrent current) l.

(** [chats.map(c => c.id === currentChatId ? f(c) : c)] *)
Definition mapCurrent (current : option ChatId) (f : Chat -> Chat)
  (l : list Chat) : list Chat :=
  map (fun c => if isCurrent current c then f c else c) l.

(** What [loadChatsFromBackend] got: the formatted chats of a response
    that is ok, a response that is not ok, or an exception. *)
Inductive LoadResult :=
| Loaded (formatted : list (ChatId * Str))
| LoadNotOk
| LoadThrew.

Definition loadChatsFromBackend (r : LoadResult) (st : State) : State :=
  match r with
  | Loaded formatted =>
      {| chats := map (fun c => {| c_id := fst c; c_title := snd c;
                                   c_messages := [] |}) formatted;
         currentChatId := currentChatId st; messages := messages st;
         isThinking := isThinking st; chatsLoaded := true |}
  | LoadNotOk => st
  | LoadThrew =>
      {| chats := chats st; currentChatId := currentChatId st;
         messages := messages st; isThinking := isThinking st;
         chatsLoaded := true |}
  end.

Definition createNewChat (now : Z) (st : State) : State :=
  {| chats := {| c_id := NumId now; c_title := defaultTitle;
                 c_messages := [] |} :: chats st;
     currentChatId := Some (NumId now); messages := [];
     isThinking := isThinking st; chatsLoaded := chatsLoaded st |}.

(** [selectChat(chatId)]; [fetched] is [chatData.messages || []] of a
    response that is ok, [None] when the fetch failed or was not ok. *)
Definition selectChat (chatId : ChatId) (fetched : option (list Message))
  (st : State) : State :=
  {| chats := chats st; currentChatId := Some chatId;
     messages := match fetched with
                 | Some ms => ms
                 | None => match findChat (Some chatId) (chats st) with
                           | Some chat => c_messages chat
                           | None => messages st
                           end
                 end;
     isThinking := isThinking st; chatsLoaded := chatsLoaded st |}.

Definition deleteChat (chatId : ChatId) (st : State) : State :=
  let kept := List.filter (fun c => negb (idEqb (c_id c) chatId)) (chats st) in
  if sameId (currentChatId st) chatId
  then {| chats := kept; currentChatId := None; messages := [];
          isThinking := isThinking st; chatsLoaded := chatsLoaded st |}
  else {| chats := kept; currentChatId := currentChatId st;
          messages := messages st;
          isThinking := isThinking st; chatsLoaded := chatsLoaded st |}.

Definition updateChatTitle (chatId : ChatId) (title : Str) (st : State) : State :=
  {| chats := mapCurrent (Some chatId)
                (fun c => {| c_id := c_id c; c_title := title;
                             c_messages := c_messages c |}) (chats st);
     currentChatId := currentChatId st; messages := messages st;
     isThinking := isThinking st; chatsLoaded := chatsLoaded st |}.

(** The effect "create new chat if no chats exist after loading". *)
Definition ensureChat (now : Z) (st : State) : State :=
  if chatsLoaded st && (length (chats st) =? 0)%nat
  then createNewChat now st else st.

(** The condition of the automatic renaming in [addMessage]. *)
Definition renames (chat : Chat) (userMessage : Str) : bool :=
  (bool_decide (c_title chat = defaultTitle)
   || (length (c_messages chat) =? 0)%nat)
  && (0 <? length userMessage)%nat.

(** What the second half of [addMessage] still has of the first:
    [currentChatId], [updatedMessages] and [updatedChats]. *)
Record Pending := mkPending {
  p_current : option ChatId;
  p_messages : list Message;
  p_chats : list Chat
}.

(** [addMessage] up to the [fetch]. The second component is [None] when
    [chat.title] is read of a chat that [find] did not find: the
    TypeError leaves [addMessage] there. *)
Definition addMessageStart (userMessage : Str) (now : Z) (st : State)
  : State * option Pending :=
  let updatedMessages :=
    messages st ++ [{| m_role := "user"; m_content := userMessage;
                       m_id := now |}] in
  if truthyId (currentChatId st)
  then match findChat (currentChatId st) (chats st) with
       | None =>
           ({| chats := chats st; currentChatId := currentChatId st;
               messages := updatedMessages; isThinking := true;
               chatsLoaded := chatsLoaded st |}, None)
       | Some chat =>
           let newTitle :=
             if renames chat userMessage
             then extractTitleFromMessage userMessage
             else c_title chat in
           let updatedChats :=
             mapCurrent (currentChatId st)
               (fun c => {| c_id := c_id c; c_title := newTitle;
                            c_messages := updatedMessages |}) (chats st) in
           ({| chats := updatedChats; currentChatId := currentChatId st;
               messages := updatedMessages; isThinking := true;
               chatsLoaded := chatsLoaded st |},
            Some {| p_current := currentChatId st;
                    p_messages := updatedMessages;
                    p_chats := updatedChats |})
       end
  else ({| chats := chats st; currentChatId := currentChatId st;
           messages := updatedMessages; isThinking := true;
           chatsLoaded := chatsLoaded st |},
        Some {| p_current := currentChatId st;
                p_messages := updatedMessages;
                p_chats := chats st |}).

(** How the request ended: with a reply text, or in the [catch] block
    with the message of the error. *)
Inductive Outcome :=
| Replied (responseText : Str)
| Threw (message : Str).

Definition assistantContent (o : Outcome) : Str :=
  match o with
  | Replied responseText => responseText
  | Threw message =>
      str "Error: " ++ message
      ++ str ". Please make sure the backend server is running on port 5000."
  end.

(** The body of the request of [saveChatToBackend]. *)
Record SaveRequest := mkSaveRequest {
  sv_id : ChatId;
  sv_title : Str;
  sv_messages : list Message
}.

(** [title || 'New Chat'] *)
Definition titleOrDefault (title : Str) : Str :=
  if nonEmpty title then title else defaultTitle.

(** [addMessage] after the [fetch], in the state [st] of that time: the
    [try] and the [catch] branch set the same, with another content. *)
Definition addMessageFinish (p : Pending) (o : Outcome) (now : Z) (st : State)
  : State * option SaveRequest :=
  let finalMessages :=
    p_messages p ++ [{| m_role := "assistant";
                        m_content := assistantContent o;
                        m_id := (now + 1)%Z |}] in
  match p_current p with
  | Some id =>
      if truthyId (p_current p)
      then
        let chatTitle :=
          match findChat (p_current p) (p_chats p) with
          | Some currentChat => titleOrDefault (c_title currentChat)
          | None => defaultTitle
          end in
        ({| chats := mapCurrent (p_current p)
                       (fun c => {| c_id := c_id c; c_title := c_title c;
                                    c_messages := finalMessages |}) (p_chats p);
            currentChatId := currentChatId st; messages := finalMessages;
            isThinking := false; chatsLoaded := chatsLoaded st |},
         Some {| sv_id := id; sv_title := titleOrDefault chatTitle;
                 sv_messages := finalMessages |})
      else ({| chats := chats st; currentChatId := currentChatId st;
               messages := finalMessages; isThinking := false;
               chatsLoaded := chatsLoaded st |}, None)
  | None => ({| chats := chats st; currentChatId := currentChatId st;
                messages := finalMessages; isThinking := false;
                chatsLoaded := chatsLoaded st |}, None)
  end.

(** The callback of the debounced save, 500 ms after the last change:
    the effect sets the timer only when a chat is current, the
    conversation is not empty and the chats are loaded. *)
Definition autoSave (st : State) : State * option SaveRequest :=
  match currentChatId st with
  | Some id =>
      if truthyId (currentChatId st)
         && (0 <? length (messages st))%nat && chatsLoaded st
      then
        let chatTitle :=
          match findChat (currentChatId st) (chats st) with
          | Some currentChat => titleOrDefault (c_title currentChat)
          | None => defaultTitle
          end in
        ({| chats := mapCurrent (currentChatId st)
                       (fun c => {| c_id := c_id c; c_title := c_title c;
                                    c_messages := messages st |}) (chats st);
            currentChatId := currentChatId st; messages := messages st;
            isThinking := isThinking st; chatsLoaded := chatsLoaded st |},
         Some {| sv_id := id; sv_title := titleOrDefault chatTitle;
                 sv_messages := messages st |})
      else (st, None)
  | None => (st, None)
  end.

(** A whole [addMessage] with nothing else in between. *)
Definition addMessage (userMessage : Str) (o : Outcome) (now later : Z)
  (st : State) : State :=
  match addMessageStart userMessage now st with
  | (st1, Some p) => fst (addMessageFinish p o later st1)
  | (st1, None) => st1
  end.

(** What the user does, one handler at a time. The sidebar calls
    [selectChat] with the id of a chat it lists. *)
Inductive Action :=
| NewChat
| Select (chatId : ChatId) (fetched : option (list Message))
| Delete (chatId : ChatId)
| Rename (chatId : ChatId) (title : Str)
| Send (userMessage : Str) (o : Outcome) (later : Z)
| SaveTimer.

Definition listed (chatId : ChatId) (l : list Chat) : bool :=
  existsb (fun c => idEqb (c_id c) chatId) l.

Definition handler (now : Z) (a : Action) (st : State) : State :=
  match a with
  | NewChat => createNewChat now st
  | Select chatId fetched =>
      if listed chatId (chats st) then selectChat chatId fetched st else st
  | Delete chatId => deleteChat chatId st
  | Rename chatId title => updateChatTitle chatId title st
  | Send userMessage o later => addMessage userMessage o now later st
  | SaveTimer => fst (autoSave st)
  end.

(** An action, the time of its handler and the time of the render that
    follows. *)
Record Event := mkEvent {
  e_now : Z;
  e_rendered : Z;
  e_action : Action
}.

(** A handler, then the effect of the render that follows. *)
Definition step (st : State) (e : Event) : State :=
  ensureChat (e_rendered e) (handler (e_now e) (e_action e) st).

(** The application from its mount: the chats are loaded, then the user
    acts. *)
Definition session (r : LoadResult) (mounted : Z) (events : list Event)
  : State :=
  fold_left step events (ensureChat mounted (loadChatsFromBackend r initial)).

(** A state with two chats, the first one new and current. *)
Definition sampleState : State :=
  {| chats := [{| c_id := NumId 7; c_title := defaultTitle; c_messages := [] |};
               {| c_id := NumId 3; c_title := str "Older"; c_messages := [] |}];
     currentChatId := Some (NumId 7); messages := [];
     isThinking := false; chatsLoaded := true |}.

(** ** Ids *)

Lemma idEqb_eq a b : idEqb a b = true <-> a = b.
Proof.
  destruct a as [x|x], b as [y|y]; cbn; split; try discriminate.
  - intros H. apply Z.eqb_eq in H. now subst.
  - intros [= ->]. apply Z.eqb_refl.
  - intros H. apply String.eqb_eq in H. now subst.
  - intros [= ->]. apply String.eqb_refl.
Qed.

Lemma idEqb_refl a : idEqb a a = true.
Proof. now apply idEqb_eq. Qed.

Lemma isCurrent_id current c d :
  c_id c = c_id d -> isCurrent current c = isCurrent current d.
Proof. unfold isCurrent. now intros ->. Qed.

Lemma mapCurrent_ids current f l :
  (forall c, c_id (f c) = c_id c) ->
  map c_id (mapCurrent current f l) = map c_id l.
Proof.
  intros Hf. unfold mapCurrent. rewrite map_map. apply map_ext.
  intros c. destruct (isCurrent current c); [apply Hf | reflexivity].
Qed.

Lemma mapCurrent_twice current f g l :
  (forall c, c_id (f c) = c_id c) ->
  mapCurrent current g (mapCurrent current f l)
  = mapCurrent current (fun c => g (f c)) l.
Proof.
  intros Hf. unfold mapCurrent. rewrite map_map. apply map_ext.
  intros c. destruct (isCurrent current c) eqn:Hc; [|now rewrite Hc].
  now rewrite (isCurrent_id current (f c) c (Hf c)), Hc.
Qed.

Lemma findChat_mapCurrent current f l :
  (forall c, c_id (f c) = c_id c) ->
  findChat current (mapCurrent current f l)
  = option_map f (findChat current l).
Proof.
  intros Hf. unfold findChat, mapCurrent.
  induction l as [|c l IH]; [reflexivity|]. cbn [map find].
  destruct (isCurrent current c) eqn:Hc.
  - now rewrite (isCurrent_id current (f c) c (Hf c)), Hc.
  - now rewrite Hc.
Qed.

Lemma findChat_current current l chat :
  findChat current l = Some chat -> isCurrent current chat = true /\ In chat l.
Proof.
  unfold findChat. intros H. apply find_some in H. tauto.
Qed.

Lemma findChat_listed id l :
  In id (map c_id l) -> exists chat, findChat (Some id) l = Some chat.
Proof.
  intros H. apply in_map_iff in H as (c & Hc & Hin).
  destruct (findChat (Some id) l) as [chat|] eqn:E; [eauto|].
  unfold findChat in E. pose proof (find_none _ _ E c Hin) as Hn.
  cbn in Hn. rewrite Hc, idEqb_refl in Hn. discriminate.
Qed.

(** ** One message and its reply *)

Lemma addMessageStart_pending userMessage now st st1 p :
  addMessageStart userMessage now st = (st1, Some p) ->
  p_current p = currentChatId st /\
  p_messages p = messages st ++ [{| m_role := "user"; m_content := userMessage;
                                    m_id := now |}] /\
  messages st1 = p_messages p /\
  if truthyId (currentChatId st)
  then exists chat,
         findChat (currentChatId st) (chats st) = Some chat /\
         p_chats p = mapCurrent (currentChatId st)
                       (fun c => {| c_id := c_id c;
                                    c_title := if renames chat userMessage
                                               then extractTitleFromMessage userMessage
                                               else c_title chat;
                                    c_messages := p_messages p |}) (chats st) /\
         chats st1 = p_chats p
  else p_chats p = chats st /\ chats st1 = chats st.
Proof.
  unfold addMessageStart.
  destruct (truthyId (currentChatId st)) eqn:Ht.
  - destruct (findChat (currentChatId st) (chats st)) as [chat|] eqn:Hf;
      [|discriminate].
    intros [= <- <-]. cbn. repeat split. exists chat. repeat split.
  - intros [= <- <-]. cbn. repeat split.
Qed.


Lemma titleOrDefault_idem title :
  titleOrDefault (titleOrDefault title) = titleOrDefault title.
Proof. unfold titleOrDefault. now destruct title. Qed.

Lemma truthyId_Some current :
  truthyId current = true -> exists id, current = Some id.
Proof. destruct current as [id|]; [eauto | discriminate]. Qed.

(** The second half, from what the first half left. *)
Lemma addMessageFinish_chats st chat userMessage now o later st2 id :
  currentChatId st = Some id ->
  truthyId (currentChatId st) = true ->
  findChat (currentChatId st) (chats st) = Some chat ->
  let updatedMessages :=
    messages st ++ [{| m_role := "user"; m_content := userMessage;
                       m_id := now |}] in
  let final :=
    updatedMessages ++ [{| m_role := "assistant";
                           m_content := assistantContent o;
                           m_id := (later + 1)%Z |}] in
  let title := if renames chat userMessage
               then extractTitleFromMessage userMessage
               else c_title chat in
  addMessageFinish
    {| p_current := currentChatId st; p_messages := updatedMessages;
       p_chats := mapCurrent (currentChatId st)
                    (fun c => {| c_id := c_id c; c_title := title;
                                 c_messages := updatedMessages |}) (chats st) |}
    o later st2
  = ({| chats := mapCurrent (currentChatId st)
                   (fun c => {| c_id := c_id c; c_title := title;
                                c_messages := final |}) (chats st);
        currentChatId := currentChatId st2; messages := final;
        isThinking := false; chatsLoaded := chatsLoaded st2 |},
     Some {| sv_id := id; sv_title := titleOrDefault title;
             sv_messages := final |}).
Proof.
  intros Hid Ht Hf. cbv zeta. unfold addMessageFinish.
  cbn [p_current p_messages p_chats]. rewrite Ht, Hid. rewrite <- Hid.
  rewrite findChat_mapCurrent by reflexivity. rewrite Hf.
  cbn [option_map c_title]. rewrite titleOrDefault_idem.
  rewrite mapCurrent_twice by reflexivity. reflexivity.
Qed.

(** ** The current chat stays listed *)

Definition currentListed (st : State) : Prop :=
  forall id, currentChatId st = Some id -> In id (map c_id (chats st)).

Lemma listed_In chatId l : listed chatId l = true -> In chatId (map c_id l).
Proof.
  unfold listed. intros H. apply existsb_exists in H as (c & Hin & Hc).
  apply idEqb_eq in Hc. subst chatId. now apply in_map.
Qed.

Lemma ensureChat_listed now st : currentListed st -> currentListed (ensureChat now st).
Proof.
  unfold ensureChat. destruct (chatsLoaded st && (length (chats st) =? 0)%nat);
    [|trivial].
  intros _ id [= <-]. now left.
Qed.

Lemma ensureChat_nonempty now st :
  chatsLoaded (ensureChat now st) = true -> chats (ensureChat now st) <> [].
Proof.
  unfold ensureChat. destruct (chatsLoaded st) eqn:Hl; cbn [andb].
  - destruct (chats st) as [|c l] eqn:Hc; cbn; [discriminate|].
    rewrite Hc. discriminate.
  - rewrite Hl. discriminate.
Qed.

Lemma addMessage_listed userMessage o now later st :
  currentListed st -> currentListed (addMessage userMessage o now later st).
Proof.
  intros H id. unfold addMessage.
  destruct (addMessageStart userMessage now st) as [st1 [p|]] eqn:E.
  - destruct (addMessageStart_pending _ _ _ _ _ E) as (Hc & Hm & Hm1 & Hrest).
    assert (Hcur1 : currentChatId st1 = currentChatId st).
    { unfold addMessageStart in E.
      destruct (truthyId (currentChatId st));
        [destruct (findChat (currentChatId st) (chats st))|];
        inversion E; reflexivity. }
    destruct (truthyId (currentChatId st)) eqn:Ht.
    + destruct Hrest as (chat & Hf & Hp & Hc1).
      unfold addMessageFinish. rewrite Hc, Ht.
      destruct (truthyId_Some _ Ht) as (id0 & Hid0). rewrite Hid0.
      cbn [fst currentChatId chats]. rewrite Hcur1, Hid0. intros [= <-].
      rewrite <- Hid0, mapCurrent_ids by reflexivity.
      rewrite Hp, mapCurrent_ids by reflexivity. now apply H.
    + destruct Hrest as (Hp & Hc1).
      unfold addMessageFinish. rewrite Hc, Ht.
      destruct (currentChatId st) as [id0|] eqn:Hid0;
        cbn [fst currentChatId chats]; rewrite Hcur1, Hc1;
        intros Hx; apply H; congruence.
  - unfold addMessageStart in E.
    destruct (truthyId (currentChatId st));
      [destruct (findChat (currentChatId st) (chats st))|];
      inversion E; subst; cbn; apply H.
Qed.

Lemma handler_listed now a st : currentListed st -> currentListed (handler now a st).
Proof.
  intros H. destruct a as [|chatId fetched|chatId|chatId title|userMessage o later|];
    cbn [handler].
  - intros id [= <-]. now left.
  - destruct (listed chatId (chats st)) eqn:Hl; [|exact H].
    intros id [= <-]. now apply listed_In.
  - unfold deleteChat. destruct (sameId (currentChatId st) chatId) eqn:Hs.
    + intros id. discriminate.
    + intros id Hid. cbn [currentChatId chats] in *.
      specialize (H id Hid). apply in_map_iff in H as (c & Hc & Hin).
      apply in_map_iff. exists c. split; [exact Hc|].
      apply filter_In. split; [exact Hin|].
      rewrite Hid in Hs. cbn in Hs. rewrite Hc, Hs. reflexivity.
  - intros id Hid. cbn [updateChatTitle currentChatId chats] in *.
    rewrite mapCurrent_ids by reflexivity. now apply H.
  - now apply addMessage_listed.
  - unfold autoSave. destruct (currentChatId st) as [id0|] eqn:Hid0; [|exact H].
    destruct (truthyId (Some id0) && (0 <? length (messages st))%nat
              && chatsLoaded st); [|exact H].
    intros id Hid. cbn [fst currentChatId chats] in *.
    rewrite mapCurrent_ids by reflexivity. apply H. congruence.
Qed.

Lemma session_listed r mounted events :
  currentListed (session r mounted events) /\
  (chatsLoaded (session r mounted events) = true ->
   chats (session r mounted events) <> []).
Proof.
  unfold session.
  assert (H0 : currentListed (ensureChat mounted (loadChatsFromBackend r initial))
               /\ (chatsLoaded (ensureChat mounted (loadChatsFromBackend r initial)) = true ->
                   chats (ensureChat mounted (loadChatsFromBackend r initial)) <> [])).
  { split; [|apply ensureChat_nonempty]. apply ensureChat_listed.
    destruct r; intros id; discriminate. }
  revert H0. generalize (ensureChat mounted (loadChatsFromBackend r initial)).
  induction events as [|e events IH]; intros st H; [exact H|].
  cbn [fold_left]. apply IH. unfold step. split.
  - apply ensureChat_listed, handler_listed, H.
  - apply ensureChat_nonempty.
Qed.

(** X15. A reply, or the error that stands for it, completes the
    exchange from what [addMessage] held when the message was sent,
    whatever has happened since. The conversation shown becomes the one
    the message was sent in plus the user message and the assistant
    message, and the thinking flag is cleared. With a current chat at
    sending time, the list of chats becomes the list of that time with
    the same ids in the same order, the chats with the current id holding
    the whole conversation and the title (taken from the message if the
    chat had the default title or no message, and the message is not
    empty), all others as they were; that conversation and title are
    saved. Without a current chat the list is left alone and nothing is
    saved. *)
Theorem reply_completes_the_exchange (st st1 st2 : State)
  (userMessage : Str) (now later : Z) (o : Outcome) (p : Pending) :
  addMessageStart userMessage now st = (st1, Some p) ->
  let final :=
    messages st ++ [{| m_role := "user"; m_content := userMessage; m_id := now |};
                    {| m_role := "assistant"; m_content := assistantContent o;
                       m_id := (later + 1)%Z |}] in
  let result := addMessageFinish p o later st2 in
  messages (fst result) = final /\
  isThinking (fst result) = false /\
  currentChatId (fst result) = currentChatId st2 /\
  if truthyId (currentChatId st)
  then exists chat id,
         currentChatId st = Some id /\
         findChat (currentChatId st) (chats st) = Some chat /\
         let title := if renames chat userMessage
                      then extractTitleFromMessage userMessage
                      else c_title chat in
         chats (fst result)
         = mapCurrent (currentChatId st)
             (fun c => {| c_id := c_id c; c_title := title;
                          c_messages := final |}) (chats st) /\
         map c_id (chats (fst result)) = map c_id (chats st) /\
         snd result = Some {| sv_id := id; sv_title := titleOrDefault title;
                              sv_messages := final |}
  else chats (fst result) = chats st2 /\ snd result = None.
Proof.
  intros E. cbv zeta.
  destruct (addMessageStart_pending _ _ _ _ _ E) as (Hc & Hm & Hm1 & Hrest).
  destruct (truthyId (currentChatId st)) eqn:Ht.
  - destruct Hrest as (chat & Hf & Hp & Hc1).
    destruct (truthyId_Some _ Ht) as (id & Hid).
    destruct p as [pc pm pch]. cbn [p_current p_messages p_chats] in *.
    subst pc pm pch.
    rewrite (addMessageFinish_chats st chat userMessage now o later st2 id Hid Ht Hf).
    cbn [fst snd messages isThinking currentChatId chats].
    rewrite <- app_assoc. cbn [app]. repeat split.
    exists chat, id. repeat split; try assumption.
    now rewrite mapCurrent_ids.
  - destruct Hrest as (Hp & Hc1). unfold addMessageFinish. rewrite Hc, Hm.
    destruct (currentChatId st) as [id0|] eqn:Hid0; rewrite ?Ht;
      cbn [fst snd messages isThinking currentChatId chats];
      rewrite <- app_assoc; cbn [app]; repeat split.
Qed.

Lemma reply_completes_the_exchange_witness :
  exists p,
    snd (addMessageStart (str "Explain quick sort") 10 sampleState) = Some p /\
    map c_title (chats (fst (addMessageFinish p (Replied (str "Sure.")) 20 initial)))
    = [str "Explain quick sort"; str "Older"].
Proof.
  eexists. split; [reflexivity|].
  pose proof (reply_completes_the_exchange sampleState _ initial
                (str "Explain quick sort") 10 20 (Replied (str "Sure.")) _ eq_refl) as H.
  cbv zeta in H. destruct H as (_ & _ & _ & H).
  change (truthyId (currentChatId sampleState)) with true in H. cbv iota in H.
  destruct H as (chat & id & _ & Hf & Hchats & _).
  injection Hf as <-. rewrite Hchats. vm_compute. reflexivity.
Defined.

(** X16. When the handlers run one at a time from the mount of the
    application, the current chat id is null or the id of a listed
    chat, and once the chats are loaded the list is never empty. So
    [addMessage] always finds the current chat: it never reads the title
    of a chat that [find] did not return. *)
Theorem current_chat_is_always_listed (r : LoadResult) (mounted : Z)
  (events : list Event) (userMessage : Str) (now : Z) :
  (forall id, currentChatId (session r mounted events) = Some id ->
              In id (map c_id (chats (session r mounted events)))) /\
  (chatsLoaded (session r mounted events) = true ->
   chats (session r mounted events) <> []) /\
  snd (addMessageStart userMessage now (session r mounted events)) <> None.
Proof.
  destruct (session_listed r mounted events) as [Hl Hn].
  split; [exact Hl|]. split; [exact Hn|].
  unfold addMessageStart.
  destruct (truthyId (currentChatId (session r mounted events))) eqn:Ht;
    [|discriminate].
  destruct (truthyId_Some _ Ht) as (id & Hid).
  destruct (findChat_listed id _ (Hl id Hid)) as (chat & Hf).
  rewrite Hid, Hf. discriminate.
Qed.

Lemma renames_settled chat next :
  c_title chat <> defaultTitle -> c_messages chat <> [] ->
  renames chat next = false.
Proof.
  intros Ht Hm. unfold renames.
  rewrite (bool_decide_eq_false_2 _ Ht).
  destruct (c_messages chat); [contradiction | reflexivity].
Qed.

Lemma nonempty_length (s : Str) : s <> [] -> (0 <? length s)%nat = true.
Proof. destruct s; [contradiction | reflexivity]. Qed.

(** X17. The message that meets a current chat with the default title,
    or with no message, gives the chat its title; once the reply (or the
    error) is in, the chat holds the conversation shown, two messages
    longer, and no later message renames it: its title is not the
    default title, whatever the message was, and it has messages. *)
Theorem first_message_names_the_chat (st : State) (chat : Chat)
  (userMessage : Str) (o : Outcome) (now later : Z) :
  truthyId (currentChatId st) = true ->
  findChat (currentChatId st) (chats st) = Some chat ->
  renames chat userMessage = true ->
  let st' := addMessage userMessage o now later st in
  exists chat',
    findChat (currentChatId st') (chats st') = Some chat' /\
    c_title chat' = extractTitleFromMessage userMessage /\
    c_messages chat' = messages st' /\
    length (messages st') = length (messages st) + 2 /\
    forall next, renames chat' next = false.
Proof.
  intros Ht Hf Hr. cbv zeta. unfold addMessage, addMessageStart.
  rewrite Ht, Hf. destruct (truthyId_Some _ Ht) as (id & Hid).
  rewrite (addMessageFinish_chats st chat userMessage now o later _ id Hid Ht Hf).
  cbn [fst chats currentChatId messages].
  rewrite findChat_mapCurrent by reflexivity. rewrite Hf, Hr.
  cbn [option_map]. eexists. split; [reflexivity|].
  cbn [c_title c_messages]. repeat split.
  - rewrite !length_app. cbn. lia.
  - intros next. apply renames_settled; cbn [c_title c_messages].
    + apply title_not_default.
    + intros H. apply (f_equal (@length _)) in H. rewrite !length_app in H.
      cbn in H. lia.
Qed.

Lemma first_message_names_the_chat_witness :
  exists chat',
    findChat (Some (NumId 7))
      (chats (addMessage (str "Explain quick sort") (Replied (str "Sure.")) 10 20 sampleState))
    = Some chat' /\
    c_title chat' = str "Explain quick sort" /\
    forall next, renames chat' next = false.
Proof.
  destruct (first_message_names_the_chat sampleState
              {| c_id := NumId 7; c_title := defaultTitle; c_messages := [] |}
              (str "Explain quick sort") (Replied (str "Sure.")) 10 20
              eq_refl eq_refl eq_refl) as (chat' & Hf & Ht & _ & _ & Hr).
  exists chat'. split; [exact Hf|]. split; [|exact Hr].
  rewrite Ht. vm_compute. reflexivity.
Defined.

(** X18. The chats as loaded hold no messages, so a chat selected after
    loading is renamed by any message that is not empty, whatever its
    title, as long as the debounced save has not run. That save copies
    the conversation into the chat and keeps its title; from then on a
    message renames the chat only if the title is the default title. *)
Theorem loaded_chat_is_renamed_until_saved (formatted : list (ChatId * Str))
  (st0 : State) (chatId : ChatId) (fetched : list Message) (chat : Chat) :
  let st := selectChat chatId (Some fetched)
              (loadChatsFromBackend (Loaded formatted) st0) in
  findChat (Some chatId) (chats st) = Some chat ->
  truthyId (Some chatId) = true ->
  fetched <> [] ->
  c_messages chat = [] /\
  (forall userMessage, userMessage <> [] -> renames chat userMessage = true) /\
  exists saved,
    findChat (Some chatId) (chats (fst (autoSave st))) = Some saved /\
    c_title saved = c_title chat /\
    c_messages saved = fetched /\
    (forall userMessage, renames saved userMessage = true ->
                         c_title chat = defaultTitle) /\
    snd (autoSave st) = Some {| sv_id := chatId;
                                sv_title := titleOrDefault (c_title chat);
                                sv_messages := fetched |}.
Proof.
  cbv zeta. intros Hf Ht Hne.
  cbn [selectChat loadChatsFromBackend chats] in Hf.
  assert (Hm : c_messages chat = []).
  { apply findChat_current in Hf as [_ Hin]. apply in_map_iff in Hin.
    now destruct Hin as (x & <- & _). }
  split; [exact Hm|]. split.
  - intros userMessage Hu. unfold renames. rewrite Hm.
    cbn [length Nat.eqb]. rewrite orb_true_r. now apply nonempty_length.
  - unfold autoSave.
    cbn [selectChat loadChatsFromBackend chats currentChatId messages chatsLoaded].
    rewrite Ht, Hf. destruct fetched as [|m fetched]; [contradiction|].
    cbn [length Nat.ltb Nat.leb andb fst snd chats].
    rewrite findChat_mapCurrent by reflexivity. rewrite Hf. cbn [option_map].
    eexists. split; [reflexivity|]. cbn [c_title c_messages].
    repeat split.
    + intros userMessage Hr. unfold renames in Hr. cbn in Hr.
      rewrite andb_true_iff, orb_false_r in Hr. destruct Hr as [Hr _].
      now apply bool_decide_eq_true in Hr.
    + now rewrite titleOrDefault_idem.
Qed.

Lemma loaded_chat_is_renamed_until_saved_witness :
  renames {| c_id := NumId 3; c_title := str "Holiday plans"; c_messages := [] |}
    (str "and the budget?") = true.
Proof.
  refine (proj1 (proj2 (loaded_chat_is_renamed_until_saved
            [(NumId 3, str "Holiday plans")] initial (NumId 3)
            [{| m_role := "user"; m_content := str "Where to?"; m_id := 1 |}]
            {| c_id := NumId 3; c_title := str "Holiday plans"; c_messages := [] |}
            eq_refl eq_refl _)) (str "and the budget?") _); discriminate.
Defined.

End Chats.

(* ===================================================================== *)
(** * Sidebar.js: renaming a chat *)
(* ===================================================================== *)

Module Sidebar.
Import Markdown Text Title Chats.

(** The state of the sidebar that the rename handlers read and write. *)
Record State := mkState {
  showMenuFor : option ChatId;
  editingChatId : option ChatId;
  editValue : Str
}.

(** [setShowMenuFor(showMenuFor === chatId ? null : chatId)] *)
Definition handleMenuClick (chatId : ChatId) (st : State) : State :=
  {| showMenuFor := if sameId (showMenuFor st) chatId then None else Some chatId;
     editingChatId := editingChatId st; editValue := editValue st |}.

Definition handleRename (chatId : ChatId) (chats : list Chat) (st : State) : State :=
  match findChat (Some chatId) chats with
  | Some chat => {| showMenuFor := None; editingChatId := Some chatId;
                    editValue := c_title chat |}
  | None => st
  end.

(** [onChange] of the title input *)
Definition setEditValue (value : Str) (st : State) : State :=
  {| showMenuFor := showMenuFor st; editingChatId := editingChatId st;
     editValue := value |}.

(** The new state, and the arguments of [onRenameChat] when it is
    called. *)
Definition handleRenameSubmit (chatId : ChatId) (st : State)
  : State * option (ChatId * Str) :=
  ({| showMenuFor := showMenuFor st; editingChatId := None; editValue := [] |},
   if nonEmpty (trim (editValue st)) then Some (chatId, trim (editValue st))
   else None).

Definition handleRenameCancel (st : State) : State :=
  {| showMenuFor := showMenuFor st; editingChatId := None; editValue := [] |}.

Definition handleRenameKeyDown (key : string) (chatId : ChatId) (st : State)
  : State * option (ChatId * Str) :=
  if String.eqb key "Enter" then handleRenameSubmit chatId st
  else if String.eqb key "Escape" then (handleRenameCancel st, None)
  else (st, None).

(** [onRenameChat] is [updateChatTitle]. *)
Definition onRenameChat (request : option (ChatId * Str)) (app : Chats.State)
  : Chats.State :=
  match request with
  | Some (chatId, title) => updateChatTitle chatId title app
  | None => app
  end.

Lemma rev_head (c : N) (t : Str) (d : N) :
  exists r, rev (c :: t) = List.last (c :: t) d :: r.
Proof.
  revert c. induction t as [|b t IH]; intros c; [now exists []|].
  destruct (IH b) as (r & Hr). exists (r ++ [c]).
  change (rev (c :: b :: t)) with (rev (b :: t) ++ [c]). now rewrite Hr.
Qed.

Lemma trim_fixed s : trimmed s -> trim s = s.
Proof.
  destruct s as [|c t]; [reflexivity|]. intros [Hc Hl]. unfold trim.
  rewrite trimStart_fixed by exact Hc. unfold trimEnd.
  destruct (rev_head c t c) as (r & Hr).
  rewrite trimStart_fixed; [apply rev_involutive|]. now rewrite Hr.
Qed.

Lemma updateChatTitle_frame chatId title app :
  map c_id (chats (updateChatTitle chatId title app)) = map c_id (chats app) /\
  map c_messages (chats (updateChatTitle chatId title app))
  = map c_messages (chats app) /\
  Forall2 (fun old new =>
             if idEqb (c_id old) chatId
             then c_title new = title
             else new = old)
          (chats app) (chats (updateChatTitle chatId title app)).
Proof.
  cbn [updateChatTitle chats].
  split; [now apply mapCurrent_ids|]. split.
  - unfold mapCurrent. rewrite map_map. apply map_ext. intros c.
    now destruct (isCurrent (Some chatId) c).
  - unfold mapCurrent. induction (chats app) as [|c l IH]; constructor;
      [|exact IH].
    change (isCurrent (Some chatId) c) with (idEqb (c_id c) chatId).
    now destruct (idEqb (c_id c) chatId).
Qed.

(** X19. Closing the title box with Enter or by leaving it renames the
    chat to the trimmed text, and only if that is not empty: a blank text
    leaves every chat as it was. A rename keeps the ids, the order and
    the messages of all chats and the titles of the chats with another
    id; the new title has no white space at either end. Escape and any
    other key rename nothing. Either way Enter and Escape close the box
    and clear its text. Opening the box and closing it without typing
    asks for the title the chat already has, when that title has no
    white space at its ends and is not empty. *)
Theorem rename_box_trims_and_keeps_the_rest (app : Chats.State) (st : State)
  (chatId : ChatId) (value : Str) (key : string) :
  let typed := setEditValue value (handleRename chatId (chats app) st) in
  let result := handleRenameKeyDown key chatId typed in
  let app' := onRenameChat (snd result) app in
  (snd result = if String.eqb key "Enter" && nonEmpty (trim value)
                then Some (chatId, trim value) else None) /\
  (key = "Enter" \/ key = "Escape" ->
   editingChatId (fst result) = None /\ editValue (fst result) = []) /\
  (snd result = None -> app' = app) /\
  map c_id (chats app') = map c_id (chats app) /\
  map c_messages (chats app') = map c_messages (chats app) /\
  (snd result <> None ->
   trimmed (trim value) /\ trim value <> [] /\
   Forall2 (fun old new =>
              if idEqb (c_id old) chatId
              then c_title new = trim value
              else new = old)
           (chats app) (chats app')) /\
  (forall chat,
     findChat (Some chatId) (chats app) = Some chat ->
     trimmed (c_title chat) -> c_title chat <> [] ->
     snd (handleRenameSubmit chatId (handleRename chatId (chats app) st))
     = Some (chatId, c_title chat)).
Proof.
  cbv zeta.
  assert (Hopen : forall chat,
            findChat (Some chatId) (chats app) = Some chat ->
            trimmed (c_title chat) -> c_title chat <> [] ->
            snd (handleRenameSubmit chatId (handleRename chatId (chats app) st))
            = Some (chatId, c_title chat)).
  { intros chat Hf Ht Hn. unfold handleRenameSubmit, handleRename. rewrite Hf.
    cbn [snd editValue]. rewrite (trim_fixed _ Ht).
    destruct (c_title chat); [contradiction | reflexivity]. }
  assert (Hv : editValue (setEditValue value (handleRename chatId (chats app) st))
               = value) by reflexivity.
  remember (handleRenameKeyDown key chatId
              (setEditValue value (handleRename chatId (chats app) st)))
    as result eqn:Hres.
  unfold handleRenameKeyDown, handleRenameSubmit in Hres. rewrite Hv in Hres.
  destruct (String.eqb_spec key "Enter") as [->|Hk]; cbn [andb].
  - destruct (nonEmpty (trim value)) eqn:Hne; subst result;
      cbn [fst snd onRenameChat editingChatId editValue].
    + destruct (updateChatTitle_frame chatId (trim value) app) as (H1 & H2 & H3).
      repeat split; try assumption; try discriminate; try apply trim_trimmed.
      intros E. rewrite E in Hne. discriminate.
    + repeat split;
        solve [ assumption | reflexivity | congruence
              | intros Hx; now contradiction Hx ].
  - destruct (String.eqb_spec key "Escape") as [->|Hk2]; subst result;
      cbn [fst snd onRenameChat handleRenameCancel editingChatId editValue];
      repeat split;
      solve [ assumption | reflexivity | congruence | tauto
            | intros Hx; now contradiction Hx ].
Qed.

End Sidebar.

